(** * Thread reconstruction engine of the Twitter API viewer

    A shallow embedding of [services/twitterService.ts] (the normalizer
    [processRawTweet], the snapshot entry point [createCleanRepliedToTweet],
    the merge performed by [fetchUserTweets] once the response is parsed, and
    the thread builder [organizeTweetsIntoThreads]) and of the ordering done by
    [renderResults] in [App.tsx].

    Conventions of the embedding.
    - An optional JavaScript property is an [option]; [None] stands for
      [undefined] (an absent property, or [null] where the code only tests
      truthiness).  A present property has the type the [Tweet] interface
      declares for it: strings are [string], counts are [Z], flags are [bool].
    - [a || b] is [jsor a b]; truthiness is the class [Truthy].
    - Objects that the engine only carries through ([entities], [card],
      [author]) are kept as values; they are always truthy when present.
    - [console.log] calls are dropped, except where evaluating their arguments
      can throw. *)

From Stdlib Require Import ZArith Lia Ascii String.
From stdpp Require Import base option list strings gmap sorting.

Set Warnings "-register-all,-clear-no-such-hyp".
Local Open Scope string_scope.
Local Open Scope list_scope.
Local Open Scope Z_scope.

(** ** JavaScript truthiness and [||] *)

Class Truthy (A : Type) := truthy : A → bool.

#[global] Instance truthy_string : Truthy string :=
  fun s => match s with EmptyString => false | _ => true end.
#[global] Instance truthy_Z : Truthy Z :=
  fun z => negb (z =? 0).
#[global] Instance truthy_bool : Truthy bool := fun b => b.
#[global] Instance truthy_option `{Truthy A} : Truthy (option A) :=
  fun o => match o with Some a => truthy a | None => false end.

(** [a || b]: the left operand when it is truthy, the right one otherwise. *)
Definition jsor `{Truthy A} (a b : option A) : option A :=
  if truthy a then a else b.
Infix "|||" := jsor (at level 50, left associativity).

(** [a || lit] with a literal default: the result is never [undefined]. *)
Definition jsor_default `{Truthy A} (a : option A) (d : A) : A :=
  match a with Some x => if truthy x then x else d | None => d end.

(** ** Data model *)

(** An opaque JSON object that is only copied ([entities], [card]). *)
Record Blob := mkBlob { json : string }.
#[global] Instance truthy_Blob : Truthy Blob := fun _ => true.

Module Author.
Record t := mk { userName : string; name : string; profilePicture : string }.
#[global] Instance truthy_t : Truthy t := fun _ => true.
End Author.

(** The [user] object of a raw record. *)
Module RawUser.
Record t := mk {
    userName : option string;
    username : option string;
    name : option string;
    profilePicture : option string;
    profile_image_url : option string }.
End RawUser.

(** The [public_metrics] object of a raw record. *)
Module Metrics.
Record t := mk {
    like_count : option Z;
    retweet_count : option Z;
    reply_count : option Z;
    quote_count : option Z;
    impression_count : option Z }.
End Metrics.

(** An entry of [referenced_tweets]; [T] is the type of the embedded record. *)
Module Ref.
Record t (T : Type) := mk {
    type : option string;
    reference_type : option string;
    id : option string;
    tweet : option T }.
Arguments mk {T} _ _ _ _.
Arguments type {T} _.
Arguments reference_type {T} _.
Arguments id {T} _.
Arguments tweet {T} _.
End Ref.

(** A raw record as the API delivers it: every property the engine reads. *)
Module Raw.
Inductive t := mk {
    id : option string;
    text : option string;
    full_text : option string;
    createdAt : option string;
    created_at : option string;
    url : option string;
    author : option Author.t;
    user : option RawUser.t;
    likeCount : option Z;
    like_count : option Z;
    retweetCount : option Z;
    retweet_count : option Z;
    replyCount : option Z;
    reply_count : option Z;
    quoteCount : option Z;
    quote_count : option Z;
    viewCount : option Z;
    view_count : option Z;
    public_metrics : option Metrics.t;
    entities : option Blob;
    card : option Blob;
    Card : option Blob;
    in_reply_to_status_id : option string;
    in_reply_to_tweet_id : option string;
    inReplyToStatusId : option string;
    inReplyToTweetId : option string;
    reply_to_status_id : option string;
    reply_to_tweet_id : option string;
    inReplyToId : option string;
    referenced_tweets : option (list (Ref.t t));
    referencedTweets : option (list (Ref.t t));
    isReply : option bool;
    conversationId : option string;
    inReplyToUserId : option string;
    inReplyToUsername : option string;
    displayTextRange : option (Z * Z);
    replied_to : option t;
    repliedTo : option t }.
#[global] Instance truthy_t : Truthy t := fun _ => true.
End Raw.

#[global] Instance truthy_list {A} : Truthy (list A) := fun _ => true.
#[global] Instance truthy_pair {A B} : Truthy (A * B) := fun _ => true.

(** The [_source] tag. *)
Inductive Source := main | includes | replied_to.

(** Interface [Tweet].  Every property is optional here because the records of
    the primary batch are spread from the raw record, so that even [id] and
    [text] can be missing, and because the thread builder can produce the
    object [{ children: [] }] that has no other property. *)
Module Tweet.
Inductive t := mk {
    id : option string;
    text : option string;
    createdAt : option string;
    url : option string;
    author : option Author.t;
    likeCount : option Z;
    retweetCount : option Z;
    replyCount : option Z;
    quoteCount : option Z;
    viewCount : option Z;
    entities : option Blob;
    card : option Blob;
    inReplyToStatusId : option string;
    inReplyToTweetId : option string;
    referencedTweets : option (list (Ref.t Raw.t));
    repliedTo : option t;
    isReply : option bool;
    inReplyToId : option string;
    conversationId : option string;
    inReplyToUserId : option string;
    inReplyToUsername : option string;
    displayTextRange : option (Z * Z);
    children : option (list t);
    _source : option Source }.
#[global] Instance truthy_t : Truthy t := fun _ => true.
End Tweet.

(** ** Normalizer *)

(** [x || undefined]. *)
Definition or_undefined `{Truthy A} (x : option A) : option A :=
  if truthy x then x else None.

(** The author fallback object built from [tweet.user]. *)
Definition authorOf (tweet : Raw.t) : Author.t :=
  match Raw.author tweet with
  | Some a => a
  | None =>
      let user := Raw.user tweet in
      Author.mk
        (jsor_default ((user ≫= RawUser.userName) ||| (user ≫= RawUser.username)) "unknown")
        (jsor_default (user ≫= RawUser.name) "Unknown User")
        (jsor_default ((user ≫= RawUser.profilePicture) ||| (user ≫= RawUser.profile_image_url)) "")
  end.

(** The seven candidate properties of [processRawTweet], in order. *)
Definition replyId7 (tweet : Raw.t) : option string :=
  Raw.in_reply_to_status_id tweet ||| Raw.in_reply_to_tweet_id tweet
  ||| Raw.inReplyToStatusId tweet ||| Raw.inReplyToTweetId tweet
  ||| Raw.reply_to_status_id tweet ||| Raw.reply_to_tweet_id tweet
  ||| Raw.inReplyToId tweet.

(** The six candidate properties of [fetchUserTweets], in order. *)
Definition replyId6 (tweet : Raw.t) : option string :=
  Raw.in_reply_to_status_id tweet ||| Raw.in_reply_to_tweet_id tweet
  ||| Raw.inReplyToStatusId tweet ||| Raw.inReplyToTweetId tweet
  ||| Raw.reply_to_status_id tweet ||| Raw.reply_to_tweet_id tweet.

(** [tweet.isReply !== undefined ? tweet.isReply : (!!replyId)]. *)
Definition isReplyOf (tweet : Raw.t) (replyId : option string) : option bool :=
  match Raw.isReply tweet with
  | Some b => Some b
  | None => Some (truthy replyId)
  end.

Definition metric (f : Metrics.t → option Z) (tweet : Raw.t) : option Z :=
  Raw.public_metrics tweet ≫= f.

Definition processRawTweet (tweet : option Raw.t) : option Tweet.t :=
  match tweet with
  | None => None
  | Some tweet =>
      if negb (truthy (Raw.id tweet)) then None
      else
        let replyId := replyId7 tweet in
        Some {|
          Tweet.id := Raw.id tweet;
          Tweet.text := Some (jsor_default (Raw.text tweet ||| Raw.full_text tweet) "");
          Tweet.createdAt :=
            Some (jsor_default (Raw.createdAt tweet ||| Raw.created_at tweet) "");
          Tweet.url := Raw.url tweet;
          Tweet.author := Some (authorOf tweet);
          Tweet.likeCount :=
            Some (jsor_default (Raw.likeCount tweet ||| Raw.like_count tweet
                                ||| metric Metrics.like_count tweet) 0);
          Tweet.retweetCount :=
            Some (jsor_default (Raw.retweetCount tweet ||| Raw.retweet_count tweet
                                ||| metric Metrics.retweet_count tweet) 0);
          Tweet.replyCount :=
            Some (jsor_default (Raw.replyCount tweet ||| Raw.reply_count tweet
                                ||| metric Metrics.reply_count tweet) 0);
          Tweet.quoteCount :=
            Some (jsor_default (Raw.quoteCount tweet ||| Raw.quote_count tweet
                                ||| metric Metrics.quote_count tweet) 0);
          Tweet.viewCount :=
            Raw.viewCount tweet ||| Raw.view_count tweet
            ||| metric Metrics.impression_count tweet;
          Tweet.entities := Raw.entities tweet;
          Tweet.card := Raw.card tweet ||| Raw.Card tweet;
          Tweet.inReplyToStatusId :=
            Raw.in_reply_to_status_id tweet ||| Raw.inReplyToStatusId tweet;
          Tweet.inReplyToTweetId :=
            Raw.in_reply_to_tweet_id tweet ||| Raw.inReplyToTweetId tweet;
          Tweet.referencedTweets :=
            Raw.referenced_tweets tweet ||| Raw.referencedTweets tweet;
          Tweet.repliedTo := None;
          Tweet.isReply := isReplyOf tweet replyId;
          Tweet.inReplyToId := or_undefined (Raw.inReplyToId tweet ||| replyId);
          Tweet.conversationId := or_undefined (Raw.conversationId tweet);
          Tweet.inReplyToUserId := or_undefined (Raw.inReplyToUserId tweet);
          Tweet.inReplyToUsername := or_undefined (Raw.inReplyToUsername tweet);
          Tweet.displayTextRange := or_undefined (Raw.displayTextRange tweet);
          Tweet.children := None;
          Tweet._source := None |}
  end.

(** The snapshot entry point: the object literal lists the display
    properties only. *)
Definition createCleanRepliedToTweet (tweet : option Raw.t) : option Tweet.t :=
  match tweet with
  | None => None
  | Some tweet =>
      Some {|
        Tweet.id := Raw.id tweet;
        Tweet.text := Some (jsor_default (Raw.text tweet ||| Raw.full_text tweet) "");
        Tweet.createdAt :=
          Some (jsor_default (Raw.createdAt tweet ||| Raw.created_at tweet) "");
        Tweet.url := Raw.url tweet;
        Tweet.author := Some (authorOf tweet);
        Tweet.likeCount :=
          Some (jsor_default (Raw.likeCount tweet ||| Raw.like_count tweet
                              ||| metric Metrics.like_count tweet) 0);
        Tweet.retweetCount :=
          Some (jsor_default (Raw.retweetCount tweet ||| Raw.retweet_count tweet
                              ||| metric Metrics.retweet_count tweet) 0);
        Tweet.replyCount :=
          Some (jsor_default (Raw.replyCount tweet ||| Raw.reply_count tweet
                              ||| metric Metrics.reply_count tweet) 0);
        Tweet.quoteCount :=
          Some (jsor_default (Raw.quoteCount tweet ||| Raw.quote_count tweet
                              ||| metric Metrics.quote_count tweet) 0);
        Tweet.viewCount :=
          Raw.viewCount tweet ||| Raw.view_count tweet
          ||| metric Metrics.impression_count tweet;
        Tweet.entities := Raw.entities tweet;
        Tweet.card := Raw.card tweet ||| Raw.Card tweet;
        Tweet.inReplyToStatusId := None;
        Tweet.inReplyToTweetId := None;
        Tweet.referencedTweets := None;
        Tweet.repliedTo := None;
        Tweet.isReply := None;
        Tweet.inReplyToId := None;
        Tweet.conversationId := None;
        Tweet.inReplyToUserId := None;
        Tweet.inReplyToUsername := None;
        Tweet.displayTextRange := None;
        Tweet.children := None;
        Tweet._source := None |}
  end.

(** ** Provenance merger and reply resolver: [fetchUserTweets]

    The embedding starts where the response has been parsed; transport,
    parameter validation and the request URL are outside the engine. *)

(** The value found where a batch is expected: a falsy value ([undefined],
    [null], ...), an array, or a truthy value that is not an array.  An
    element of an array is a record, or [null], written [None]. *)
Inductive Batch := BFalsy | BArray (l : list (option Raw.t)) | BNonArray.

#[global] Instance truthy_Batch : Truthy Batch :=
  fun b => match b with BFalsy => false | _ => true end.

(** [a || b] on batch values. *)
Definition batch_or (a b : Batch) : Batch := if truthy a then a else b.

(** The six places of the parsed response where the engine looks for a batch.
    A place below an absent object ([data?.includes?.tweets]) is [BFalsy]. *)
Record ApiResponse := mkResponse {
  data_tweets : Batch;
  data_includes_tweets : Batch;
  includes_tweets : Batch;
  data_replied_to_tweets : Batch;
  data_repliedToTweets : Batch;
  replied_to_tweets : Batch }.

(** Outcome of a run: a value, or the [TypeError] the JavaScript raises. *)
Inductive Result (A : Type) := Ok (a : A) | TypeError.
Arguments Ok {A} a.
Arguments TypeError {A}.

#[global] Instance Result_bind : MBind Result := fun A B k r =>
  match r with Ok a => k a | TypeError => TypeError end.
#[global] Instance Result_ret : MRet Result := fun A a => Ok a.
#[global] Instance Result_fmap : FMap Result := fun A B f r =>
  match r with Ok a => Ok (f a) | TypeError => TypeError end.

(** Calling an array method ([forEach], [map], [filter]) or spreading:
    defined on arrays only. *)
Definition asArray (b : Batch) : Result (list (option Raw.t)) :=
  match b with
  | BArray l => Ok l
  | BFalsy => TypeError
  | BNonArray => TypeError
  end.

(** The callback of [rawTweets.map] starts by reading a property of its
    element, [tweet.in_reply_to_status_id]: on a [null] element this
    throws. *)
Definition eachRecord (l : list (option Raw.t)) : Result (list Raw.t) :=
  match mapM id l with
  | Some records => Ok records
  | None => TypeError
  end.

(** The guards [tweet && tweet.id] of the lookup table and of the two
    [filter] calls skip a [null] element: what is left of a supplementary
    array is its records. *)
Definition records (l : list (option Raw.t)) : list Raw.t := omap id l.

Definition setIfId (m : gmap string Raw.t) (tweet : Raw.t) : gmap string Raw.t :=
  match Raw.id tweet with
  | Some i => if truthy i then <[i := tweet]> m else m
  | None => m
  end.

Definition setIfNew (m : gmap string Raw.t) (tweet : Raw.t) : gmap string Raw.t :=
  match Raw.id tweet with
  | Some i =>
      if truthy i then
        match m !! i with Some _ => m | None => <[i := tweet]> m end
      else m
  | None => m
  end.

(** The global id -> raw lookup table. *)
Definition buildTweetMap (includesTweets repliedToTweets rawTweets : list Raw.t)
  : gmap string Raw.t :=
  foldl setIfNew (foldl setIfId ∅ (includesTweets ++ repliedToTweets)) rawTweets.

Definition isRepliedToRef (ref : Ref.t Raw.t) : bool :=
  bool_decide (Ref.type ref = Some "replied_to")
  || bool_decide (Ref.type ref = Some "repliedTo")
  || bool_decide (Ref.reference_type ref = Some "replied_to")
  || bool_decide (Ref.reference_type ref = Some "repliedTo").

(** [Array.prototype.find]. *)
Definition jsfind {A} (p : A → bool) (l : list A) : option A :=
  snd <$> list_find (fun x => Is_true (p x)) l.

(** The value of [processedTweet.repliedTo] when the callback returns. *)
Definition resolveRepliedTo (tweetMap : gmap string Raw.t)
    (rawTweets : list Raw.t) (tweet : Raw.t) : option Tweet.t :=
  let replyId := replyId6 tweet in
  let hasReferencedTweets := Raw.referenced_tweets tweet ||| Raw.referencedTweets tweet in
  let hasRepliedTo := Raw.replied_to tweet ||| Raw.repliedTo tweet in
  let repliedTo1 :=
    if truthy hasRepliedTo then createCleanRepliedToTweet hasRepliedTo
    else if truthy hasReferencedTweets then
      match jsfind isRepliedToRef (default [] hasReferencedTweets) with
      | Some repliedToRef =>
          if truthy (Ref.tweet repliedToRef)
          then createCleanRepliedToTweet (Ref.tweet repliedToRef)
          else if truthy (Ref.id repliedToRef) then
            match Ref.id repliedToRef ≫= (tweetMap !!.) with
            | Some rawTweet => createCleanRepliedToTweet (Some rawTweet)
            | None => None
            end
          else None
      | None => None
      end
    else None in
  if truthy replyId && negb (truthy repliedTo1) then
    match replyId ≫= (tweetMap !!.) with
    | Some rawTweet => createCleanRepliedToTweet (Some rawTweet)
    | None =>
        match jsfind (fun t => bool_decide (Raw.id t = replyId)) rawTweets with
        | Some repliedToTweet => createCleanRepliedToTweet (Some repliedToTweet)
        | None => repliedTo1
        end
    end
  else repliedTo1.

(** The callback of [rawTweets.map]: the raw record spread, then the
    overriding properties.  A [children] property of the raw record is not
    represented: the thread builder overwrites it in every copy it makes. *)
Definition processMainTweet (tweetMap : gmap string Raw.t)
    (rawTweets : list Raw.t) (tweet : Raw.t) : Tweet.t :=
  let replyId := replyId6 tweet in
  {| Tweet.id := Raw.id tweet;
     Tweet.text := Raw.text tweet;
     Tweet.createdAt := Raw.createdAt tweet;
     Tweet.url := Raw.url tweet;
     Tweet.author := Raw.author tweet;
     Tweet.likeCount := Raw.likeCount tweet;
     Tweet.retweetCount := Raw.retweetCount tweet;
     Tweet.replyCount := Raw.replyCount tweet;
     Tweet.quoteCount := Raw.quoteCount tweet;
     Tweet.viewCount := or_undefined (Raw.viewCount tweet ||| Raw.view_count tweet);
     Tweet.entities := Raw.entities tweet;
     Tweet.card := or_undefined (Raw.card tweet ||| Raw.Card tweet);
     Tweet.inReplyToStatusId :=
       Raw.in_reply_to_status_id tweet ||| Raw.inReplyToStatusId tweet;
     Tweet.inReplyToTweetId :=
       Raw.in_reply_to_tweet_id tweet ||| Raw.inReplyToTweetId tweet;
     Tweet.referencedTweets :=
       Raw.referenced_tweets tweet ||| Raw.referencedTweets tweet;
     Tweet.repliedTo := resolveRepliedTo tweetMap rawTweets tweet;
     Tweet.isReply := isReplyOf tweet replyId;
     Tweet.inReplyToId := or_undefined (Raw.inReplyToId tweet ||| replyId);
     Tweet.conversationId := or_undefined (Raw.conversationId tweet);
     Tweet.inReplyToUserId := or_undefined (Raw.inReplyToUserId tweet);
     Tweet.inReplyToUsername := or_undefined (Raw.inReplyToUsername tweet);
     Tweet.displayTextRange := or_undefined (Raw.displayTextRange tweet);
     Tweet.children := None;
     Tweet._source := Some main |}.

(** [t.conversationId = c]. *)
Definition set_conversationId (c : option string) (t : Tweet.t) : Tweet.t :=
  {| Tweet.id := Tweet.id t; Tweet.text := Tweet.text t;
     Tweet.createdAt := Tweet.createdAt t; Tweet.url := Tweet.url t;
     Tweet.author := Tweet.author t; Tweet.likeCount := Tweet.likeCount t;
     Tweet.retweetCount := Tweet.retweetCount t;
     Tweet.replyCount := Tweet.replyCount t;
     Tweet.quoteCount := Tweet.quoteCount t;
     Tweet.viewCount := Tweet.viewCount t; Tweet.entities := Tweet.entities t;
     Tweet.card := Tweet.card t;
     Tweet.inReplyToStatusId := Tweet.inReplyToStatusId t;
     Tweet.inReplyToTweetId := Tweet.inReplyToTweetId t;
     Tweet.referencedTweets := Tweet.referencedTweets t;
     Tweet.repliedTo := Tweet.repliedTo t; Tweet.isReply := Tweet.isReply t;
     Tweet.inReplyToId := Tweet.inReplyToId t;
     Tweet.conversationId := c;
     Tweet.inReplyToUserId := Tweet.inReplyToUserId t;
     Tweet.inReplyToUsername := Tweet.inReplyToUsername t;
     Tweet.displayTextRange := Tweet.displayTextRange t;
     Tweet.children := Tweet.children t;
     Tweet._source := Tweet._source t |}.

(** [t._source = s]. *)
Definition set_source (s : Source) (t : Tweet.t) : Tweet.t :=
  {| Tweet.id := Tweet.id t; Tweet.text := Tweet.text t;
     Tweet.createdAt := Tweet.createdAt t; Tweet.url := Tweet.url t;
     Tweet.author := Tweet.author t; Tweet.likeCount := Tweet.likeCount t;
     Tweet.retweetCount := Tweet.retweetCount t;
     Tweet.replyCount := Tweet.replyCount t;
     Tweet.quoteCount := Tweet.quoteCount t;
     Tweet.viewCount := Tweet.viewCount t; Tweet.entities := Tweet.entities t;
     Tweet.card := Tweet.card t;
     Tweet.inReplyToStatusId := Tweet.inReplyToStatusId t;
     Tweet.inReplyToTweetId := Tweet.inReplyToTweetId t;
     Tweet.referencedTweets := Tweet.referencedTweets t;
     Tweet.repliedTo := Tweet.repliedTo t; Tweet.isReply := Tweet.isReply t;
     Tweet.inReplyToId := Tweet.inReplyToId t;
     Tweet.conversationId := Tweet.conversationId t;
     Tweet.inReplyToUserId := Tweet.inReplyToUserId t;
     Tweet.inReplyToUsername := Tweet.inReplyToUsername t;
     Tweet.displayTextRange := Tweet.displayTextRange t;
     Tweet.children := Tweet.children t;
     Tweet._source := Some s |}.

(** The predicate of [processedMainTweets.find] for a record of the included
    batch. *)
Definition referencesIncluded (tweet : Raw.t) (t : Tweet.t) : bool :=
  let matchesReplyId :=
    bool_decide (Tweet.inReplyToId t = Raw.id tweet)
    || bool_decide (Tweet.inReplyToStatusId t = Raw.id tweet)
    || bool_decide (Tweet.inReplyToTweetId t = Raw.id tweet) in
  let matchesReferenced :=
    match Tweet.referencedTweets t with
    | Some refs => existsb (fun ref => bool_decide (Ref.id ref = Raw.id tweet)) refs
    | None => false
    end in
  matchesReplyId || matchesReferenced.

(** The predicate of [processedMainTweets.find] for a record of the
    replied-to batch. *)
Definition referencesRepliedTo (tweet : Raw.t) (t : Tweet.t) : bool :=
  bool_decide (Tweet.inReplyToId t = Raw.id tweet)
  || bool_decide (Tweet.inReplyToStatusId t = Raw.id tweet)
  || bool_decide (Tweet.inReplyToTweetId t = Raw.id tweet).

(** The predicate of the two [filter] calls. *)
Definition isValid (mainTweetIds : gset (option string)) (tweet : Raw.t) : bool :=
  truthy (Raw.id tweet) && negb (bool_decide (Raw.id tweet ∈ mainTweetIds)).

(** One call of the [map] callback over a supplementary batch.  The state is
    the array [processedMainTweets], whose records the callback mutates, and
    the records produced so far. *)
Definition groupStep (source : Source) (references : Raw.t → Tweet.t → bool)
    (st : list Tweet.t * list Tweet.t) (tweet : Raw.t)
  : list Tweet.t * list Tweet.t :=
  let '(processedMainTweets, out) := st in
  match processRawTweet (Some tweet) with
  | None => (processedMainTweets, out)
  | Some processed =>
      let processed := set_source source processed in
      match list_find (fun t => Is_true (references tweet t)) processedMainTweets with
      | Some (i, referencingTweet) =>
          if truthy (Tweet.conversationId referencingTweet) then
            (processedMainTweets,
             out ++ [set_conversationId (Tweet.conversationId referencingTweet) processed])
          else if truthy (Tweet.id referencingTweet) then
            (<[i := set_conversationId (Tweet.id referencingTweet) referencingTweet]>
               processedMainTweets,
             out ++ [set_conversationId (Tweet.id referencingTweet) processed])
          else (processedMainTweets, out ++ [processed])
      | None => (processedMainTweets, out ++ [processed])
      end
  end.

Definition processSupplementary (source : Source)
    (references : Raw.t → Tweet.t → bool)
    (mainTweetIds : gset (option string))
    (processedMainTweets : list Tweet.t) (batch : list Raw.t)
  : list Tweet.t * list Tweet.t :=
  foldl (groupStep source references) (processedMainTweets, [])
        (filter (fun tweet => Is_true (isValid mainTweetIds tweet)) batch).

(** The three parts of the merged set, before they are concatenated. *)
Record Merged := mkMerged {
  processedMainTweets : list Tweet.t;
  processedIncludesTweets : list Tweet.t;
  processedRepliedToTweets : list Tweet.t }.

Definition allTweets (m : Merged) : list Tweet.t :=
  processedMainTweets m ++ processedIncludesTweets m ++ processedRepliedToTweets m.

(** The merge on three arrays. *)
Definition mergeBatches (rawTweets includesTweets repliedToTweets : list Raw.t)
  : Merged :=
  let tweetMap := buildTweetMap includesTweets repliedToTweets rawTweets in
  let main0 := processMainTweet tweetMap rawTweets <$> rawTweets in
  let mainTweetIds : gset (option string) := list_to_set (Tweet.id <$> main0) in
  let '(main1, incl) :=
    processSupplementary includes referencesIncluded mainTweetIds main0 includesTweets in
  let '(main2, repl) :=
    processSupplementary replied_to referencesRepliedTo mainTweetIds main1 repliedToTweets in
  mkMerged main2 incl repl.

(** The summary log evaluates [allTweets[0].text.substring(0, 50)], which
    throws when the first record has no [text]. *)
Definition firstSampleThrows (all : list Tweet.t) : bool :=
  match all with
  | t :: _ => negb (bool_decide (is_Some (Tweet.text t)))
  | [] => false
  end.

(** The run from the parsed body [JSON.parse(responseText)], which is [null]
    ([None]) or a value whose properties are read.  On [null] the first log,
    which reads [apiResponse.status], throws. *)
Definition fetchUserTweets_merged (apiResponse : option ApiResponse) : Result Merged :=
  match apiResponse with
  | None => TypeError
  | Some apiResponse =>
      let rawTweets := batch_or (data_tweets apiResponse) (BArray []) in
      let includesTweets :=
        batch_or (batch_or (data_includes_tweets apiResponse)
                           (includes_tweets apiResponse))
                 (BArray []) in
      let repliedToTweets :=
        batch_or (batch_or (batch_or (data_replied_to_tweets apiResponse)
                                     (data_repliedToTweets apiResponse))
                           (replied_to_tweets apiResponse))
                 (BArray []) in
      includesTweets ← asArray includesTweets;
      repliedToTweets ← asArray repliedToTweets;
      rawTweets ← asArray rawTweets;
      rawTweets ← eachRecord rawTweets;
      let m := mergeBatches rawTweets (records includesTweets) (records repliedToTweets) in
      if firstSampleThrows (allTweets m) then TypeError else Ok m
  end.

(** The [tweets] property of the value [fetchUserTweets] resolves to. *)
Definition fetchUserTweets (apiResponse : option ApiResponse) : Result (list Tweet.t) :=
  allTweets <$> fetchUserTweets_merged apiResponse.

(** ** Thread tree builder: [organizeTweetsIntoThreads] *)

(** The object [{}]. *)
Definition emptyTweet : Tweet.t :=
  {| Tweet.id := None; Tweet.text := None; Tweet.createdAt := None;
     Tweet.url := None; Tweet.author := None; Tweet.likeCount := None;
     Tweet.retweetCount := None; Tweet.replyCount := None;
     Tweet.quoteCount := None; Tweet.viewCount := None;
     Tweet.entities := None; Tweet.card := None;
     Tweet.inReplyToStatusId := None; Tweet.inReplyToTweetId := None;
     Tweet.referencedTweets := None; Tweet.repliedTo := None;
     Tweet.isReply := None; Tweet.inReplyToId := None;
     Tweet.conversationId := None; Tweet.inReplyToUserId := None;
     Tweet.inReplyToUsername := None; Tweet.displayTextRange := None;
     Tweet.children := None; Tweet._source := None |}.

(** [{ ...t, children: cs }]. *)
Definition set_children (cs : list Tweet.t) (t : Tweet.t) : Tweet.t :=
  {| Tweet.id := Tweet.id t; Tweet.text := Tweet.text t;
     Tweet.createdAt := Tweet.createdAt t; Tweet.url := Tweet.url t;
     Tweet.author := Tweet.author t; Tweet.likeCount := Tweet.likeCount t;
     Tweet.retweetCount := Tweet.retweetCount t;
     Tweet.replyCount := Tweet.replyCount t;
     Tweet.quoteCount := Tweet.quoteCount t;
     Tweet.viewCount := Tweet.viewCount t; Tweet.entities := Tweet.entities t;
     Tweet.card := Tweet.card t;
     Tweet.inReplyToStatusId := Tweet.inReplyToStatusId t;
     Tweet.inReplyToTweetId := Tweet.inReplyToTweetId t;
     Tweet.referencedTweets := Tweet.referencedTweets t;
     Tweet.repliedTo := Tweet.repliedTo t; Tweet.isReply := Tweet.isReply t;
     Tweet.inReplyToId := Tweet.inReplyToId t;
     Tweet.conversationId := Tweet.conversationId t;
     Tweet.inReplyToUserId := Tweet.inReplyToUserId t;
     Tweet.inReplyToUsername := Tweet.inReplyToUsername t;
     Tweet.displayTextRange := Tweet.displayTextRange t;
     Tweet.children := Some cs;
     Tweet._source := Tweet._source t |}.

(** [{ ...x, children: [] }] where [x] can be [undefined]: spreading
    [undefined] adds no property. *)
Definition copyOf (x : option Tweet.t) : Tweet.t :=
  set_children [] (default emptyTweet x).

(** The [children] array of a record, empty when the property is absent. *)
Definition kids (t : Tweet.t) : list Tweet.t := default [] (Tweet.children t).

(** [tweetMap.set(tweet.id, { ...tweet, children: [] })] for truthy ids. *)
Definition setCopy (m : gmap string Tweet.t) (tweet : Tweet.t) : gmap string Tweet.t :=
  match Tweet.id tweet with
  | Some i => if truthy i then <[i := copyOf (Some tweet)]> m else m
  | None => m
  end.

Definition copyMap (tweets : list Tweet.t) : gmap string Tweet.t :=
  foldl setCopy ∅ tweets.

(** [tweetMap.get(id)]. *)
Definition getCopy (m : gmap string Tweet.t) (id : option string) : option Tweet.t :=
  id ≫= (m !!.).

(** A [Map<string, Tweet[]>] in insertion order. *)
Definition ConversationMap := list (string * list Tweet.t).

(** [if (!map.has(k)) map.set(k, []); map.get(k).push(tweet)]. *)
Fixpoint pushTo (k : string) (tweet : Tweet.t) (m : ConversationMap) : ConversationMap :=
  match m with
  | [] => [(k, [tweet])]
  | (k', ts) :: m' =>
      if decide (k' = k) then (k', ts ++ [tweet]) :: m'
      else (k', ts) :: pushTo k tweet m'
  end.

Definition groupStepConv (st : ConversationMap * list Tweet.t) (tweet : Tweet.t)
  : ConversationMap * list Tweet.t :=
  match Tweet.conversationId tweet with
  | Some c => if truthy c then (pushTo c tweet st.1, st.2) else (st.1, st.2 ++ [tweet])
  | None => (st.1, st.2 ++ [tweet])
  end.

(** The grouping loop: the conversation map and the records without a
    conversation id. *)
Definition groupByConversation (tweets : list Tweet.t) : ConversationMap * list Tweet.t :=
  foldl groupStepConv ([], []) tweets.

(** [list.map(f)] where [f] reads and updates a state and may run out of
    fuel. *)
Fixpoint mapState {A B S} (f : A → S → option (B * S)) (l : list A) (s : S)
  : option (list B * S) :=
  match l with
  | [] => Some ([], s)
  | a :: l =>
      match f a s with
      | Some (b, s1) =>
          match mapState f l s1 with
          | Some (bs, s2) => Some (b :: bs, s2)
          | None => None
          end
      | None => None
      end
  end.

(** The filter of [attachChildren]:
    [t.inReplyToId === parentTweet.id && t.id !== parentTweet.id]. *)
Definition repliesTo (pid : option string) (t : Tweet.t) : bool :=
  bool_decide (Tweet.inReplyToId t = pid) && negb (bool_decide (Tweet.id t = pid)).

(** [attachChildren(parentTweet)]: the state is the set [processedIds]; the
    result is [parentTweet] as the call leaves it.  [fuel] bounds the depth of
    the recursion. *)
Fixpoint attachChildren (fuel : nat) (conversationTweets : list Tweet.t)
    (tweetMap : gmap string Tweet.t) (parentTweet : Tweet.t)
    (processedIds : gset (option string))
  : option (Tweet.t * gset (option string)) :=
  match fuel with
  | O => None
  | S fuel =>
      if decide (Tweet.id parentTweet ∈ processedIds) then Some (parentTweet, processedIds)
      else
        let processedIds := {[Tweet.id parentTweet]} ∪ processedIds in
        let children :=
          filter (fun t => Is_true (repliesTo (Tweet.id parentTweet) t)) conversationTweets in
        match children with
        | [] => Some (parentTweet, processedIds)
        | _ =>
            match mapState
                    (fun child => attachChildren fuel conversationTweets tweetMap
                                    (copyOf (getCopy tweetMap (Tweet.id child))))
                    children processedIds with
            | Some (cs, processedIds) => Some (set_children cs parentTweet, processedIds)
            | None => None
            end
        end
  end.

(** The filter selecting the roots of one conversation. *)
Definition isRootIn (conversationTweetIds : gset (option string)) (tweet : Tweet.t) : bool :=
  negb (truthy (Tweet.isReply tweet)) || negb (truthy (Tweet.inReplyToId tweet))
  || negb (bool_decide (Tweet.inReplyToId tweet ∈ conversationTweetIds)).

(** The body of [conversationMap.forEach]: the root trees of one
    conversation. *)
Definition buildConversation (fuel : nat) (tweetMap : gmap string Tweet.t)
    (conversationTweets : list Tweet.t) : option (list Tweet.t) :=
  let conversationTweetIds : gset (option string) :=
    list_to_set (Tweet.id <$> conversationTweets) in
  let rootTweetsInConversation :=
    filter (fun t => Is_true (isRootIn conversationTweetIds t)) conversationTweets in
  fst <$> mapState
            (fun rootTweet => attachChildren fuel conversationTweets tweetMap
                                (copyOf (getCopy tweetMap (Tweet.id rootTweet))))
            rootTweetsInConversation ∅.

(** [conversationMap.get(k)]. *)
Definition getConversation (m : ConversationMap) (k : option string)
  : option (list Tweet.t) :=
  snd <$> jsfind (fun e => bool_decide (Some e.1 = k)) m.

(** The body of [orphanTweets.forEach]: what is pushed for one record without
    a conversation id. *)
Definition orphanRoots (tweets : list Tweet.t) (tweetMap : gmap string Tweet.t)
    (conversationMap : ConversationMap) (tweet : Tweet.t) : list Tweet.t :=
  if negb (truthy (Tweet.isReply tweet)) || negb (truthy (Tweet.inReplyToId tweet))
  then [copyOf (getCopy tweetMap (Tweet.id tweet))]
  else
    match jsfind (fun t => bool_decide (Tweet.id t = Tweet.inReplyToId tweet)) tweets with
    | Some parentTweet =>
        if truthy (Tweet.conversationId parentTweet) then
          (* both branches of [if (parentConversation)] push nothing *)
          match getConversation conversationMap (Tweet.conversationId parentTweet) with
          | Some _ => []
          | None => []
          end
        else [copyOf (getCopy tweetMap (Tweet.id tweet))]
    | None => [copyOf (getCopy tweetMap (Tweet.id tweet))]
    end.

Definition organizeTweetsIntoThreads_fuel (fuel : nat) (tweets : list Tweet.t)
  : option (list Tweet.t) :=
  let tweetMap := copyMap tweets in
  let '(conversationMap, orphanTweets) := groupByConversation tweets in
  match mapM (fun c => buildConversation fuel tweetMap c.2) conversationMap with
  | Some trees =>
      Some (mjoin trees
            ++ (orphanTweets ≫= orphanRoots tweets tweetMap conversationMap))
  | None => None
  end.

(** Fuel that always suffices (see [organize_total]). *)
Definition enoughFuel (tweets : list Tweet.t) : nat := (length tweets + 2)%nat.

Definition organizeTweetsIntoThreads (tweets : list Tweet.t) : list Tweet.t :=
  default [] (organizeTweetsIntoThreads_fuel (enoughFuel tweets) tweets).

(** ** Ordering and composition: [renderResults] in [App.tsx] *)

(** [Array.prototype.sort(compare)]: the sort is stable; an element goes
    after another one exactly when [compare] returns a number above zero
    ([NaN] counts as zero).  [after a b] is [compare(a, b) > 0].  For a
    comparator that is not consistent the standard leaves the order to the
    implementation; the statements about order below assume valid dates. *)
Fixpoint insertBy {A} (after : A → A → bool) (x : A) (l : list A) : list A :=
  match l with
  | [] => [x]
  | y :: l' => if after x y then y :: insertBy after x l' else x :: l
  end.

Definition sortBy {A} (after : A → A → bool) (l : list A) : list A :=
  foldr (insertBy after) [] l.

Section Ordering.

(** [Date.parse]: the time value of a date string, [None] for [NaN]. *)
Variable parseDate : string → option Z.

(** [new Date(createdAt).getTime()]. *)
Definition getTime (createdAt : option string) : option Z := createdAt ≫= parseDate.

(** [x - y > 0] on time values; false when either is [NaN]. *)
Definition timeAfter (x y : option Z) : bool :=
  match x, y with
  | Some a, Some b => 0 <? a - b
  | _, _ => false
  end.

(** [x < y] on time values; false when either is [NaN]. *)
Definition timeBefore (x y : option Z) : bool :=
  match x, y with
  | Some a, Some b => a <? b
  | _, _ => false
  end.

Definition tweetTime (t : Tweet.t) : option Z := getTime (Tweet.createdAt t).

(** [tweets.reduce((oldest, tweet) => tweetDate < oldestDate ? tweet : oldest)],
    called on the non-empty array of a conversation group. *)
Definition oldestOf (first : Tweet.t) (rest : list Tweet.t) : Tweet.t :=
  foldl (fun oldest tweet =>
           if timeBefore (tweetTime tweet) (tweetTime oldest) then tweet else oldest)
        first rest.

(** The time value the group comparator uses for one map entry. *)
Definition groupTime (entry : string * list Tweet.t) : option Z :=
  match entry.2 with
  | first :: rest => tweetTime (oldestOf first rest)
  | [] => None
  end.

(** What is rendered: the conversation groups in order, each with its root
    trees in order, then the standalone root trees in order. *)
Record Rendered := mkRendered {
  conversations : list (string * list Tweet.t);
  standalone : list Tweet.t }.

Definition renderConversation (entry : string * list Tweet.t)
  : string * list Tweet.t :=
  let sortedConversationTweets :=
    sortBy (fun a b => timeAfter (tweetTime a) (tweetTime b)) entry.2 in
  let organizedThreads := organizeTweetsIntoThreads sortedConversationTweets in
  (entry.1, sortBy (fun a b => timeAfter (tweetTime a) (tweetTime b)) organizedThreads).

(** The branch of [renderResults] that composes the threads
    ([App.tsx], from the grouping by conversation id to the returned
    groups), entered with a non-empty array that passed the check
    [isTweetArray]. *)
Definition renderThreads (tweets : list Tweet.t) : Rendered :=
  let '(conversationGroups, standaloneTweets) := groupByConversation tweets in
  let sortedConversations :=
    sortBy (fun a b => timeAfter (groupTime a) (groupTime b)) conversationGroups in
  let sortedStandaloneTweets :=
    sortBy (fun a b => timeAfter (tweetTime a) (tweetTime b)) standaloneTweets in
  mkRendered
    (renderConversation <$> sortedConversations)
    (sortBy (fun a b => timeAfter (tweetTime a) (tweetTime b))
            (organizeTweetsIntoThreads sortedStandaloneTweets)).

(** The check [isTweetArray] on an array of records: the array is empty, or
    its first record has a string [id] and a string [text]. *)
Definition isTweetArray (responseData : list Tweet.t) : bool :=
  match responseData with
  | [] => true
  | first :: _ =>
      bool_decide (is_Some (Tweet.id first)) && bool_decide (is_Some (Tweet.text first))
  end.

(** What [renderResults] returns: the spinner, the alert with the error
    message, nothing ([null]), the notice that there are no results, the
    composed threads, or the response printed as JSON. *)
Inductive View :=
  | LoadingSpinner
  | ErrorAlert (error : string)
  | Nothing
  | NoResults
  | Threads (out : Rendered)
  | JsonView (responseData : list Tweet.t).

(** [renderResults], on the state it reads: [isLoading], [error] and
    [responseData], which is [null] or the array of records that a handler
    stored.  The wording of the notice, which depends on the active tab, is
    not represented. *)
Definition renderResults (isLoading : bool) (error : string)
    (responseData : option (list Tweet.t)) : View :=
  if isLoading then LoadingSpinner
  else if truthy error then ErrorAlert error
  else
    match responseData with
    | None => Nothing
    | Some responseData =>
        if isTweetArray responseData then
          match responseData with
          | [] => NoResults
          | _ => Threads (renderThreads responseData)
          end
        else JsonView responseData
    end.

(** The whole pipeline: merge, then render.  After [handleFetch] has stored
    the result of a run that did not throw, [isLoading] is false, [error] is
    empty and [responseData] is the merged set. *)
Definition pipeline (apiResponse : option ApiResponse) : Result View :=
  (fun tweets => renderResults false "" (Some tweets)) <$> fetchUserTweets apiResponse.

End Ordering.

(** [Date.parse] on the year-only form [YYYY] of the date-time string format
    (midnight UTC on 1 January of that year); other strings are outside this
    fragment and read as [NaN]. *)
Definition digit (a : ascii) : option Z :=
  let n := Z.of_N (N_of_ascii a) in
  if (48 <=? n) && (n <=? 57) then Some (n - 48) else None.

Definition parseYear (s : string) : option Z :=
  match s with
  | String a (String b (String c (String d EmptyString))) =>
      a ← digit a; b ← digit b; c ← digit c; d ← digit d;
      let y := 1000 * a + 100 * b + 10 * c + d in
      let days := 365 * (y - 1970) + (y - 1969) / 4 - (y - 1901) / 100 + (y - 1601) / 400 in
      Some (days * 86400000)
  | _ => None
  end.

(** ** The thread builder on a store of objects

    A second embedding of [organizeTweetsIntoThreads], in which the records
    are objects in a store and an array of records is a list of references.
    It makes visible which objects the function allocates and which it
    writes to.  The store is an array of objects; a reference is an index;
    [new] objects are appended. *)

Module Store.

Abbreviation loc := nat.

(** An object of type [Tweet]: its properties other than [children], held by
    value (the function never writes to them), and its [children] property,
    an array of references when present. *)
Record Obj := mkObj { props : Tweet.t; childrenRef : option (list loc) }.

Abbreviation Heap := (list Obj).

(** [{ ...x, children: [] }] where [x] can be [undefined]: a new object. *)
Definition newCopy (x : option loc) (h : Heap) : option (loc * Heap) :=
  match x with
  | None => Some (length h, h ++ [mkObj emptyTweet (Some [])])
  | Some l =>
      match h !! l with
      | Some o => Some (length h, h ++ [mkObj (props o) (Some [])])
      | None => None
      end
  end.

(** [o.children = cs]. *)
Definition setChildren (l : loc) (cs : list loc) (h : Heap) : option Heap :=
  match h !! l with
  | Some o => Some (<[l := mkObj (props o) (Some cs)]> h)
  | None => None
  end.

(** The properties of the objects of an array, read now. *)
Definition readAll (ls : list loc) (h : Heap) : option (list (loc * Tweet.t)) :=
  mapM (fun l => (fun o => (l, props o)) <$> h !! l) ls.

(** The loop filling [tweetMap]: id -> reference of the copy. *)
Fixpoint fillTweetMap (tweets : list loc) (tweetMap : gmap string loc) (h : Heap)
  : option (gmap string loc * Heap) :=
  match tweets with
  | [] => Some (tweetMap, h)
  | tweet :: rest =>
      match h !! tweet with
      | Some o =>
          match Tweet.id (props o) with
          | Some i =>
              if truthy i then
                match newCopy (Some tweet) h with
                | Some (c, h1) => fillTweetMap rest (<[i := c]> tweetMap) h1
                | None => None
                end
              else fillTweetMap rest tweetMap h
          | None => fillTweetMap rest tweetMap h
          end
      | None => None
      end
  end.

(** [tweetMap.get(id)]. *)
Definition getRef (tweetMap : gmap string loc) (id : option string) : option loc :=
  id ≫= (tweetMap !!.).

Abbreviation LocMap := (list (string * list loc)).

Fixpoint pushTo (k : string) (tweet : loc) (m : LocMap) : LocMap :=
  match m with
  | [] => [(k, [tweet])]
  | (k', ts) :: m' =>
      if decide (k' = k) then (k', ts ++ [tweet]) :: m'
      else (k', ts) :: pushTo k tweet m'
  end.

(** The grouping loop, on the references and the properties read. *)
Definition groupStepConv (st : LocMap * list loc) (tweet : loc * Tweet.t)
  : LocMap * list loc :=
  match Tweet.conversationId tweet.2 with
  | Some c => if truthy c then (pushTo c tweet.1 st.1, st.2) else (st.1, st.2 ++ [tweet.1])
  | None => (st.1, st.2 ++ [tweet.1])
  end.

Definition groupByConversation (tweets : list (loc * Tweet.t)) : LocMap * list loc :=
  foldl groupStepConv ([], []) tweets.

(** The state of the recursion: [processedIds] and the store. *)
Abbreviation State := (gset (option string) * Heap)%type.

(** The body shared by the callbacks [child => ...] of [attachChildren] and
    [rootTweet => ...] of the loop over the roots: copy the object that
    [tweetMap] holds for the id of [tweet], call [attach] on the copy, and
    return the copy. *)
Definition copyAndAttach (attach : loc → State → option (unit * State))
    (tweetMap : gmap string loc) (tweet : loc * Tweet.t) (st : State)
  : option (loc * State) :=
  match st.2 !! tweet.1 with
  | None => None
  | Some t =>
      match newCopy (getRef tweetMap (Tweet.id (props t))) st.2 with
      | None => None
      | Some (copy, h1) =>
          match attach copy (st.1, h1) with
          | Some (_, st1) => Some (copy, st1)
          | None => None
          end
      end
  end.

(** [attachChildren(parentTweet)]. *)
Fixpoint attachChildren (fuel : nat) (conversationTweets : list loc)
    (tweetMap : gmap string loc) (parentTweet : loc) (st : State)
  : option (unit * State) :=
  match fuel with
  | O => None
  | S fuel =>
      match st.2 !! parentTweet with
      | None => None
      | Some parent =>
          let pid := Tweet.id (props parent) in
          if decide (pid ∈ st.1) then Some ((), st)
          else
            let processedIds := {[pid]} ∪ st.1 in
            match readAll conversationTweets st.2 with
            | None => None
            | Some conv =>
                let children := filter (fun t => Is_true (repliesTo pid t.2)) conv in
                match children with
                | [] => Some ((), (processedIds, st.2))
                | _ =>
                    match mapState
                            (copyAndAttach
                               (attachChildren fuel conversationTweets tweetMap) tweetMap)
                            children (processedIds, st.2) with
                    | None => None
                    | Some (cs, st1) =>
                        match setChildren parentTweet cs st1.2 with
                        | Some h2 => Some ((), (st1.1, h2))
                        | None => None
                        end
                    end
                end
            end
      end
  end.

(** The body of [conversationMap.forEach]. *)
Definition buildConversation (fuel : nat) (tweetMap : gmap string loc)
    (conversationTweets : list loc) (h : Heap) : option (list loc * Heap) :=
  match readAll conversationTweets h with
  | None => None
  | Some conv =>
      let conversationTweetIds : gset (option string) :=
        list_to_set ((fun t => Tweet.id t.2) <$> conv) in
      let rootTweetsInConversation :=
        filter (fun t => Is_true (isRootIn conversationTweetIds t.2)) conv in
      match mapState
              (copyAndAttach (attachChildren fuel conversationTweets tweetMap) tweetMap)
              rootTweetsInConversation (∅, h) with
      | Some (roots, st1) => Some (roots, st1.2)
      | None => None
      end
  end.

(** The conversations in turn; the roots are pushed in order. *)
Fixpoint buildConversations (fuel : nat) (tweetMap : gmap string loc)
    (conversationMap : LocMap) (h : Heap) : option (list loc * Heap) :=
  match conversationMap with
  | [] => Some ([], h)
  | (_, conversationTweets) :: rest =>
      match buildConversation fuel tweetMap conversationTweets h with
      | Some (roots, h1) =>
          match buildConversations fuel tweetMap rest h1 with
          | Some (roots', h2) => Some (roots ++ roots', h2)
          | None => None
          end
      | None => None
      end
  end.

(** The body of [orphanTweets.forEach]. *)
Definition orphanRoots (tweets : list (loc * Tweet.t)) (tweetMap : gmap string loc)
    (tweet : loc) (h : Heap) : option (list loc * Heap) :=
  match h !! tweet with
  | None => None
  | Some o =>
      let t := props o in
      let push :=
        match newCopy (getRef tweetMap (Tweet.id t)) h with
        | Some (c, h1) => Some ([c], h1)
        | None => None
        end in
      if negb (truthy (Tweet.isReply t)) || negb (truthy (Tweet.inReplyToId t))
      then push
      else
        match jsfind (fun p => bool_decide (Tweet.id p.2 = Tweet.inReplyToId t)) tweets with
        | Some parentTweet =>
            if truthy (Tweet.conversationId parentTweet.2) then Some ([], h)
            else push
        | None => push
        end
  end.

Fixpoint pushOrphans (tweets : list (loc * Tweet.t)) (tweetMap : gmap string loc)
    (orphanTweets : list loc) (h : Heap) : option (list loc * Heap) :=
  match orphanTweets with
  | [] => Some ([], h)
  | tweet :: rest =>
      match orphanRoots tweets tweetMap tweet h with
      | Some (roots, h1) =>
          match pushOrphans tweets tweetMap rest h1 with
          | Some (roots', h2) => Some (roots ++ roots', h2)
          | None => None
          end
      | None => None
      end
  end.

Definition organizeTweetsIntoThreads (fuel : nat) (tweets : list loc) (h : Heap)
  : option (list loc * Heap) :=
  match fillTweetMap tweets ∅ h with
  | None => None
  | Some (tweetMap, h1) =>
      match readAll tweets h1 with
      | None => None
      | Some read =>
          let '(conversationMap, orphanTweets) := groupByConversation read in
          match buildConversations fuel tweetMap conversationMap h1 with
          | None => None
          | Some (rootTweets, h2) =>
              match readAll tweets h2 with
              | None => None
              | Some read2 =>
                  match pushOrphans read2 tweetMap orphanTweets h2 with
                  | Some (rootTweets', h3) => Some (rootTweets ++ rootTweets', h3)
                  | None => None
                  end
              end
          end
      end
  end.

(** The objects reachable from the returned roots through [children]. *)
Inductive reachable (h : Heap) (roots : list loc) : loc → Prop :=
  | reach_root l : l ∈ roots → reachable h roots l
  | reach_child l o c :
      reachable h roots l → h !! l = Some o →
      c ∈ default [] (childrenRef o) → reachable h roots c.

(** The tree below a reference, read back as a value. *)
Fixpoint readTree (fuel : nat) (h : Heap) (l : loc) : option Tweet.t :=
  match fuel with
  | O => None
  | S fuel =>
      match h !! l with
      | None => None
      | Some o =>
          match childrenRef o with
          | None => Some (props o)
          | Some cs =>
              match mapM (readTree fuel h) cs with
              | Some ts => Some (set_children ts (props o))
              | None => None
              end
          end
      end
  end.

End Store.

(** ** Concrete records used in the examples *)

(** A raw record with the given id, text and [createdAt], a reply target in
    [in_reply_to_status_id], and a [referenced_tweets] list. *)
Definition rawPost (id text createdAt : string) (in_reply_to_status_id : option string)
    (referenced_tweets : option (list (Ref.t Raw.t))) : Raw.t :=
  {| Raw.id := Some id; Raw.text := Some text; Raw.full_text := None;
     Raw.createdAt := Some createdAt; Raw.created_at := None; Raw.url := None;
     Raw.author := None; Raw.user := None;
     Raw.likeCount := None; Raw.like_count := None;
     Raw.retweetCount := None; Raw.retweet_count := None;
     Raw.replyCount := None; Raw.reply_count := None;
     Raw.quoteCount := None; Raw.quote_count := None;
     Raw.viewCount := None; Raw.view_count := None;
     Raw.public_metrics := None; Raw.entities := None;
     Raw.card := None; Raw.Card := None;
     Raw.in_reply_to_status_id := in_reply_to_status_id;
     Raw.in_reply_to_tweet_id := None;
     Raw.inReplyToStatusId := None; Raw.inReplyToTweetId := None;
     Raw.reply_to_status_id := None; Raw.reply_to_tweet_id := None;
     Raw.inReplyToId := None;
     Raw.referenced_tweets := referenced_tweets; Raw.referencedTweets := None;
     Raw.isReply := None; Raw.conversationId := None;
     Raw.inReplyToUserId := None; Raw.inReplyToUsername := None;
     Raw.displayTextRange := None;
     Raw.replied_to := None; Raw.repliedTo := None |}.

(** A canonical record with the properties the thread builder reads. *)
Definition post (id createdAt : string) (conversationId : option string)
    (isReply : option bool) (inReplyToId : option string) : Tweet.t :=
  {| Tweet.id := Some id; Tweet.text := Some ""; Tweet.createdAt := Some createdAt;
     Tweet.url := None; Tweet.author := None;
     Tweet.likeCount := Some 0; Tweet.retweetCount := Some 0;
     Tweet.replyCount := Some 0; Tweet.quoteCount := Some 0;
     Tweet.viewCount := None; Tweet.entities := None; Tweet.card := None;
     Tweet.inReplyToStatusId := None; Tweet.inReplyToTweetId := None;
     Tweet.referencedTweets := None; Tweet.repliedTo := None;
     Tweet.isReply := isReply; Tweet.inReplyToId := inReplyToId;
     Tweet.conversationId := conversationId;
     Tweet.inReplyToUserId := None; Tweet.inReplyToUsername := None;
     Tweet.displayTextRange := None; Tweet.children := None;
     Tweet._source := None |}.

(** ** Vocabulary of the statements *)

(** All records of a tree: the root and, recursively, the records in
    [children]. *)
Fixpoint nodes (t : Tweet.t) : list Tweet.t :=
  t :: match Tweet.children t with
       | Some cs => cs ≫= nodes
       | None => []
       end.

(** The records strictly below the root of a tree. *)
Definition descendants (t : Tweet.t) : list Tweet.t := kids t ≫= nodes.

(** A depth-limited snapshot: no [repliedTo], no [children], none of the
    reply-linkage properties. *)
Definition isSnapshot (s : Tweet.t) : Prop :=
  Tweet.repliedTo s = None ∧ Tweet.children s = None
  ∧ Tweet.isReply s = None ∧ Tweet.inReplyToId s = None
  ∧ Tweet.inReplyToStatusId s = None ∧ Tweet.inReplyToTweetId s = None
  ∧ Tweet.referencedTweets s = None ∧ Tweet.conversationId s = None
  ∧ Tweet.inReplyToUserId s = None ∧ Tweet.inReplyToUsername s = None.

(** All records of the rendered output. *)
Definition renderedNodes (out : Rendered) : list Tweet.t :=
  (conversations out ≫= fun e => e.2 ≫= nodes) ++ (standalone out ≫= nodes).

(** Records whose [repliedTo], when present, is a snapshot. *)
Definition repliedToClean (t : Tweet.t) : Prop :=
  ∀ s, Tweet.repliedTo t = Some s → isSnapshot s.

(** [b] is [a], possibly after an assignment to [conversationId]. *)
Definition regrouped (a b : Tweet.t) : Prop :=
  b = a ∨ ∃ c, b = set_conversationId c a.

(** What the callback appends for a valid raw record. *)
Definition produced (source : Source) (tweet : Raw.t) (t : Tweet.t) : Prop :=
  ∃ p, processRawTweet (Some tweet) = Some p
       ∧ regrouped (set_source source p) t.

(** The set [mainTweetIds], from the raw primary batch. *)
Definition mainTweetIdsOf (rawTweets : list Raw.t) : gset (option string) :=
  list_to_set (Raw.id <$> rawTweets).

(** Records of the scenarios: record "4", and record "5" whose references
    list marks "4" as its reply target without embedding it. *)
Definition raw4 : Raw.t := rawPost "4" "four" "2004" None None.
Definition raw5 : Raw.t :=
  rawPost "5" "five" "2005" None
          (Some [Ref.mk (Some "replied_to") None (Some "4") None]).

(** The conversation key of a record: its [conversationId] when truthy. *)
Definition convOf (t : Tweet.t) : option string := or_undefined (Tweet.conversationId t).

(** The distinct elements of a list, in order of first occurrence. *)
Definition firstOccurrences (l : list string) : list string :=
  foldl (fun acc k => if decide (k ∈ acc) then acc else acc ++ [k]) [] l.

(** The records of conversation [k], in the order of the list. *)
Definition membersOf (tweets : list Tweet.t) (k : string) : list Tweet.t :=
  filter (fun t => convOf t = Some k) tweets.

(** The records without a conversation key, in the order of the list. *)
Definition standaloneOf (tweets : list Tweet.t) : list Tweet.t :=
  filter (fun t => convOf t = None) tweets.

(** [c] is the copy the thread builder makes for [child], with some
    [children] array. *)
Definition isCopy (tweetMap : gmap string Tweet.t) (child c : Tweet.t) : Prop :=
  ∃ gs, c = set_children gs (copyOf (getCopy tweetMap (Tweet.id child))).

(** [n] is what [attachChildren] can leave of the fresh copy [p]: [p] itself,
    or [p] with one copy per record of the conversation that replies to it,
    in the order of the conversation. *)
Definition shapeOf (conv : list Tweet.t) (tweetMap : gmap string Tweet.t)
    (p n : Tweet.t) : Prop :=
  n = p
  ∨ ∃ cs, n = set_children cs p
          ∧ Forall2 (isCopy tweetMap)
              (filter (fun t => Is_true (repliesTo (Tweet.id p) t)) conv) cs.

(** [n] is a record of a tree built for conversation [conv]. *)
Definition builtFrom (conv : list Tweet.t) (tweetMap : gmap string Tweet.t)
    (n : Tweet.t) : Prop :=
  ∃ child, child ∈ conv
           ∧ shapeOf conv tweetMap (copyOf (getCopy tweetMap (Tweet.id child))) n.

(** The root trees built for conversation [k]. *)
Definition conversationTrees (tweets : list Tweet.t) (k : string) : list Tweet.t :=
  default [] (buildConversation (enoughFuel tweets) (copyMap tweets) (membersOf tweets k)).

(** Records of the thread-builder scenarios.  [postS] and [postR] have no
    conversation id and [postR] replies to [postS]; [postP] is [postS] inside
    conversation "c". *)
Definition postS : Tweet.t := post "1" "2001" None None None.
Definition postR : Tweet.t := post "2" "2002" None (Some true) (Some "1").
Definition postP : Tweet.t := post "1" "2001" (Some "c") None None.

(** [r] hangs below a record with the id of [s] somewhere in the forest. *)
Definition attachedBelow (forest : list Tweet.t) (r s : Tweet.t) : Prop :=
  ∃ n c, n ∈ forest ≫= nodes ∧ Tweet.id n = Tweet.id s
         ∧ c ∈ kids n ∧ Tweet.id c = Tweet.id r.

(** The value the engine takes for each batch, before the final [|| []]. *)
Definition primaryOf (r : ApiResponse) : Batch := data_tweets r.
Definition includedOf (r : ApiResponse) : Batch :=
  batch_or (data_includes_tweets r) (includes_tweets r).
Definition repliedOf (r : ApiResponse) : Batch :=
  batch_or (batch_or (data_replied_to_tweets r) (data_repliedToTweets r))
           (replied_to_tweets r).



(** An array literal of records. *)
Definition arrayLiteral (l : list Raw.t) : Batch := BArray (Some <$> l).


(** The response of the reference-list scenario: [primary] in [data.tweets],
    [included] in [data.includes.tweets], nothing else. *)
Definition responseOf (primary included : list Raw.t) : option ApiResponse :=
  Some (mkResponse (arrayLiteral primary) (arrayLiteral included)
          BFalsy BFalsy BFalsy BFalsy).

(** On the records of [l] the comparator compares the numeric key:
    [after x y] holds when the key of [y] is strictly below the key of [x]. *)
Definition byKey {A} (key : A → Z) (after : A → A → bool) (l : list A) : Prop :=
  ∀ x y, x ∈ l → y ∈ l → after x y = bool_decide (key y < key x).

(** [l'] is [l] sorted by [key] in ascending order, records with equal keys
    keeping their relative order. *)
Definition StableSorted {A} (key : A → Z) (l l' : list A) : Prop :=
  StronglySorted (fun x y => key x ≤ key y) l'
  ∧ ∀ v, filter (fun x => key x = v) l' = filter (fun x => key x = v) l.

(** [c] is the record [x] with a [children] array. *)
Definition sameRecord (x c : Tweet.t) : Prop := ∃ gs, c = set_children gs x.

(** The records [cs] are copies of a sub-sequence of [S], in the order of
    [S]. *)
Definition orderedWithin (S cs : list Tweet.t) : Prop :=
  ∃ L, L `sublist_of` S ∧ Forall2 sameRecord L cs.

(** The time value of a record whose date is valid. *)
Definition timeOf (parseDate : string → option Z) (t : Tweet.t) : Z :=
  default 0 (tweetTime parseDate t).

(** The earliest time value among the records of a list. *)
Definition minTime (parseDate : string → option Z) (l : list Tweet.t) : Z :=
  match l with
  | [] => 0
  | t :: rest => foldl Z.min (timeOf parseDate t) (timeOf parseDate <$> rest)
  end.

(** Assumptions of the ordering statement: every date is valid, and the
    records have pairwise distinct, non-empty ids. *)
Definition validDates (parseDate : string → option Z) (tweets : list Tweet.t) : Prop :=
  ∀ t, t ∈ tweets → is_Some (tweetTime parseDate t).

Definition distinctIds (tweets : list Tweet.t) : Prop :=
  NoDup (Tweet.id <$> tweets) ∧ ∀ t, t ∈ tweets → truthy (Tweet.id t) = true.

(** Ascending order of the time values. *)
Definition ascending (parseDate : string → option Z) (l : list Tweet.t) : Prop :=
  StronglySorted (fun a b => timeOf parseDate a ≤ timeOf parseDate b) l.

(** The root trees [roots] built from the records [members] are in order:
    there is a stable sort [S] of [members] by time such that the roots are
    copies of a sub-sequence of [S], and so are the children of every record
    of the trees; roots and children are therefore ascending in time, and
    records with equal times keep the order they have in [members]. *)
Definition orderedForest (parseDate : string → option Z)
    (members roots : list Tweet.t) : Prop :=
  ∃ S, StableSorted (timeOf parseDate) members S
       ∧ orderedWithin S roots ∧ ascending parseDate roots
       ∧ ∀ n, n ∈ roots ≫= nodes →
              orderedWithin S (kids n) ∧ ascending parseDate (kids n).

(** A conversation in which the id "x" is carried by two records with
    different dates. *)
Definition repeatedIdConversation : list Tweet.t :=
  [ post "r" "2000" (Some "c") None None;
    post "x" "2001" (Some "c") (Some true) (Some "r");
    post "y" "2002" (Some "c") (Some true) (Some "r");
    post "x" "2003" (Some "c") (Some true) (Some "r") ].

(** A conversation of two records and a standalone record, with distinct ids
    and valid dates. *)
Definition smallTimeline : list Tweet.t :=
  [ post "2" "2002" (Some "c") (Some true) (Some "1");
    post "3" "2000" None None None;
    post "1" "2001" (Some "c") None None ].

(** The backfill scenario: post A (id "1", no conversation id) and post B
    (id "2", reply target "1", no conversation id).  B is in the primary
    batch; A is in the included batch or in the replied-to batch. *)
Definition rawA (text createdAt : string) : Raw.t := rawPost "1" text createdAt None None.
Definition rawB (text createdAt : string) : Raw.t :=
  rawPost "2" text createdAt (Some "1") None.

(** The six properties in which the resolver of [fetchUserTweets] looks for
    the id of the reply target. *)
Module ReplyProperty.
Inductive t :=
  | in_reply_to_status_id | in_reply_to_tweet_id
  | inReplyToStatusId | inReplyToTweetId
  | reply_to_status_id | reply_to_tweet_id.
End ReplyProperty.

(** A raw record with the given id, text and [createdAt] that names its
    reply target in the given property and has no other property. *)
Definition rawReply (id text createdAt : string) (property : ReplyProperty.t)
    (target : string) : Raw.t :=
  let named (p : ReplyProperty.t) : option string :=
    match property, p with
    | ReplyProperty.in_reply_to_status_id, ReplyProperty.in_reply_to_status_id
    | ReplyProperty.in_reply_to_tweet_id, ReplyProperty.in_reply_to_tweet_id
    | ReplyProperty.inReplyToStatusId, ReplyProperty.inReplyToStatusId
    | ReplyProperty.inReplyToTweetId, ReplyProperty.inReplyToTweetId
    | ReplyProperty.reply_to_status_id, ReplyProperty.reply_to_status_id
    | ReplyProperty.reply_to_tweet_id, ReplyProperty.reply_to_tweet_id => Some target
    | _, _ => None
    end in
  {| Raw.id := Some id; Raw.text := Some text; Raw.full_text := None;
     Raw.createdAt := Some createdAt; Raw.created_at := None; Raw.url := None;
     Raw.author := None; Raw.user := None;
     Raw.likeCount := None; Raw.like_count := None;
     Raw.retweetCount := None; Raw.retweet_count := None;
     Raw.replyCount := None; Raw.reply_count := None;
     Raw.quoteCount := None; Raw.quote_count := None;
     Raw.viewCount := None; Raw.view_count := None;
     Raw.public_metrics := None; Raw.entities := None;
     Raw.card := None; Raw.Card := None;
     Raw.in_reply_to_status_id := named ReplyProperty.in_reply_to_status_id;
     Raw.in_reply_to_tweet_id := named ReplyProperty.in_reply_to_tweet_id;
     Raw.inReplyToStatusId := named ReplyProperty.inReplyToStatusId;
     Raw.inReplyToTweetId := named ReplyProperty.inReplyToTweetId;
     Raw.reply_to_status_id := named ReplyProperty.reply_to_status_id;
     Raw.reply_to_tweet_id := named ReplyProperty.reply_to_tweet_id;
     Raw.inReplyToId := None;
     Raw.referenced_tweets := None; Raw.referencedTweets := None;
     Raw.isReply := None; Raw.conversationId := None;
     Raw.inReplyToUserId := None; Raw.inReplyToUsername := None;
     Raw.displayTextRange := None;
     Raw.replied_to := None; Raw.repliedTo := None |}.

(** Post B naming its reply target only in [inReplyToId], which the resolver
    does not read, and only in a reference list. *)
Definition rawB_inReplyToId (text createdAt : string) : Raw.t :=
  {| Raw.id := Some "2"; Raw.text := Some text; Raw.full_text := None;
     Raw.createdAt := Some createdAt; Raw.created_at := None; Raw.url := None;
     Raw.author := None; Raw.user := None;
     Raw.likeCount := None; Raw.like_count := None;
     Raw.retweetCount := None; Raw.retweet_count := None;
     Raw.replyCount := None; Raw.reply_count := None;
     Raw.quoteCount := None; Raw.quote_count := None;
     Raw.viewCount := None; Raw.view_count := None;
     Raw.public_metrics := None; Raw.entities := None;
     Raw.card := None; Raw.Card := None;
     Raw.in_reply_to_status_id := None; Raw.in_reply_to_tweet_id := None;
     Raw.inReplyToStatusId := None; Raw.inReplyToTweetId := None;
     Raw.reply_to_status_id := None; Raw.reply_to_tweet_id := None;
     Raw.inReplyToId := Some "1";
     Raw.referenced_tweets := None; Raw.referencedTweets := None;
     Raw.isReply := None; Raw.conversationId := None;
     Raw.inReplyToUserId := None; Raw.inReplyToUsername := None;
     Raw.displayTextRange := None;
     Raw.replied_to := None; Raw.repliedTo := None |}.
Definition rawB_referenced (text createdAt : string) : Raw.t :=
  rawPost "2" text createdAt None
          (Some [Ref.mk (Some "replied_to") None (Some "1") None]).

(** The groups and the standalone roots of a view, by id: each root with the
    ids of its children. *)
Definition outline (v : Result View)
  : option (list (string * list (option string * list (option string)))
            * list (option string)) :=
  match v with
  | Ok (Threads out) =>
      Some ((fun e : string * list Tweet.t =>
               (e.1, (fun t => (Tweet.id t, Tweet.id <$> kids t)) <$> e.2))
              <$> conversations out,
            Tweet.id <$> standalone out)
  | _ => None
  end.

Definition backfillResponse (inIncluded : bool) (a b : Raw.t) : option ApiResponse :=
  if inIncluded
  then Some (mkResponse (arrayLiteral [b]) (arrayLiteral [a]) BFalsy BFalsy BFalsy BFalsy)
  else Some (mkResponse (arrayLiteral [b]) BFalsy BFalsy (arrayLiteral [a]) BFalsy BFalsy).

(** Both posts in the primary batch. *)
Definition primaryOnlyResponse (a b : Raw.t) : option ApiResponse :=
  Some (mkResponse (arrayLiteral [a; b]) BFalsy BFalsy BFalsy BFalsy BFalsy).

(** Below [a], a record that carries the id of [a] again has no children:
    the branch stops there. *)
Definition stopsAtRepeat (a : Tweet.t) : Prop :=
  ∀ d, d ∈ descendants a → Tweet.id d = Tweet.id a → kids d = [].

(** Every record is flagged as a reply and its reply target is the id of a
    record of the list (as when A replies to B and B replies to A). *)
Definition allRepliesInside (tweets : list Tweet.t) : Prop :=
  ∀ t, t ∈ tweets →
       truthy (Tweet.isReply t) = true ∧ truthy (Tweet.inReplyToId t) = true
       ∧ Tweet.inReplyToId t ∈ Tweet.id <$> tweets.

(** Two records of conversation "c" that name each other as reply target;
    [loopR] is not flagged as a reply, [loopA] is. *)
Definition loopR : Tweet.t := post "r" "2001" (Some "c") (Some false) (Some "a").
Definition loopA : Tweet.t := post "a" "2002" (Some "c") (Some true) (Some "r").

(** A cycle proper: A replies to B and B replies to A, in conversation "c". *)
Definition cycleA : Tweet.t := post "a" "2001" (Some "c") (Some true) (Some "b").
Definition cycleB : Tweet.t := post "b" "2002" (Some "c") (Some true) (Some "a").

(** Invariant of a run of the thread builder on a store that had [n0]
    objects when the run began: the objects from [n0] on are the new ones.
    Their ids are among the candidates [C], their [children] are new objects,
    and [tweetMap] holds references to new objects. *)
Record StoreInv (n0 : nat) (C : gset (option string))
    (tweetMap : gmap string Store.loc) (h : Store.Heap) : Prop := mkStoreInv {
  inv_len : (n0 ≤ length h)%nat;
  inv_ids : ∀ l o, (n0 ≤ l)%nat → h !! l = Some o → Tweet.id (Store.props o) ∈ C;
  inv_kids : ∀ l o c, (n0 ≤ l)%nat → h !! l = Some o →
                      c ∈ default [] (Store.childrenRef o) → (n0 ≤ c)%nat;
  inv_tm : ∀ i c, tweetMap !! i = Some c → (n0 ≤ c < length h)%nat }.

(** [h'] has the objects of [h] below [n0] unchanged, and no fewer objects. *)
Definition keeps (n0 : nat) (h h' : Store.Heap) : Prop :=
  (length h ≤ length h')%nat ∧ ∀ l, (l < n0)%nat → h' !! l = h !! l.

(** What a call of [attach] on a new object guarantees when it returns. *)
Definition attachPost (n0 : nat) (C : gset (option string))
    (tm : gmap string Store.loc)
    (attach : Store.loc → Store.State → option (unit * Store.State)) : Prop :=
  ∀ p st u st',
    StoreInv n0 C tm st.2 → (n0 ≤ p)%nat → attach p st = Some (u, st') →
    StoreInv n0 C tm st'.2 ∧ keeps n0 st.2 st'.2 ∧ st.1 ⊆ st'.1.

(** A call of [attach] on a new object returns when the fuel exceeds the
    number of candidate ids not yet visited. *)
Definition attachTotal (n0 : nat) (C : gset (option string)) (fuel : nat)
    (tm : gmap string Store.loc)
    (attach : Store.loc → Store.State → option (unit * Store.State)) : Prop :=
  ∀ p st,
    StoreInv n0 C tm st.2 → (n0 ≤ p < length st.2)%nat →
    (size (C ∖ st.1) < fuel)%nat → is_Some (attach p st).

(** The ids of the objects of an array, with [undefined]. *)
Definition candidateIds (tweets : list Store.loc) (h : Store.Heap)
  : gset (option string) :=
  {[None]} ∪ list_to_set ((fun l => (h !! l) ≫= (fun o => Tweet.id (Store.props o)))
                            <$> tweets).

(** A store with the records [postS] and [postR], and the record [postP]
    whose [children] array refers to the first two. *)
Definition exampleStore : Store.Heap :=
  [ Store.mkObj postS None; Store.mkObj postR None;
    Store.mkObj postP (Some [0%nat; 1%nat]) ].

(** ** The store against the values *)

(** The object at [l] has the properties [t]. *)
Definition stored (h : Store.Heap) (l : Store.loc) (t : Tweet.t) : Prop :=
  ∃ o, h !! l = Some o ∧ Store.props o = t.

(** Every object of [h0] is in [h], unchanged. *)
Definition above (h0 h : Store.Heap) : Prop :=
  ∀ l o, h0 !! l = Some o → h !! l = Some o.

(** Read with [d] levels, the tree below [l] is [t], and reading it looks at
    the locations from [l] up to [hi] only. *)
Definition readsAs (d : nat) (h : Store.Heap) (hi : nat) (l : Store.loc)
    (t : Tweet.t) : Prop :=
  ∀ h', (∀ x, (l ≤ x < hi)%nat → h' !! x = h !! x) → Store.readTree d h' l = Some t.

(** The table of references [tm] and the table of values [tmv] hold the same
    copies under the same ids. *)
Definition mapAgrees (tm : gmap string Store.loc) (tmv : gmap string Tweet.t)
    (h : Store.Heap) : Prop :=
  ∀ i : string,
    match tm !! i with
    | Some c => ∃ o, h !! c = Some o ∧ tmv !! i = Some (set_children [] (Store.props o))
    | None => tmv !! i = None
    end.

(** [attach], on the store, does what [attachV] does on values: called on a
    copy just allocated, it leaves the older objects alone and leaves below
    the copy the tree that [attachV] returns. *)
Definition attachSim (h0 : Store.Heap) (d : nat)
    (attach : Store.loc → Store.State → option (unit * Store.State))
    (attachV : Tweet.t → gset (option string)
               → option (Tweet.t * gset (option string))) : Prop :=
  ∀ p pr P h out P',
    above h0 h → length h = S p → (length h0 ≤ p)%nat →
    h !! p = Some (Store.mkObj pr (Some [])) →
    attachV (set_children [] pr) P = Some (out, P') →
    ∃ h', attach p (P, h) = Some ((), (P', h'))
          ∧ keeps p h h' ∧ readsAs d h' (length h') p out.

(** ** Vocabulary of the further properties *)

(** Two records show the same content: they agree on the properties a card
    displays. *)
Definition sameDisplay (a b : Tweet.t) : Prop :=
  Tweet.id a = Tweet.id b ∧ Tweet.text a = Tweet.text b
  ∧ Tweet.createdAt a = Tweet.createdAt b ∧ Tweet.url a = Tweet.url b
  ∧ Tweet.author a = Tweet.author b
  ∧ Tweet.likeCount a = Tweet.likeCount b
  ∧ Tweet.retweetCount a = Tweet.retweetCount b
  ∧ Tweet.replyCount a = Tweet.replyCount b
  ∧ Tweet.quoteCount a = Tweet.quoteCount b
  ∧ Tweet.viewCount a = Tweet.viewCount b
  ∧ Tweet.entities a = Tweet.entities b ∧ Tweet.card a = Tweet.card b.

(** [b] is the primary record [a], possibly after the merge has minted its
    conversation id: that happens only to a record that has an id and no
    conversation id, and the id minted is the record's own id. *)
Definition settled (a b : Tweet.t) : Prop :=
  b = a
  ∨ (truthy (Tweet.conversationId a) = false ∧ truthy (Tweet.id a) = true
     ∧ b = set_conversationId (Tweet.id a) a).

(** The conversation id of the record [t] made of the supplementary raw
    record [x], given the primary records [M] of the merged set: that of the
    first primary record that references [x], when that record has one; its
    own otherwise. *)
Definition groupedWith (references : Raw.t → Tweet.t → bool) (x : Raw.t)
    (t : Tweet.t) (M : list Tweet.t) : Prop :=
  Tweet.conversationId t =
  match jsfind (references x) M with
  | Some r =>
      if truthy (Tweet.conversationId r) then Tweet.conversationId r
      else or_undefined (Raw.conversationId x)
  | None => or_undefined (Raw.conversationId x)
  end.

(** The same, with what makes it stable under later steps of the merge: a
    referencing record left without a conversation id has no id either. *)
Definition groupedWithStable (references : Raw.t → Tweet.t → bool) (x : Raw.t)
    (t : Tweet.t) (M : list Tweet.t) : Prop :=
  match jsfind (references x) M with
  | Some r =>
      if truthy (Tweet.conversationId r)
      then Tweet.conversationId t = Tweet.conversationId r
      else Tweet.conversationId t = or_undefined (Raw.conversationId x)
           ∧ truthy (Tweet.id r) = false
  | None => Tweet.conversationId t = or_undefined (Raw.conversationId x)
  end.

(** ** The merge of [advancedSearch]

    As for [fetchUserTweets], the embedding starts where the response has
    been parsed. *)

(** The raw record read as a [Tweet]: the properties the spread [...tweet]
    gives the record, under the names of the interface.  The records of the
    API carry no [_source] and no [children]. *)
Fixpoint spreadTweet (tweet : Raw.t) : Tweet.t :=
  {| Tweet.id := Raw.id tweet;
     Tweet.text := Raw.text tweet;
     Tweet.createdAt := Raw.createdAt tweet;
     Tweet.url := Raw.url tweet;
     Tweet.author := Raw.author tweet;
     Tweet.likeCount := Raw.likeCount tweet;
     Tweet.retweetCount := Raw.retweetCount tweet;
     Tweet.replyCount := Raw.replyCount tweet;
     Tweet.quoteCount := Raw.quoteCount tweet;
     Tweet.viewCount := Raw.viewCount tweet;
     Tweet.entities := Raw.entities tweet;
     Tweet.card := Raw.card tweet;
     Tweet.inReplyToStatusId := Raw.inReplyToStatusId tweet;
     Tweet.inReplyToTweetId := Raw.inReplyToTweetId tweet;
     Tweet.referencedTweets := Raw.referencedTweets tweet;
     Tweet.repliedTo :=
       match Raw.repliedTo tweet with
       | Some r => Some (spreadTweet r)
       | None => None
       end;
     Tweet.isReply := Raw.isReply tweet;
     Tweet.inReplyToId := Raw.inReplyToId tweet;
     Tweet.conversationId := Raw.conversationId tweet;
     Tweet.inReplyToUserId := Raw.inReplyToUserId tweet;
     Tweet.inReplyToUsername := Raw.inReplyToUsername tweet;
     Tweet.displayTextRange := Raw.displayTextRange tweet;
     Tweet.children := None;
     Tweet._source := None |}.

(** The callback of [rawTweets.map] in [advancedSearch]: the raw record
    spread, then the overriding properties.  The reply id is looked for in
    seven properties, and [repliedTo] is left as the spread gives it. *)
Definition searchMainTweet (tweet : Raw.t) : Tweet.t :=
  let replyId := replyId7 tweet in
  let spread := spreadTweet tweet in
  {| Tweet.id := Tweet.id spread;
     Tweet.text := Tweet.text spread;
     Tweet.createdAt := Tweet.createdAt spread;
     Tweet.url := Tweet.url spread;
     Tweet.author := Tweet.author spread;
     Tweet.likeCount := Tweet.likeCount spread;
     Tweet.retweetCount := Tweet.retweetCount spread;
     Tweet.replyCount := Tweet.replyCount spread;
     Tweet.quoteCount := Tweet.quoteCount spread;
     Tweet.viewCount := or_undefined (Raw.viewCount tweet ||| Raw.view_count tweet);
     Tweet.entities := Tweet.entities spread;
     Tweet.card := or_undefined (Raw.card tweet ||| Raw.Card tweet);
     Tweet.inReplyToStatusId :=
       Raw.in_reply_to_status_id tweet ||| Raw.inReplyToStatusId tweet;
     Tweet.inReplyToTweetId :=
       Raw.in_reply_to_tweet_id tweet ||| Raw.inReplyToTweetId tweet;
     Tweet.referencedTweets :=
       Raw.referenced_tweets tweet ||| Raw.referencedTweets tweet;
     Tweet.repliedTo := Tweet.repliedTo spread;
     Tweet.isReply := isReplyOf tweet replyId;
     Tweet.inReplyToId := or_undefined (Raw.inReplyToId tweet ||| replyId);
     Tweet.conversationId := or_undefined (Raw.conversationId tweet);
     Tweet.inReplyToUserId := or_undefined (Raw.inReplyToUserId tweet);
     Tweet.inReplyToUsername := or_undefined (Raw.inReplyToUsername tweet);
     Tweet.displayTextRange := or_undefined (Raw.displayTextRange tweet);
     Tweet.children := Tweet.children spread;
     Tweet._source := Tweet._source spread |}.

(** The predicate of [processedMainTweets.find] for a record of the included
    batch, in [advancedSearch]. *)
Definition searchReferencesIncluded (tweet : Raw.t) (t : Tweet.t) : bool :=
  bool_decide (Tweet.inReplyToId t = Raw.id tweet)
  || match Tweet.referencedTweets t with
     | Some refs => existsb (fun ref => bool_decide (Ref.id ref = Raw.id tweet)) refs
     | None => false
     end.

(** The callback of [map] over a supplementary batch, in [advancedSearch]:
    the record takes the conversation id of the first primary record that
    references it, when that record has one.  Nothing else is written. *)
Definition searchGroup (references : Raw.t → Tweet.t → bool)
    (processedMainTweets : list Tweet.t) (tweet : Raw.t) : option Tweet.t :=
  match processRawTweet (Some tweet) with
  | None => None
  | Some processed =>
      match jsfind (references tweet) processedMainTweets with
      | Some referencingTweet =>
          if truthy (Tweet.conversationId referencingTweet)
          then Some (set_conversationId (Tweet.conversationId referencingTweet) processed)
          else Some processed
      | None => Some processed
      end
  end.

(** [batch.filter(...).map(...).filter(tweet => tweet !== undefined)]. *)
Definition searchSupplementary (references : Raw.t → Tweet.t → bool)
    (mainTweetIds : gset (option string)) (processedMainTweets : list Tweet.t)
    (batch : list Raw.t) : list Tweet.t :=
  omap (searchGroup references processedMainTweets)
       (filter (fun tweet => Is_true (isValid mainTweetIds tweet)) batch).

(** The merge of [advancedSearch] on three arrays: [allTweets]. *)
Definition searchMerge (rawTweets includesTweets repliedToTweets : list Raw.t)
  : list Tweet.t :=
  let processedMainTweets := searchMainTweet <$> rawTweets in
  let mainTweetIds : gset (option string) :=
    list_to_set (Tweet.id <$> processedMainTweets) in
  processedMainTweets
  ++ searchSupplementary searchReferencesIncluded mainTweetIds processedMainTweets
       includesTweets
  ++ searchSupplementary referencesRepliedTo mainTweetIds processedMainTweets
       repliedToTweets.

(** The places of the parsed response where [advancedSearch] looks for a
    batch, and the pagination properties. *)
Record SearchResponse := mkSearchResponse {
  search_tweets : Batch;
  search_includes_tweets : Batch;
  search_data_includes_tweets : Batch;
  search_replied_to_tweets : Batch;
  search_repliedToTweets : Batch;
  search_data_replied_to_tweets : Batch;
  search_data_repliedToTweets : Batch;
  has_next_page : option bool;
  next_cursor : option string }.

(** The properties of the value [advancedSearch] resolves to that come from
    the response. *)
Record SearchResult := mkSearchResult {
  result_tweets : list Tweet.t;
  hasNextPage : bool;
  nextCursor : string }.

(** As in [fetchUserTweets], the parsed body can be [null], on which the
    first log throws, and an array can have [null] elements: in the primary
    array they make the callback of [map] throw, in the other two arrays the
    filter skips them. *)
Definition advancedSearch (apiResponse : option SearchResponse) : Result SearchResult :=
  match apiResponse with
  | None => TypeError
  | Some apiResponse =>
      let rawTweets := batch_or (search_tweets apiResponse) (BArray []) in
      let includesTweets :=
        batch_or (batch_or (search_includes_tweets apiResponse)
                           (search_data_includes_tweets apiResponse))
                 (BArray []) in
      let repliedToTweets :=
        batch_or (batch_or (batch_or (batch_or (search_replied_to_tweets apiResponse)
                                               (search_repliedToTweets apiResponse))
                                     (search_data_replied_to_tweets apiResponse))
                           (search_data_repliedToTweets apiResponse))
                 (BArray []) in
      rawTweets ← asArray rawTweets;
      rawTweets ← eachRecord rawTweets;
      includesTweets ← asArray includesTweets;
      repliedToTweets ← asArray repliedToTweets;
      Ok (mkSearchResult
            (searchMerge rawTweets (records includesTweets) (records repliedToTweets))
            (jsor_default (has_next_page apiResponse) false)
            (jsor_default (next_cursor apiResponse) ""))
  end.

(** The raw record [r] with the conversation id [c]. *)
Definition inConversation (c : string) (r : Raw.t) : Raw.t :=
  {| Raw.id := Raw.id r; Raw.text := Raw.text r; Raw.full_text := Raw.full_text r;
     Raw.createdAt := Raw.createdAt r; Raw.created_at := Raw.created_at r;
     Raw.url := Raw.url r; Raw.author := Raw.author r; Raw.user := Raw.user r;
     Raw.likeCount := Raw.likeCount r; Raw.like_count := Raw.like_count r;
     Raw.retweetCount := Raw.retweetCount r; Raw.retweet_count := Raw.retweet_count r;
     Raw.replyCount := Raw.replyCount r; Raw.reply_count := Raw.reply_count r;
     Raw.quoteCount := Raw.quoteCount r; Raw.quote_count := Raw.quote_count r;
     Raw.viewCount := Raw.viewCount r; Raw.view_count := Raw.view_count r;
     Raw.public_metrics := Raw.public_metrics r; Raw.entities := Raw.entities r;
     Raw.card := Raw.card r; Raw.Card := Raw.Card r;
     Raw.in_reply_to_status_id := Raw.in_reply_to_status_id r;
     Raw.in_reply_to_tweet_id := Raw.in_reply_to_tweet_id r;
     Raw.inReplyToStatusId := Raw.inReplyToStatusId r;
     Raw.inReplyToTweetId := Raw.inReplyToTweetId r;
     Raw.reply_to_status_id := Raw.reply_to_status_id r;
     Raw.reply_to_tweet_id := Raw.reply_to_tweet_id r;
     Raw.inReplyToId := Raw.inReplyToId r;
     Raw.referenced_tweets := Raw.referenced_tweets r;
     Raw.referencedTweets := Raw.referencedTweets r;
     Raw.isReply := Raw.isReply r; Raw.conversationId := Some c;
     Raw.inReplyToUserId := Raw.inReplyToUserId r;
     Raw.inReplyToUsername := Raw.inReplyToUsername r;
     Raw.displayTextRange := Raw.displayTextRange r;
     Raw.replied_to := Raw.replied_to r; Raw.repliedTo := Raw.repliedTo r |}.

(** ** Requests: validation and URL of [fetchUserTweets] and [advancedSearch]

    What the two functions do before they call [fetch].  A string is a
    sequence of code units.  [String.prototype.trim] and the serializer of
    [URLSearchParams] are parameters of the embedding: the code below uses
    them as they are, whatever they do to a string. *)

(** Outcome of the part of a function that can [throw new Error(message)]. *)
Inductive Completion (A : Type) := Normal (a : A) | Throw (message : string).
Arguments Normal {A} a.
Arguments Throw {A} message.

(** [searchParams.set(name, value)]: the first pair with this name gets the
    value and the other ones are removed; without such a pair, the pair is
    appended. *)
Fixpoint setParam (name value : string) (ps : list (string * string))
  : list (string * string) :=
  match ps with
  | [] => [(name, value)]
  | (n, v) :: ps' =>
      if decide (n = name)
      then (name, value) :: filter (fun e => e.1 ≠ name) ps'
      else (n, v) :: setParam name value ps'
  end.

(** [String(b)] for a boolean. *)
Definition String_of_bool (b : bool) : string := if b then "true" else "false".

Record FetchUserTweetsParams := mkUserParams {
  userName : option string;
  userId : option string;
  apiKey : string;
  cursor : option string;
  includeReplies : option bool }.

Record AdvancedSearchParams := mkSearchParams {
  query : string;
  queryType : option string;
  searchCursor : option string;
  searchApiKey : string }.

(** The call [fetch(requestUrl, { method: 'GET', headers })]. *)
Record Request := mkRequest {
  requestUrl : string;
  headers : list (string * string) }.

Section Requests.

Variable trim : string → string.
Variable serialize : list (string * string) → string.

(** [s?.trim()]. *)
Definition trimmed (s : option string) : option string := trim <$> s.

(** The value of [apiUrl.search] once the serialized parameters are
    assigned to it: empty, or the query after a question mark. *)
Definition searchOf (ps : list (string * string)) : string :=
  let q := serialize ps in
  if truthy q then "?" +:+ q else "".

(** The parameters [fetchUserTweets] sets, in order. *)
Definition userTweetsQuery (params : FetchUserTweetsParams) : list (string * string) :=
  let s1 :=
    if truthy (trimmed (userId params))
    then setParam "userId" (default "" (trimmed (userId params))) []
    else if truthy (trimmed (userName params))
    then setParam "userName" (default "" (trimmed (userName params))) []
    else [] in
  let s2 :=
    if truthy (trimmed (cursor params))
    then setParam "cursor" (default "" (trimmed (cursor params))) s1
    else s1 in
  match includeReplies params with
  | Some b => setParam "includeReplies" (String_of_bool b) s2
  | None => s2
  end.

(** [fetchUserTweets] up to the call of [fetch]: the exception of the
    validation, or the request.  [isDevelopment] is [import.meta.env.DEV]
    and [origin] is [window.location.origin]. *)
Definition fetchUserTweets_request (isDevelopment : bool) (origin : string)
    (params : FetchUserTweetsParams) : Completion Request :=
  if negb (truthy (trimmed (userName params))) && negb (truthy (trimmed (userId params)))
  then Throw "Either userName or userId must be provided."
  else if negb (truthy (trim (apiKey params)))
  then Throw "API Key cannot be empty."
  else
    let search := searchOf (userTweetsQuery params) in
    let directApiUrl := "https://api.twitterapi.io/twitter/user/last_tweets" +:+ search in
    let proxyPath := "/api/twitter/twitter/user/last_tweets" in
    Normal (mkRequest
              (if isDevelopment then origin +:+ proxyPath +:+ search else directApiUrl)
              [("X-API-Key", apiKey params); ("Accept", "application/json")]).

(** The parameters [advancedSearch] sets, in order; [queryType] defaults to
    ['Latest']. *)
Definition advancedSearchQuery (params : AdvancedSearchParams) : list (string * string) :=
  let s1 := setParam "query" (trim (query params)) [] in
  let s2 := setParam "queryType" (default "Latest" (queryType params)) s1 in
  if truthy (trimmed (searchCursor params))
  then setParam "cursor" (default "" (trimmed (searchCursor params))) s2
  else s2.

Definition advancedSearch_request (isDevelopment : bool) (origin : string)
    (params : AdvancedSearchParams) : Completion Request :=
  if negb (truthy (trim (query params)))
  then Throw "Query cannot be empty."
  else if negb (truthy (trim (searchApiKey params)))
  then Throw "API Key cannot be empty."
  else
    let search := searchOf (advancedSearchQuery params) in
    let directApiUrl :=
      "https://api.twitterapi.io/twitter/tweet/advanced_search" +:+ search in
    let proxyPath := "/api/twitter/twitter/tweet/advanced_search" in
    Normal (mkRequest
              (if isDevelopment then origin +:+ proxyPath +:+ search else directApiUrl)
              [("X-API-Key", searchApiKey params); ("Accept", "application/json")]).

End Requests.

(** The proxy of the development server ([vite.config.ts]): a request whose
    path starts with [/api/twitter] is forwarded to the target, with the
    path that [rewrite] returns; [path.replace(/^\/api\/twitter/, '')]
    removes that prefix. *)
Definition rewrite (path : string) : string :=
  if String.prefix "/api/twitter" path then String.substring 12 (String.length path - 12)%nat path
  else path.

Definition proxyTarget (path : string) : option string :=
  if String.prefix "/api/twitter" path
  then Some ("https://api.twitterapi.io" +:+ rewrite path)
  else None.

(** A [trim] for strings of printable ASCII characters and the ASCII white
    space: it removes the white space at both ends. *)
Definition isSpace (a : ascii) : bool :=
  let n := N_of_ascii a in
  (n =? 32)%N || ((9 <=? n)%N && (n <=? 13)%N).

Fixpoint trimStart (s : string) : string :=
  match s with
  | String a s' => if isSpace a then trimStart s' else s
  | EmptyString => EmptyString
  end.

Definition trimAscii (s : string) : string :=
  String.rev (trimStart (String.rev (trimStart s))).

(** The serialization of parameters whose characters need no escaping. *)
Definition serializePlain (ps : list (string * string)) : string :=
  String.concat "&" ((fun e => e.1 +:+ "=" +:+ e.2) <$> ps).

(** ** Cards: [TweetCard] and [renderTweetThread] in [App.tsx] *)

(** [tweet.isReply || !!tweet.inReplyToId], as a condition. *)
Definition cardIsReply (tweet : Tweet.t) : bool :=
  truthy (Tweet.isReply tweet) || truthy (Tweet.inReplyToId tweet).

(** The text a card shows: for a reply with a display range inside the
    text, the part of the text in that range (which leaves out the mention
    prefix); the text otherwise.  Reading [tweet.text.length] throws when the
    record has no text. *)
Definition displayText (tweet : Tweet.t) : Result (option string) :=
  match Tweet.displayTextRange tweet with
  | Some (start, end_) =>
      if cardIsReply tweet && (0 <=? start) then
        match Tweet.text tweet with
        | None => TypeError
        | Some text =>
            if (end_ <=? Z.of_nat (String.length text)) && (start <? end_)
            then Ok (Some (String.substring (Z.to_nat start) (Z.to_nat (end_ - start)) text))
            else Ok (Some text)
        end
      else Ok (Tweet.text tweet)
  | None => Ok (Tweet.text tweet)
  end.

(** [_source === 'includes' || _source === 'replied_to']: the card carries the
    badge "Included Tweet". *)
Definition isIncludedTweet (tweet : Tweet.t) : bool :=
  match Tweet._source tweet with
  | Some includes | Some replied_to => true
  | Some main | None => false
  end.

(** What [renderTweetThread] renders: the card of the record, with its depth
    and badge, and below it the threads of the children. *)
Inductive Thread := mkThread {
  card_tweet : Tweet.t;
  card_depth : nat;
  card_isIncludedTweet : bool;
  card_replies : list Thread }.

Fixpoint renderTweetThread (tweet : Tweet.t) (depth : nat) : Thread :=
  mkThread tweet depth (isIncludedTweet tweet)
    match Tweet.children tweet with
    | Some cs => (fun child => renderTweetThread child (S depth)) <$> cs
    | None => []
    end.

(** All cards of a thread, from the top. *)
Fixpoint cards (v : Thread) : list Thread :=
  v :: (card_replies v ≫= cards).

(** The threads of the page: those of the conversation groups, then those of
    the standalone records. *)
Definition renderedThreads (out : Rendered) : list Thread :=
  (conversations out ≫= fun e => (fun tweet => renderTweetThread tweet 0) <$> e.2)
  ++ ((fun tweet => renderTweetThread tweet 0) <$> standalone out).

(** The record [t] with the display range [r]. *)
Definition withRange (r : Z * Z) (t : Tweet.t) : Tweet.t :=
  {| Tweet.id := Tweet.id t; Tweet.text := Tweet.text t;
     Tweet.createdAt := Tweet.createdAt t; Tweet.url := Tweet.url t;
     Tweet.author := Tweet.author t; Tweet.likeCount := Tweet.likeCount t;
     Tweet.retweetCount := Tweet.retweetCount t;
     Tweet.replyCount := Tweet.replyCount t;
     Tweet.quoteCount := Tweet.quoteCount t;
     Tweet.viewCount := Tweet.viewCount t; Tweet.entities := Tweet.entities t;
     Tweet.card := Tweet.card t;
     Tweet.inReplyToStatusId := Tweet.inReplyToStatusId t;
     Tweet.inReplyToTweetId := Tweet.inReplyToTweetId t;
     Tweet.referencedTweets := Tweet.referencedTweets t;
     Tweet.repliedTo := Tweet.repliedTo t; Tweet.isReply := Tweet.isReply t;
     Tweet.inReplyToId := Tweet.inReplyToId t;
     Tweet.conversationId := Tweet.conversationId t;
     Tweet.inReplyToUserId := Tweet.inReplyToUserId t;
     Tweet.inReplyToUsername := Tweet.inReplyToUsername t;
     Tweet.displayTextRange := Some r;
     Tweet.children := Tweet.children t;
     Tweet._source := Tweet._source t |}.

(** A reply whose text starts with a mention, and the range of what follows
    the mention. *)
Definition mentionReply : Tweet.t :=
  withRange (3, 8)
    (default emptyTweet
       (processRawTweet (Some (rawPost "2" "@a hello" "2002" (Some "1") None)))).

(** The record that [tweetMap.get(id)] is a copy of: [tweetMap.set] keeps,
    for each id, the last record of the list that carries it. *)
Definition lastWithId (tweets : list Tweet.t) (id : option string) : option Tweet.t :=
  last (filter (fun y => Tweet.id y = id) tweets).

(** The reply flags of the records are consistent: a record that names a
    reply target is flagged as a reply. *)
Definition flaggedReplies (tweets : list Tweet.t) : Prop :=
  ∀ t, t ∈ tweets → truthy (Tweet.inReplyToId t) = true → truthy (Tweet.isReply t) = true.

(** The set [s] of visited ids is closed under reply targets inside the
    conversation [X]: a visited record whose reply target is the id of a
    record of [X] has its target visited. *)
Definition closedUnder (X : list Tweet.t) (s : gset (option string)) : Prop :=
  ∀ x, x ∈ X → Tweet.id x ∈ s → Tweet.inReplyToId x ∈ Tweet.id <$> X →
       Tweet.inReplyToId x ∈ s.

(** What attaching the copies of the records [L] leaves, from the visited
    set [s]: trees [forest] whose records are copies of records of [X] with
    pairwise distinct ids, none of them visited before; the visited set [s']
    has exactly these ids in addition; a record of the trees that is not
    one of [L] has its reply target in the trees; and the trees hold the
    records of [L] and every record of [X] that replies to one of theirs. *)
Definition freshForest (X : list Tweet.t) (s s' : gset (option string))
    (L forest : list Tweet.t) : Prop :=
  NoDup (Tweet.id <$> (forest ≫= nodes))
  ∧ (∀ i, i ∈ Tweet.id <$> (forest ≫= nodes) → i ∉ s)
  ∧ (∀ i, i ∈ s' ↔ i ∈ s ∨ i ∈ Tweet.id <$> (forest ≫= nodes))
  ∧ closedUnder X s'
  ∧ (∀ m, m ∈ forest ≫= nodes → ∃ x, x ∈ X ∧ sameRecord x m)
  ∧ (∀ m, m ∈ forest ≫= nodes →
          Tweet.id m ∈ Tweet.id <$> L
          ∨ Tweet.inReplyToId m ∈ Tweet.id <$> (forest ≫= nodes))
  ∧ (∀ c, c ∈ L → Tweet.id c ∈ Tweet.id <$> (forest ≫= nodes))
  ∧ (∀ m x, m ∈ forest ≫= nodes → x ∈ X → Is_true (repliesTo (Tweet.id m) x) →
            Tweet.id x ∈ Tweet.id <$> (forest ≫= nodes)).

(** The replies inside a conversation form no cycle: some rank of the
    records decreases from every record to the record of its conversation
    it replies to. *)
Definition acyclicReplies (tweets : list Tweet.t) : Prop :=
  ∃ rank : Tweet.t → nat,
    ∀ x p, x ∈ tweets → p ∈ tweets → is_Some (convOf x) → convOf x = convOf p →
           Tweet.inReplyToId x = Tweet.id p → (rank p < rank x)%nat.

(** No record without a conversation key replies to a record that has
    one. *)
Definition noStrayReplies (tweets : list Tweet.t) : Prop :=
  ∀ x p, x ∈ tweets → p ∈ tweets → convOf x = None →
         Tweet.inReplyToId x = Tweet.id p → convOf p = None.

(** * Properties *)

(** ** Truthiness *)

Lemma truthy_Some `{Truthy A} (a : A) : truthy (Some a) = truthy a.
Proof. reflexivity. Qed.

Lemma truthy_None `{Truthy A} : truthy (@None A) = false.
Proof. reflexivity. Qed.

Lemma truthy_is_Some `{Truthy A} (o : option A) : truthy o = true → is_Some o.
Proof. destruct o; [by eexists|done]. Qed.

(** ** Snapshots *)

Lemma createClean_isSnapshot (tweet : option Raw.t) (clean : Tweet.t) :
  createCleanRepliedToTweet tweet = Some clean → isSnapshot clean.
Proof.
  destruct tweet as [raw|]; intros H; [|discriminate].
  injection H as <-. repeat split.
Qed.

Lemma resolveRepliedTo_isSnapshot tweetMap rawTweets tweet s :
  resolveRepliedTo tweetMap rawTweets tweet = Some s → isSnapshot s.
Proof.
  unfold resolveRepliedTo.
  repeat case_match; intros ?; try discriminate;
    eauto using createClean_isSnapshot.
Qed.

Lemma processMainTweet_clean tweetMap rawTweets tweet :
  repliedToClean (processMainTweet tweetMap rawTweets tweet).
Proof. intros s Hs. simpl in Hs. by eapply resolveRepliedTo_isSnapshot. Qed.

Lemma processRawTweet_repliedTo tweet p :
  processRawTweet tweet = Some p → Tweet.repliedTo p = None.
Proof.
  destruct tweet as [raw|]; simpl; [|done].
  case_match; [done|]. by intros [= <-].
Qed.

(** ** How one supplementary record changes the state *)

Lemma regrouped_refl a : regrouped a a.
Proof. by left. Qed.

Lemma regrouped_trans a b c : regrouped a b → regrouped b c → regrouped a c.
Proof.
  intros [->|[x ->]] [->|[y ->]]; [by left|right; eauto|right; eauto|].
  right. by exists y.
Qed.

Lemma Forall2_regrouped_refl l : Forall2 regrouped l l.
Proof. induction l; constructor; auto using regrouped_refl. Qed.

Lemma Forall2_regrouped_trans l1 l2 l3 :
  Forall2 regrouped l1 l2 → Forall2 regrouped l2 l3 → Forall2 regrouped l1 l3.
Proof.
  intros H. revert l3. induction H; intros l3 H3; inversion H3; subst;
    constructor; eauto using regrouped_trans.
Qed.

Lemma Forall2_regrouped_insert l i t c :
  l !! i = Some t →
  Forall2 regrouped l (<[i := set_conversationId c t]> l).
Proof.
  revert i. induction l as [|a l IH]; intros [|i] H; simplify_eq/=.
  - constructor; [right; eauto|apply Forall2_regrouped_refl].
  - constructor; [apply regrouped_refl|by apply IH].
Qed.

Lemma regrouped_id a b : regrouped a b → Tweet.id b = Tweet.id a.
Proof. by intros [->|[c ->]]. Qed.

Lemma regrouped_ids (l1 l2 : list Tweet.t) :
  Forall2 regrouped l1 l2 → Tweet.id <$> l2 = Tweet.id <$> l1.
Proof. induction 1; simpl; f_equal; auto using regrouped_id. Qed.

Lemma regrouped_clean a b : regrouped a b → repliedToClean a → repliedToClean b.
Proof. by intros [->|[c ->]]. Qed.

Lemma regrouped_text a b : regrouped a b → Tweet.text b = Tweet.text a.
Proof. by intros [->|[c ->]]. Qed.

Lemma groupStep_spec source references main out tweet :
  truthy (Raw.id tweet) = true →
  ∃ main' t,
    groupStep source references (main, out) tweet = (main', out ++ [t])
    ∧ Forall2 regrouped main main' ∧ produced source tweet t.
Proof.
  intros Hid. unfold groupStep.
  destruct (processRawTweet (Some tweet)) as [p|] eqn:Hp; last first.
  { simpl in Hp. rewrite Hid in Hp. done. }
  destruct (list_find _ main) as [[i r]|] eqn:Hfind.
  - apply list_find_Some in Hfind as (Hi & _ & _).
    repeat case_match; eexists _, _; split_and!; try done;
      try apply Forall2_regrouped_refl;
      try (by eapply Forall2_regrouped_insert);
      exists p; split; try done; try (by left); right; eauto.
  - eexists _, _; split_and!; [done|apply Forall2_regrouped_refl|].
    exists p. split; [done|by left].
Qed.

Lemma foldl_groupStep_spec source references batch main out :
  Forall (fun tweet => truthy (Raw.id tweet) = true) batch →
  ∃ main' ts,
    foldl (groupStep source references) (main, out) batch = (main', out ++ ts)
    ∧ Forall2 regrouped main main'
    ∧ Forall2 (produced source) batch ts.
Proof.
  intros Hb. revert main out.
  induction Hb as [|tweet batch Hid _ IH]; intros main out; cbn [foldl].
  - exists main, []. rewrite app_nil_r. auto using Forall2_regrouped_refl.
  - destruct (groupStep_spec source references main out tweet Hid)
      as (main1 & t & -> & Hm & Ht).
    destruct (IH main1 (out ++ [t])) as (main2 & ts & -> & Hm2 & Hts).
    exists main2, (t :: ts). rewrite <- app_assoc. split_and!; [done| |by constructor].
    by eapply Forall2_regrouped_trans.
Qed.

Lemma isValid_truthy ids tweet : isValid ids tweet = true → truthy (Raw.id tweet) = true.
Proof. unfold isValid. by intros [? _]%andb_true_iff. Qed.

Lemma processSupplementary_spec source references ids main batch :
  ∃ main' ts,
    processSupplementary source references ids main batch = (main', ts)
    ∧ Forall2 regrouped main main'
    ∧ Forall2 (produced source)
        (filter (fun tweet => Is_true (isValid ids tweet)) batch) ts.
Proof.
  unfold processSupplementary.
  destruct (foldl_groupStep_spec source references
              (filter (fun tweet => Is_true (isValid ids tweet)) batch) main [])
    as (main' & ts & H & Hm & Hts).
  - apply Forall_forall. intros tweet [Hv _]%list_elem_of_filter.
    apply Is_true_true in Hv. by eapply isValid_truthy.
  - eauto.
Qed.

(** ** The merged set *)

Lemma processMainTweet_ids tweetMap rawTweets (l : list Raw.t) :
  Tweet.id <$> (processMainTweet tweetMap rawTweets <$> l) = Raw.id <$> l.
Proof. rewrite <- list_fmap_compose. done. Qed.

Lemma mergeBatches_spec rawTweets includesTweets repliedToTweets :
  let m := mergeBatches rawTweets includesTweets repliedToTweets in
  let tweetMap := buildTweetMap includesTweets repliedToTweets rawTweets in
  let valid := fun tweet => Is_true (isValid (mainTweetIdsOf rawTweets) tweet) in
  Forall2 regrouped (processMainTweet tweetMap rawTweets <$> rawTweets)
          (processedMainTweets m)
  ∧ Forall2 (produced includes) (filter valid includesTweets)
            (processedIncludesTweets m)
  ∧ Forall2 (produced replied_to) (filter valid repliedToTweets)
            (processedRepliedToTweets m).
Proof.
  intros m tweetMap valid. subst m. unfold mergeBatches.
  fold tweetMap. rewrite processMainTweet_ids. fold (mainTweetIdsOf rawTweets).
  destruct (processSupplementary_spec includes referencesIncluded
              (mainTweetIdsOf rawTweets)
              (processMainTweet tweetMap rawTweets <$> rawTweets) includesTweets)
    as (main1 & incl & -> & Hm1 & Hincl).
  destruct (processSupplementary_spec replied_to referencesRepliedTo
              (mainTweetIdsOf rawTweets) main1 repliedToTweets)
    as (main2 & repl & -> & Hm2 & Hrepl).
  simpl. split_and!; [|done|done].
  by eapply Forall2_regrouped_trans.
Qed.

Lemma produced_id source tweet t : produced source tweet t → Tweet.id t = Raw.id tweet.
Proof.
  intros (p & Hp & Hr). rewrite (regrouped_id _ _ Hr). simpl.
  simpl in Hp. case_match; [done|]. by injection Hp as <-.
Qed.

Lemma produced_ids source (batch : list Raw.t) (ts : list Tweet.t) :
  Forall2 (produced source) batch ts → Tweet.id <$> ts = Raw.id <$> batch.
Proof. induction 1; simpl; f_equal; eauto using produced_id. Qed.

Lemma produced_clean source tweet t : produced source tweet t → repliedToClean t.
Proof.
  intros (p & Hp & Hr). eapply regrouped_clean; [done|].
  intros s Hs. simpl in Hs. by rewrite (processRawTweet_repliedTo _ _ Hp) in Hs.
Qed.

Lemma produced_source source tweet t :
  produced source tweet t → Tweet._source t = Some source.
Proof. by intros (p & Hp & [->|[c ->]]). Qed.

Lemma produced_text source tweet t : produced source tweet t → is_Some (Tweet.text t).
Proof.
  intros (p & Hp & Hr). rewrite (regrouped_text _ _ Hr). simpl.
  simpl in Hp. case_match; [done|]. injection Hp as <-. by eexists.
Qed.

(** The ids of the merged set, part by part. *)
Lemma mergeBatches_ids rawTweets includesTweets repliedToTweets :
  let m := mergeBatches rawTweets includesTweets repliedToTweets in
  let valid := fun tweet => Is_true (isValid (mainTweetIdsOf rawTweets) tweet) in
  Tweet.id <$> processedMainTweets m = Raw.id <$> rawTweets
  ∧ Tweet.id <$> processedIncludesTweets m = Raw.id <$> filter valid includesTweets
  ∧ Tweet.id <$> processedRepliedToTweets m = Raw.id <$> filter valid repliedToTweets.
Proof.
  intros m valid. subst m valid.
  destruct (mergeBatches_spec rawTweets includesTweets repliedToTweets)
    as (Hm & Hi & Hr).
  split_and!.
  - rewrite (regrouped_ids _ _ Hm). apply processMainTweet_ids.
  - by eapply produced_ids.
  - by eapply produced_ids.
Qed.

(** Primary wins: a supplementary record that survives the filter has an id
    that no primary record has. *)
Lemma valid_not_primary rawTweets tweet :
  Is_true (isValid (mainTweetIdsOf rawTweets) tweet) →
  Raw.id tweet ∉ Raw.id <$> rawTweets.
Proof.
  unfold isValid, mainTweetIdsOf. intros [_ H]%Is_true_true%andb_true_iff.
  apply negb_true_iff, bool_decide_eq_false in H.
  by rewrite elem_of_list_to_set in H.
Qed.

(** ** C1: uniqueness of ids in the merged set *)

(** C1, as stated, fails: a record delivered in both the included and the
    replied-to batch is kept twice, because either batch is filtered against
    the primary ids only. *)
Lemma merged_ids_unique_counterexample :
  ¬ NoDup (Tweet.id <$> allTweets (mergeBatches [] [raw4] [raw4])).
Proof.
  intros H. vm_compute in H.
  apply NoDup_cons in H as [H _]. apply H. left.
Qed.

(** C1 (amended): when the primary batch has no repeated id and the records
    with an id of the included and replied-to batches, taken together, have
    no repeated id, no id appears twice in the merged set: the ids that also
    occur in the primary batch are dropped from the two other batches. *)
Theorem merged_ids_unique rawTweets includesTweets repliedToTweets :
  NoDup (Raw.id <$> rawTweets) →
  NoDup (Raw.id <$> filter (fun tweet => Is_true (truthy (Raw.id tweet)))
                           (includesTweets ++ repliedToTweets)) →
  NoDup (Tweet.id <$> allTweets (mergeBatches rawTweets includesTweets repliedToTweets)).
Proof.
  intros Hmain Hsupp.
  destruct (mergeBatches_ids rawTweets includesTweets repliedToTweets)
    as (Hm & Hi & Hr).
  unfold allTweets. rewrite !fmap_app, Hm, Hi, Hr, <- fmap_app, <- filter_app.
  apply NoDup_app. split_and!; [done| |].
  - intros x Hx (tweet & -> & [Hv _]%list_elem_of_filter)%list_elem_of_fmap.
    by eapply valid_not_primary.
  - eapply sublist_NoDup; [exact Hsupp|].
    apply fmap_sublist.
    rewrite <- (list_filter_filter_l _ (fun tweet => Is_true (truthy (Raw.id tweet)))).
    + apply sublist_filter.
    + intros tweet Hv. apply Is_true_true in Hv. apply Is_true_true.
      by eapply isValid_truthy.
Qed.

Lemma merged_ids_unique_witness :
  NoDup (Tweet.id <$> allTweets (mergeBatches [raw5] [raw4; raw5] [])).
Proof.
  apply merged_ids_unique; apply (bool_decide_unpack _); vm_compute; exact I.
Defined.

(** ** [mapState] *)

Section mapState.
Context {A B S : Type}.
Implicit Types (f g : A → S → option (B * S)) (l : list A) (s : S).

(** An invariant of the state, and a relation between the elements and the
    results. *)
Lemma mapState_inv (I : S → Prop) (R : A → B → Prop) f l s bs s' :
  (∀ a s b s', a ∈ l → I s → f a s = Some (b, s') → I s' ∧ R a b) →
  I s → mapState f l s = Some (bs, s') → I s' ∧ Forall2 R l bs.
Proof.
  revert s bs. induction l as [|a l IH]; intros s bs Hf HI H; simpl in H.
  - injection H as <- <-. auto.
  - destruct (f a s) as [[b s1]|] eqn:Ha; [|done].
    destruct (mapState f l s1) as [[bs1 s2]|] eqn:Hl; [|done].
    injection H as <- <-.
    destruct (Hf a s b s1) as [HI1 HR]; [left|done|done|].
    destruct (IH s1 bs1) as [HI2 HRs]; [|done|done|].
    { intros ?????. apply Hf. by right. }
    split; [done|by constructor].
Qed.

Lemma mapState_is_Some (I : S → Prop) f l s :
  (∀ a s, a ∈ l → I s → ∃ b s', f a s = Some (b, s') ∧ I s') →
  I s → ∃ bs s', mapState f l s = Some (bs, s') ∧ I s'.
Proof.
  revert s. induction l as [|a l IH]; intros s Hf HI; simpl.
  - eauto.
  - destruct (Hf a s) as (b & s1 & -> & HI1); [left|done|].
    destruct (IH s1) as (bs & s2 & -> & HI2); [|done|eauto].
    intros ????. apply Hf; [by right|done].
Qed.

Lemma mapState_mono f g l s r :
  (∀ a s r, a ∈ l → f a s = Some r → g a s = Some r) →
  mapState f l s = Some r → mapState g l s = Some r.
Proof.
  revert s r. induction l as [|a l IH]; intros s r Hfg H; simpl in *; [done|].
  destruct (f a s) as [[b s1]|] eqn:Ha; [|done].
  rewrite (Hfg a s (b, s1)); [|left|done].
  destruct (mapState f l s1) as [[bs1 s2]|] eqn:Hl; [|done].
  rewrite (IH s1 (bs1, s2)); [done| |done].
  intros ?????. apply Hfg; [by right|done].
Qed.

End mapState.

(** ** Termination of [attachChildren] *)

Lemma attachChildren_fuel_mono fuel fuel' conv tm parent s r :
  (fuel ≤ fuel')%nat →
  attachChildren fuel conv tm parent s = Some r →
  attachChildren fuel' conv tm parent s = Some r.
Proof.
  revert fuel' parent s r. induction fuel as [|fuel IH]; intros fuel' parent s r Hle H.
  { done. }
  destruct fuel' as [|fuel']; [lia|]. simpl in *.
  case_decide; [done|].
  destruct (filter _ conv) as [|c cs] eqn:Hfilter; [done|].
  destruct (mapState _ (c :: cs) _) as [[kids' s1]|] eqn:Hmap; [|done].
  apply (mapState_mono _
           (fun child => attachChildren fuel' conv tm
                           (copyOf (getCopy tm (Tweet.id child))))) in Hmap.
  - by rewrite Hmap.
  - intros a s0 r0 _ Ha. eapply IH; [lia|done].
Qed.

(** The set [processedIds] only grows. *)
Lemma attachChildren_grows fuel conv tm parent s n s' :
  attachChildren fuel conv tm parent s = Some (n, s') → s ⊆ s'.
Proof.
  revert parent s n s'. induction fuel as [|fuel IH]; intros parent s n s' H; [done|].
  simpl in H. case_decide; [by injection H as <- <-|].
  destruct (filter _ conv) as [|c cs] eqn:Hfilter.
  { injection H as <- <-. set_solver. }
  destruct (mapState _ (c :: cs) _) as [[kids' s1]|] eqn:Hmap; [|done].
  injection H as <- <-.
  eapply (mapState_inv (fun s0 => {[Tweet.id parent]} ∪ s ⊆ s0) (fun _ _ => True))
    in Hmap as [Hs _]; [set_solver| |done].
  intros a s0 b s0' _ Hs0 Ha. split; [|done].
  apply IH in Ha. set_solver.
Qed.

(** With more fuel than there are candidate ids left to visit, the call
    returns. *)
Lemma attachChildren_total (C : gset (option string)) fuel conv tm parent s :
  (∀ child, child ∈ conv → Tweet.id (copyOf (getCopy tm (Tweet.id child))) ∈ C) →
  Tweet.id parent ∈ C →
  (size (C ∖ s) < fuel)%nat →
  ∃ n s', attachChildren fuel conv tm parent s = Some (n, s').
Proof.
  intros HC. revert parent s.
  induction fuel as [|fuel IH]; intros parent s Hp Hsize; [lia|].
  simpl. case_decide as Hin; [eauto|].
  destruct (filter _ conv) as [|c cs] eqn:Hfilter; [eauto|].
  rewrite <- Hfilter.
  assert (size (C ∖ ({[Tweet.id parent]} ∪ s)) < size (C ∖ s))%nat as Hlt.
  { apply subset_size. set_solver. }
  destruct (mapState_is_Some (fun s0 => {[Tweet.id parent]} ∪ s ⊆ s0)
              (fun child => attachChildren fuel conv tm
                              (copyOf (getCopy tm (Tweet.id child))))
              (filter (fun t => Is_true (repliesTo (Tweet.id parent) t)) conv)
              ({[Tweet.id parent]} ∪ s))
    as (bs & s' & -> & _); [|done|eauto].
  intros a s0 [_ Ha]%list_elem_of_filter Hs0.
  destruct (IH (copyOf (getCopy tm (Tweet.id a))) s0) as (n & s1 & Hn); [by apply HC| |].
  - assert (size (C ∖ s0) ≤ size (C ∖ ({[Tweet.id parent]} ∪ s)))%nat.
    { apply subseteq_size. set_solver. }
    lia.
  - exists n, s1. split; [done|].
    apply attachChildren_grows in Hn. set_solver.
Qed.

(** ** The grouping loop *)

Lemma filter_none {A} (P : A → Prop) `{∀ x, Decision (P x)} (l : list A) :
  Forall (fun x => ¬ P x) l → filter P l = [].
Proof.
  induction 1 as [|x l Hx _ IH]; [done|].
  rewrite filter_cons. by rewrite decide_False.
Qed.

Lemma firstOccurrences_snoc l k :
  firstOccurrences (l ++ [k]) =
  if decide (k ∈ firstOccurrences l) then firstOccurrences l
  else firstOccurrences l ++ [k].
Proof. unfold firstOccurrences. by rewrite foldl_snoc. Qed.

Lemma elem_of_firstOccurrences l k : k ∈ firstOccurrences l ↔ k ∈ l.
Proof.
  induction l as [|x l IH] using rev_ind; [done|].
  rewrite firstOccurrences_snoc. case_decide; set_solver.
Qed.

Lemma NoDup_firstOccurrences l : NoDup (firstOccurrences l).
Proof.
  induction l as [|x l IH] using rev_ind; [constructor|].
  rewrite firstOccurrences_snoc. case_decide; [done|].
  apply NoDup_app. split_and!; [done|set_solver|apply NoDup_singleton].
Qed.

Lemma pushTo_absent k t (m : ConversationMap) :
  k ∉ m.*1 → pushTo k t m = m ++ [(k, [t])].
Proof.
  induction m as [|[k' ts] m IH]; intros Hk; simpl; [done|].
  case_decide; [set_solver|]. rewrite IH; [done|set_solver].
Qed.

Lemma pushTo_present k t (m : ConversationMap) :
  NoDup m.*1 → k ∈ m.*1 →
  pushTo k t m = (fun e => if decide (e.1 = k) then (e.1, e.2 ++ [t]) else e) <$> m.
Proof.
  induction m as [|[k' ts] m IH]; intros Hnd Hk; simpl; [set_solver|].
  apply NoDup_cons in Hnd as [Hk' Hnd]. simpl in *.
  case_decide as Heq.
  - subst k'. f_equal. symmetry. etrans; [|apply list_fmap_id].
    apply list_fmap_ext. intros i [k2 ts2] Hi. simpl.
    case_decide; [|done]. simplify_eq/=.
    exfalso. apply Hk'. apply list_elem_of_fmap. exists (k, ts2). split; [done|].
    by eapply list_elem_of_lookup_2.
  - f_equal. apply IH; [done|set_solver].
Qed.

Lemma convOf_truthy t k : convOf t = Some k → truthy k = true.
Proof.
  unfold convOf, or_undefined. destruct (Tweet.conversationId t) as [c|]; [|done].
  rewrite truthy_Some. destruct (truthy c) eqn:Hc; [|done]. by intros [= <-].
Qed.

Lemma groupStepConv_convOf st t :
  groupStepConv st t =
  match convOf t with
  | Some k => (pushTo k t st.1, st.2)
  | None => (st.1, st.2 ++ [t])
  end.
Proof.
  unfold groupStepConv, convOf, or_undefined.
  by destruct (Tweet.conversationId t) as [[|a c]|].
Qed.

(** The loop builds one entry per distinct key, in order of first
    occurrence, holding the records with that key in list order; the other
    records are collected in list order. *)
Lemma groupByConversation_spec tweets :
  groupByConversation tweets =
  ((fun k => (k, membersOf tweets k)) <$> firstOccurrences (omap convOf tweets),
   standaloneOf tweets).
Proof.
  unfold groupByConversation, membersOf, standaloneOf.
  induction tweets as [|t tweets IH] using rev_ind; [done|].
  rewrite foldl_snoc, IH, groupStepConv_convOf. simpl.
  rewrite omap_app, !filter_app. simpl.
  destruct (convOf t) as [k|] eqn:Hk; simpl.
  - rewrite firstOccurrences_snoc. f_equal.
    + case_decide as Hin.
      * rewrite pushTo_present.
        -- rewrite <- list_fmap_compose. apply list_fmap_ext. intros i k' _. simpl.
           rewrite filter_app. rewrite !filter_cons, !filter_nil.
           case_decide; subst.
           ++ rewrite decide_True by done. done.
           ++ rewrite decide_False by congruence. by rewrite app_nil_r.
        -- rewrite <- list_fmap_compose. simpl. rewrite list_fmap_id.
           apply NoDup_firstOccurrences.
        -- rewrite <- list_fmap_compose. simpl. by rewrite list_fmap_id.
      * rewrite pushTo_absent.
        -- rewrite fmap_app. simpl. f_equal.
           ++ apply list_fmap_ext. intros i k' Hi. simpl. f_equal.
              rewrite filter_app, !filter_cons, !filter_nil.
              rewrite decide_False; [by rewrite app_nil_r|].
              intros Hc. rewrite Hk in Hc. injection Hc as ->.
              apply Hin. by eapply list_elem_of_lookup_2.
           ++ f_equal. f_equal. rewrite filter_app, !filter_cons, !filter_nil.
              rewrite decide_True by done.
              rewrite (filter_none _ tweets); [done|].
              apply Forall_forall. intros t' Ht' Hc. apply Hin.
              apply elem_of_firstOccurrences, list_elem_of_omap. eauto.
        -- rewrite <- list_fmap_compose. simpl. by rewrite list_fmap_id.
    + rewrite filter_cons, filter_nil. rewrite decide_False by congruence.
      by rewrite app_nil_r.
  - rewrite app_nil_r. f_equal.
    + apply list_fmap_ext. intros i k' _. simpl. f_equal.
      rewrite filter_app, !filter_cons, !filter_nil.
      rewrite decide_False by congruence. by rewrite app_nil_r.
    + rewrite !filter_cons, !filter_nil. by rewrite decide_True.
Qed.

(** ** The map of copies *)

Lemma copyMap_snoc tweets t : copyMap (tweets ++ [t]) = setCopy (copyMap tweets) t.
Proof. unfold copyMap. by rewrite foldl_snoc. Qed.

(** [tweetMap.get(id)] is the copy of the last record carrying that id. *)
Lemma getCopy_copyMap tweets (oid : option string) :
  getCopy (copyMap tweets) oid =
  if truthy oid
  then (fun t => copyOf (Some t)) <$> last (filter (fun t => Tweet.id t = oid) tweets)
  else None.
Proof.
  destruct oid as [i|]; [|done]. simpl.
  induction tweets as [|t tweets IH] using rev_ind.
  { unfold copyMap. simpl. rewrite lookup_empty. by destruct (truthy (Some i)). }
  rewrite copyMap_snoc, filter_app, filter_cons, filter_nil. unfold setCopy.
  destruct (Tweet.id t) as [j|] eqn:Hj.
  - destruct (decide (j = i)) as [->|Hne].
    + rewrite decide_True by done. rewrite last_snoc.
      rewrite truthy_Some in *. destruct (truthy i) eqn:Hi.
      * by rewrite lookup_insert_eq.
      * by rewrite IH.
    + rewrite decide_False by congruence. rewrite app_nil_r.
      destruct (truthy j); [rewrite lookup_insert_ne by done|]; apply IH.
  - rewrite decide_False by congruence. rewrite app_nil_r. apply IH.
Qed.

Lemma getCopy_elem tweets oid c :
  getCopy (copyMap tweets) oid = Some c →
  ∃ t, t ∈ tweets ∧ Tweet.id t = oid ∧ c = copyOf (Some t).
Proof.
  rewrite getCopy_copyMap. destruct (truthy oid); [|done].
  destruct (last _) as [t|] eqn:Hlast; [|done]. intros [= <-].
  apply last_Some_elem_of, list_elem_of_filter in Hlast as [? ?]. eauto.
Qed.

Lemma filter_unique {A B} `{EqDecision B} (f : A → B) (l : list A) (x : A) :
  NoDup (f <$> l) → x ∈ l → filter (fun y => f y = f x) l = [x].
Proof.
  induction l as [|a l IH]; intros Hnd Hx; [by apply elem_of_nil in Hx|].
  rewrite fmap_cons in Hnd. apply NoDup_cons in Hnd as [Ha Hnd].
  rewrite filter_cons. apply elem_of_cons in Hx as [->|Hx].
  - rewrite decide_True by done. f_equal. apply filter_none, Forall_forall.
    intros y Hy Heq. apply Ha. rewrite <- Heq. by apply list_elem_of_fmap_2.
  - rewrite decide_False; [by apply IH|].
    intros Heq. apply Ha. rewrite Heq. by apply list_elem_of_fmap_2.
Qed.

(** With pairwise distinct ids, the copy found for a record of the list is
    the copy of that very record. *)
Lemma getCopy_unique tweets t :
  NoDup (Tweet.id <$> tweets) → t ∈ tweets → truthy (Tweet.id t) = true →
  getCopy (copyMap tweets) (Tweet.id t) = Some (copyOf (Some t)).
Proof.
  intros Hnd Ht Hid. rewrite getCopy_copyMap, Hid.
  by rewrite (filter_unique Tweet.id tweets t).
Qed.

(** The id of a copy is [undefined] or the id of a record of the list. *)
Lemma copy_id_candidates tweets oid :
  Tweet.id (copyOf (getCopy (copyMap tweets) oid))
  ∈ ({[None]} ∪ list_to_set (Tweet.id <$> tweets) : gset (option string)).
Proof.
  destruct (getCopy (copyMap tweets) oid) as [c|] eqn:Hc; [|set_solver].
  apply getCopy_elem in Hc as (t & Ht & <- & ->). simpl.
  apply elem_of_union_r, elem_of_list_to_set. by apply list_elem_of_fmap_2.
Qed.

Lemma size_list_to_set_le (l : list (option string)) :
  (size (list_to_set l : gset (option string)) ≤ length l)%nat.
Proof.
  induction l as [|x l IH]; [by rewrite list_to_set_nil, size_empty|].
  rewrite list_to_set_cons, size_union_alt, size_singleton, length_cons.
  assert (size (list_to_set l ∖ {[x]} : gset (option string))
          ≤ size (list_to_set l : gset (option string)))%nat.
  { apply subseteq_size. set_solver. }
  lia.
Qed.

(** ** Totality of the thread builder *)

Lemma buildConversation_total fuel tweets conv :
  conv ⊆ tweets → (length tweets + 2 ≤ fuel)%nat →
  is_Some (buildConversation fuel (copyMap tweets) conv).
Proof.
  intros Hsub Hfuel. unfold buildConversation.
  set (C := ({[None]} ∪ list_to_set (Tweet.id <$> tweets) : gset (option string))).
  assert (size C < fuel)%nat as HC.
  { subst C. pose proof (size_list_to_set_le (Tweet.id <$> tweets)) as Hle.
    rewrite length_fmap in Hle.
    pose proof (size_union_alt ({[None]} : gset (option string))
                  (list_to_set (Tweet.id <$> tweets))) as Halt.
    rewrite size_singleton in Halt.
    assert (size (list_to_set (Tweet.id <$> tweets) ∖ {[None]} : gset (option string))
            ≤ size (list_to_set (Tweet.id <$> tweets) : gset (option string)))%nat.
    { apply subseteq_size. set_solver. }
    lia. }
  destruct (mapState_is_Some (fun _ : gset (option string) => True)
              (fun rootTweet => attachChildren fuel conv (copyMap tweets)
                                  (copyOf (getCopy (copyMap tweets) (Tweet.id rootTweet))))
              (filter (fun t => Is_true (isRootIn (list_to_set (Tweet.id <$> conv)) t)) conv)
              ∅) as (bs & s' & -> & _); [|done|by eexists].
  intros a s _ _.
  destruct (attachChildren_total C fuel conv (copyMap tweets)
              (copyOf (getCopy (copyMap tweets) (Tweet.id a))) s) as (n & s1 & ->).
  - intros child _. apply copy_id_candidates.
  - apply copy_id_candidates.
  - assert (size (C ∖ s) ≤ size C)%nat by (apply subseteq_size; set_solver). lia.
  - eauto.
Qed.

Lemma membersOf_subseteq tweets k : membersOf tweets k ⊆ tweets.
Proof. intros t [_ ?]%list_elem_of_filter. done. Qed.

Lemma organize_fuel_total fuel tweets :
  (enoughFuel tweets ≤ fuel)%nat →
  is_Some (organizeTweetsIntoThreads_fuel fuel tweets).
Proof.
  intros Hfuel. unfold organizeTweetsIntoThreads_fuel, enoughFuel in *.
  rewrite groupByConversation_spec.
  destruct (mapM _ _) as [trees|] eqn:Hm; [by eexists|].
  exfalso. apply eq_None_not_Some in Hm. apply Hm.
  apply mapM_is_Some, Forall_forall.
  intros [k ts] (k' & [= -> ->] & _)%list_elem_of_fmap. simpl.
  apply buildConversation_total; [apply membersOf_subseteq|done].
Qed.

(** ** Shape of the trees *)

Lemma nodes_eq t : nodes t = t :: descendants t.
Proof. destruct t as [? ? ? ? ? ? ? ? ? ? ? ? ? ? ? ? ? ? ? ? ? ? [cs|] ?]; done. Qed.

Lemma descendants_leaf t : Tweet.children t = Some [] → descendants t = [].
Proof. unfold descendants, kids. by intros ->. Qed.

Lemma descendants_set_children cs p : descendants (set_children cs p) = cs ≫= nodes.
Proof. done. Qed.

Lemma copyOf_children x : Tweet.children (copyOf x) = Some [].
Proof. done. Qed.

Lemma shapeOf_isCopy conv tm child c :
  shapeOf conv tm (copyOf (getCopy tm (Tweet.id child))) c → isCopy tm child c.
Proof. intros [->|(cs & -> & _)]; [by exists []|by exists cs]. Qed.

Lemma attachChildren_shape fuel conv tm p s n s' :
  Tweet.children p = Some [] →
  attachChildren fuel conv tm p s = Some (n, s') →
  shapeOf conv tm p n ∧ Forall (builtFrom conv tm) (descendants n).
Proof.
  revert p s n s'. induction fuel as [|fuel IH]; intros p s n s' Hp H; [done|].
  simpl in H. case_decide.
  { injection H as <- <-. split; [by left|]. by rewrite descendants_leaf. }
  destruct (filter _ conv) as [|c cs] eqn:Hfilter.
  { injection H as <- <-. split; [by left|]. by rewrite descendants_leaf. }
  rewrite <- Hfilter in H.
  destruct (mapState _ _ _) as [[kids' s1]|] eqn:Hmap; [|done].
  injection H as <- <-.
  eapply (mapState_inv (fun _ => True)
            (fun child c => child ∈ conv
                            ∧ shapeOf conv tm (copyOf (getCopy tm (Tweet.id child))) c
                            ∧ Forall (builtFrom conv tm) (descendants c)))
    in Hmap as [_ HR]; [| |done].
  - split.
    + right. exists kids'. split; [done|].
      eapply Forall2_impl; [exact HR|]. intros child c0 (_ & Hs & _).
      by eapply shapeOf_isCopy.
    + rewrite descendants_set_children. apply Forall_bind.
      eapply Forall2_Forall_r; [exact HR|]. apply Forall_true.
      intros child c0 (Hin & Hs & Hd). unfold compose. rewrite nodes_eq.
      constructor; [by exists child|done].
  - intros a s0 b s0' [_ Ha]%list_elem_of_filter _ Hb.
    apply IH in Hb as [Hs Hd]; [|done]. done.
Qed.

Lemma buildConversation_shape fuel tm conv roots :
  buildConversation fuel tm conv = Some roots →
  Forall2 (fun r root => shapeOf conv tm (copyOf (getCopy tm (Tweet.id r))) root)
          (filter (fun t => Is_true (isRootIn (list_to_set (Tweet.id <$> conv)) t)) conv)
          roots
  ∧ Forall (builtFrom conv tm) (roots ≫= nodes).
Proof.
  unfold buildConversation. intros H.
  destruct (mapState _ _ _) as [[roots' s1]|] eqn:Hmap; [|done].
  injection H as <-.
  eapply (mapState_inv (fun _ => True)
            (fun child c => child ∈ conv
                            ∧ shapeOf conv tm (copyOf (getCopy tm (Tweet.id child))) c
                            ∧ Forall (builtFrom conv tm) (descendants c)))
    in Hmap as [_ HR]; [| |done].
  - split.
    + eapply Forall2_impl; [exact HR|]. by intros child c0 (_ & Hs & _).
    + apply Forall_bind.
      eapply Forall2_Forall_r; [exact HR|]. apply Forall_true.
      intros child c0 (Hin & Hs & Hd). unfold compose. rewrite nodes_eq.
      constructor; [by exists child|done].
  - intros a s0 b s0' [_ Ha]%list_elem_of_filter _ Hb.
    apply attachChildren_shape in Hb as [Hs Hd]; [|done]. done.
Qed.

(** ** The thread builder, group by group *)

Lemma buildConversation_enough tweets k fuel :
  (enoughFuel tweets ≤ fuel)%nat →
  buildConversation fuel (copyMap tweets) (membersOf tweets k)
  = Some (conversationTrees tweets k).
Proof.
  intros Hfuel. unfold conversationTrees.
  destruct (buildConversation_total (enoughFuel tweets) tweets (membersOf tweets k))
    as [roots Hroots]; [apply membersOf_subseteq|done|].
  rewrite Hroots. simpl. unfold buildConversation in *.
  destruct (mapState _ _ ∅) as [[roots' s1]|] eqn:Hmap; [|done].
  injection Hroots as <-.
  eapply mapState_mono in Hmap as ->; [done|].
  intros a s r _ Ha. simpl in Ha. eapply attachChildren_fuel_mono; [|exact Ha]. done.
Qed.

(** The forest: the trees of each conversation in order of first occurrence,
    then what the loop over the records without a conversation id pushes. *)
Lemma organize_fuel_eq fuel tweets :
  (enoughFuel tweets ≤ fuel)%nat →
  organizeTweetsIntoThreads_fuel fuel tweets =
  Some ((firstOccurrences (omap convOf tweets) ≫= conversationTrees tweets)
        ++ (standaloneOf tweets
              ≫= orphanRoots tweets (copyMap tweets) (groupByConversation tweets).1)).
Proof.
  intros Hfuel. unfold organizeTweetsIntoThreads_fuel.
  destruct (groupByConversation tweets) as [cm orphans] eqn:Hg.
  rewrite groupByConversation_spec in Hg. injection Hg as <- <-.
  erewrite (proj2 (mapM_Some _ _ (conversationTrees tweets <$> firstOccurrences (omap convOf tweets)))).
  - rewrite list_join_bind, list_fmap_bind. done.
  - apply Forall2_fmap. apply Forall_Forall2_diag, Forall_forall.
    intros k _. simpl. by apply buildConversation_enough.
Qed.

Lemma organize_eq tweets :
  organizeTweetsIntoThreads tweets =
  (firstOccurrences (omap convOf tweets) ≫= conversationTrees tweets)
  ++ (standaloneOf tweets
        ≫= orphanRoots tweets (copyMap tweets) (groupByConversation tweets).1).
Proof. unfold organizeTweetsIntoThreads. by rewrite organize_fuel_eq. Qed.

(** ** Records without a conversation id *)

Lemma jsfind_Some {A} (p : A → bool) (l : list A) (x : A) :
  jsfind p l = Some x → x ∈ l ∧ p x = true.
Proof.
  unfold jsfind. destruct (list_find _ l) as [[i y]|] eqn:H; [|done].
  intros [= <-]. apply list_find_Some in H as (Hi & Hp & _).
  split; [by eapply list_elem_of_lookup_2|by apply Is_true_true].
Qed.

Lemma convOf_None_falsy t : convOf t = None → truthy (Tweet.conversationId t) = false.
Proof.
  unfold convOf, or_undefined. destruct (Tweet.conversationId t) as [c|]; [|done].
  rewrite truthy_Some. by destruct (truthy c).
Qed.


Lemma organize_standalone (tweets : list Tweet.t) :
  (∀ t, t ∈ tweets → convOf t = None) →
  organizeTweetsIntoThreads tweets
  = (fun t => copyOf (getCopy (copyMap tweets) (Tweet.id t))) <$> tweets.
Proof.
  intros Hnone. rewrite organize_eq.
  assert (omap convOf tweets = []) as ->.
  { clear -Hnone. induction tweets as [|t tweets IH]; [done|]. simpl.
    rewrite (Hnone t) by left. apply IH. intros t' Ht'. apply Hnone. by right. }
  assert (standaloneOf tweets = tweets) as ->.
  { unfold standaloneOf. clear -Hnone. induction tweets as [|t tweets IH]; [done|].
    rewrite filter_cons, decide_True by (apply Hnone; left).
    f_equal. apply IH. intros t' Ht'. apply Hnone. by right. }
  simpl. generalize (groupByConversation tweets).1 as cm.
  generalize (copyMap tweets) as tm. intros tm cm.
  assert (∀ l, l ⊆ tweets →
            l ≫= orphanRoots tweets tm cm
            = (fun t => copyOf (getCopy tm (Tweet.id t))) <$> l) as Hl.
  { induction l as [|t l IH]; intros Hsub; [done|].
    rewrite bind_cons, fmap_cons, IH by set_solver.
    assert (orphanRoots tweets tm cm t = [copyOf (getCopy tm (Tweet.id t))]) as ->; [|done].
    unfold orphanRoots. case_match; [done|].
    destruct (jsfind _ tweets) as [parentTweet|] eqn:Hfind; [|done].
    apply jsfind_Some in Hfind as [Hin _].
    by rewrite (convOf_None_falsy _ (Hnone _ Hin)). }
  by apply Hl.
Qed.

(** ** C3: the standalone pseudo-group *)

(** C3, as stated, fails: a standalone reply to a standalone record is pushed
    as a root of its own, and its target gets no child. *)
Lemma standalone_reply_attached_counterexample :
  organizeTweetsIntoThreads [postS; postR]
  = [copyOf (Some postS); copyOf (Some postR)]
  ∧ ¬ attachedBelow (organizeTweetsIntoThreads [postS; postR]) postR postS.
Proof.
  split; [by vm_compute|].
  intros (n & c & Hn & _ & Hc & _). vm_compute in Hn.
  repeat (apply elem_of_cons in Hn as [->|Hn]); try (by apply elem_of_nil in Hn);
    vm_compute in Hc; by apply elem_of_nil in Hc.
Qed.

(** C3 (amended): the child-attachment rule is not applied to the records
    without a conversation id.  When no record of the input has a
    conversation id, the forest is one root per record, in input order, each
    with an empty [children] array; a reply is a root like any other, and no
    record hangs below another one. *)
Theorem standalone_records_are_roots (tweets : list Tweet.t) :
  (∀ t, t ∈ tweets → convOf t = None) →
  organizeTweetsIntoThreads tweets
  = (fun t => copyOf (getCopy (copyMap tweets) (Tweet.id t))) <$> tweets
  ∧ (∀ root, root ∈ organizeTweetsIntoThreads tweets → kids root = [])
  ∧ (∀ r s, ¬ attachedBelow (organizeTweetsIntoThreads tweets) r s).
Proof.
  intros Hnone. pose proof (organize_standalone tweets Hnone) as Heq.
  assert (∀ root, root ∈ organizeTweetsIntoThreads tweets → kids root = []) as Hkids.
  { intros root Hroot. rewrite Heq in Hroot.
    by apply list_elem_of_fmap in Hroot as (t & -> & _). }
  split_and!; [done|done|].
  intros r s (n & c & Hn & _ & Hc & _).
  apply list_elem_of_bind in Hn as (root & Hn & Hroot).
  pose proof (Hkids root Hroot) as Hleaf.
  rewrite nodes_eq in Hn. unfold descendants in Hn. rewrite Hleaf in Hn.
  apply list_elem_of_singleton in Hn as ->.
  rewrite Hleaf in Hc. by apply elem_of_nil in Hc.
Qed.

Lemma standalone_records_are_roots_witness :
  organizeTweetsIntoThreads [postS; postR]
  = (fun t => copyOf (getCopy (copyMap [postS; postR]) (Tweet.id t))) <$> [postS; postR]
  ∧ (∀ root, root ∈ organizeTweetsIntoThreads [postS; postR] → kids root = [])
  ∧ (∀ r s, ¬ attachedBelow (organizeTweetsIntoThreads [postS; postR]) r s).
Proof.
  apply standalone_records_are_roots.
  intros t Ht. repeat (apply elem_of_cons in Ht as [->|Ht]); try reflexivity.
  by apply elem_of_nil in Ht.
Defined.

(** ** C4: a reply without a conversation id whose target has one *)

(** C4 is violated by the code: for the input [postP; postR], where [postR]
    has no conversation id and replies to [postP] of conversation "c", the
    loop over the records without a conversation id finds the parent, finds
    its conversation, and pushes nothing.  The forest is the tree of [postP]
    alone, without children; no record with the id of [postR] is in it. *)
Theorem orphan_reply_vanishes :
  organizeTweetsIntoThreads [postP; postR] = [copyOf (Some postP)]
  ∧ Tweet.id postR ∉ Tweet.id <$> (organizeTweetsIntoThreads [postP; postR] ≫= nodes).
Proof.
  split; [by vm_compute|].
  vm_compute. intros H. apply elem_of_cons in H as [H|H]; [done|].
  by apply elem_of_nil in H.
Qed.

(** ** The run on arrays *)


Lemma mapM_id_Some {A} (l : list (option A)) (k : list A) :
  mapM id l = Some k ↔ l = Some <$> k.
Proof.
  rewrite mapM_Some. split.
  - intros H. induction H as [|x y l k Hxy _ IH]; [done|]. simpl in Hxy. by subst.
  - intros ->. induction k; by constructor.
Qed.





Lemma eachRecord_literal (l : list Raw.t) : eachRecord (Some <$> l) = Ok l.
Proof.
  unfold eachRecord. by rewrite (proj2 (mapM_id_Some (Some <$> l) l) eq_refl).
Qed.

Lemma mergeBatches_head_text rawTweets includesTweets repliedToTweets :
  firstSampleThrows (allTweets (mergeBatches rawTweets includesTweets repliedToTweets))
  = match rawTweets with
    | tweet :: _ => negb (bool_decide (is_Some (Raw.text tweet)))
    | [] => false
    end.
Proof.
  destruct (mergeBatches_spec rawTweets includesTweets repliedToTweets)
    as (Hm & Hi & Hr).
  unfold allTweets, firstSampleThrows.
  destruct rawTweets as [|tweet rawTweets].
  - rewrite fmap_nil in Hm. apply Forall2_nil_inv_l in Hm as ->. simpl.
    destruct Hi as [|raw t ? ? Ht _].
    + destruct Hr as [|raw t ? ? Ht _]; [done|]. simpl.
      apply produced_text in Ht. by rewrite bool_decide_eq_true_2.
    + simpl. apply produced_text in Ht. by rewrite bool_decide_eq_true_2.
  - rewrite fmap_cons in Hm. apply Forall2_cons_inv_l in Hm as (t & main' & Ht & _ & ->).
    simpl. by rewrite (regrouped_text _ _ Ht).
Qed.

(** ** C7: reply resolution by reference list *)

Lemma buildTweetMap_included_only raw5 raw4 i4 i5 :
  Raw.id raw4 = Some i4 → Raw.id raw5 = Some i5 → truthy i4 = true → i4 ≠ i5 →
  buildTweetMap [raw4] [] [raw5] !! i4 = Some raw4.
Proof.
  intros H4 H5 Ht Hne. unfold buildTweetMap. simpl.
  unfold setIfId at 1. rewrite H4, Ht.
  unfold setIfNew. rewrite H5. destruct (truthy i5).
  - rewrite lookup_insert_ne by done. rewrite lookup_empty.
    rewrite lookup_insert_ne by done. by rewrite lookup_insert_eq.
  - by rewrite lookup_insert_eq.
Qed.

#[local] Arguments createCleanRepliedToTweet : simpl never.

(** Step 2 of the resolver: no inline record, a reply reference without an
    embedded record whose id is in the lookup table. *)
Lemma resolveRepliedTo_by_reference tweetMap rawTweets tweet refs ref i raw :
  Raw.replied_to tweet = None → Raw.repliedTo tweet = None →
  Raw.referenced_tweets tweet ||| Raw.referencedTweets tweet = Some refs →
  jsfind isRepliedToRef refs = Some ref →
  Ref.id ref = Some i → truthy i = true → Ref.tweet ref = None →
  tweetMap !! i = Some raw →
  resolveRepliedTo tweetMap rawTweets tweet = createCleanRepliedToTweet (Some raw).
Proof.
  intros Hr1 Hr2 Hrefs Hfind Hid Hi Htweet Hlook.
  unfold resolveRepliedTo. rewrite Hr1, Hr2, Hrefs. simpl.
  rewrite Hfind, Htweet, Hid. simpl. rewrite Hlook, truthy_Some, Hi.
  assert (truthy (createCleanRepliedToTweet (Some raw)) = true) as -> by done.
  by rewrite andb_false_r.
Qed.

(** C7: when the primary batch is the single record "5", which embeds no
    reply target and whose references list has, as its first reply
    reference, an entry with id "4" and no embedded record, and the included
    batch is the single record "4", the merged set is the record "5" followed
    by the record "4".  The [repliedTo] of "5" is the snapshot of the raw
    record "4": it carries the id "4" and the text of that record, shows the
    same content as the entry "4" of the merged set, and has no linkage
    property.  The entry "4" has the provenance tag [includes]. *)
Theorem reply_resolved_by_reference_list (raw5 raw4 : Raw.t)
    (refs : list (Ref.t Raw.t)) (ref : Ref.t Raw.t) :
  Raw.id raw5 = Some "5" → Raw.id raw4 = Some "4" →
  is_Some (Raw.text raw5) →
  Raw.replied_to raw5 = None → Raw.repliedTo raw5 = None →
  Raw.referenced_tweets raw5 ||| Raw.referencedTweets raw5 = Some refs →
  jsfind isRepliedToRef refs = Some ref →
  Ref.id ref = Some "4" → Ref.tweet ref = None →
  ∃ t5 t4 s,
    fetchUserTweets (responseOf [raw5] [raw4]) = Ok [t5; t4]
    ∧ Tweet.id t5 = Some "5"
    ∧ Tweet.repliedTo t5 = Some s
    ∧ createCleanRepliedToTweet (Some raw4) = Some s
    ∧ Tweet.id s = Some "4"
    ∧ Tweet.text s = Some (jsor_default (Raw.text raw4 ||| Raw.full_text raw4) "")
    ∧ isSnapshot s
    ∧ sameDisplay s t4
    ∧ Tweet.id t4 = Some "4"
    ∧ Tweet._source t4 = Some includes.
Proof.
  intros H5 H4 Htext Hr1 Hr2 Hrefs Hfind Hrid Hrtweet.
  unfold fetchUserTweets, fetchUserTweets_merged, responseOf, arrayLiteral. simpl.
  rewrite mergeBatches_head_text, bool_decide_eq_true_2 by done. simpl.
  destruct (mergeBatches_spec [raw5] [raw4] []) as (Hm & Hi & Hr).
  destruct (mergeBatches [raw5] [raw4] []) as [main incl repl]. simpl in *.
  apply Forall2_cons_inv_l in Hm as (t5 & main' & Ht5 & ->%Forall2_nil_inv_l & ->).
  rewrite filter_nil in Hr. apply Forall2_nil_inv_l in Hr as ->.
  rewrite filter_cons in Hi. rewrite decide_True in Hi; last first.
  { apply Is_true_true. unfold isValid. rewrite H4. simpl.
    rewrite bool_decide_eq_false_2; [done|].
    unfold mainTweetIdsOf. rewrite elem_of_list_to_set. simpl. rewrite H5.
    intros Hin. apply list_elem_of_singleton in Hin. discriminate. }
  rewrite filter_nil in Hi.
  apply Forall2_cons_inv_l in Hi as (t4 & incl' & Ht4 & ->%Forall2_nil_inv_l & ->).
  destruct (createCleanRepliedToTweet (Some raw4)) as [s|] eqn:Hs; [|done].
  exists t5, t4, s. unfold allTweets. simpl. split_and!.
  - done.
  - by rewrite (regrouped_id _ _ Ht5).
  - rewrite <- Hs.
    rewrite <- (resolveRepliedTo_by_reference
                  (buildTweetMap [raw4] [] [raw5]) [raw5] raw5 refs ref "4" raw4);
      try done.
    + by destruct Ht5 as [->|[c ->]].
    + by apply (buildTweetMap_included_only raw5 raw4 "4" "5").
  - done.
  - injection Hs as <-. exact H4.
  - by injection Hs as <-.
  - by apply (createClean_isSnapshot (Some raw4)).
  - destruct Ht4 as (p & Hp & Hreg). injection Hs as <-.
    unfold processRawTweet in Hp. rewrite H4 in Hp. injection Hp as <-.
    destruct Hreg as [->|[c ->]]; by repeat split.
  - by rewrite (produced_id _ _ _ Ht4).
  - by eapply produced_source.
Qed.

Lemma reply_resolved_by_reference_list_witness :
  ∃ t5 t4 s,
    fetchUserTweets (responseOf [raw5] [raw4]) = Ok [t5; t4]
    ∧ Tweet.repliedTo t5 = Some s
    ∧ Tweet.id s = Some "4" ∧ Tweet.text s = Some "four"
    ∧ Tweet.createdAt s = Some "2004"
    ∧ Tweet.id t4 = Some "4" ∧ Tweet.text t4 = Some "four"
    ∧ Tweet._source t4 = Some includes.
Proof.
  destruct (reply_resolved_by_reference_list raw5 raw4
              [Ref.mk (Some "replied_to") None (Some "4") None]
              (Ref.mk (Some "replied_to") None (Some "4") None)
              eq_refl eq_refl (ex_intro _ "five" eq_refl) eq_refl eq_refl eq_refl
              eq_refl eq_refl eq_refl)
    as (t5 & t4 & s & Hrun & _ & Hs & Hclean & Hid & Htext & _ & Hshow & Hid4 & Hsrc).
  exists t5, t4, s. split_and!; try done.
  - by injection Hclean as <-.
  - destruct Hshow as (_ & <- & _). exact Htext.
Defined.

(** In the rendered output of that scenario the records "4" and "5" are the
    two roots of the conversation group keyed "5". *)
Example reference_list_rendered :
  ∃ out,
    pipeline parseYear (responseOf [raw5] [raw4]) = Ok (Threads out)
    ∧ (fun e : string * list Tweet.t => (e.1, Tweet.id <$> e.2)) <$> conversations out
      = [("5", [Some "4"; Some "5"])]
    ∧ standalone out = [].
Proof. eexists. split; [by vm_compute|]. by vm_compute. Qed.

(** ** C9: batches of invalid shape *)




(** ** [sortBy] *)

Section sortBy.
Context {A : Type}.
Implicit Types (after : A → A → bool) (l : list A).

Lemma insertBy_Permutation after x l : insertBy after x l ≡ₚ x :: l.
Proof.
  induction l as [|y l IH]; simpl; [done|].
  case_match; [|done]. rewrite IH. apply perm_swap.
Qed.

Lemma sortBy_Permutation after l : sortBy after l ≡ₚ l.
Proof.
  induction l as [|x l IH]; simpl; [done|].
  rewrite insertBy_Permutation. by constructor.
Qed.

Lemma elem_of_sortBy after l x : x ∈ sortBy after l ↔ x ∈ l.
Proof. by rewrite sortBy_Permutation. Qed.

Variable key : A → Z.
#[local] Abbreviation byKey := (byKey key).

Lemma byKey_cons after x l : byKey after (x :: l) → byKey after l.
Proof. intros H a b Ha Hb. apply H; by right. Qed.

Lemma insertBy_split after x l :
  byKey after (x :: l) →
  ∃ l1 l2, l = l1 ++ l2 ∧ insertBy after x l = l1 ++ x :: l2
           ∧ Forall (fun y => key y < key x) l1
           ∧ (∀ y, head l2 = Some y → key x ≤ key y).
Proof.
  intros Hby. induction l as [|y l IH]; simpl.
  { exists [], []. split_and!; try done. }
  rewrite (Hby x y) by (repeat constructor). case_bool_decide as Hlt.
  - destruct IH as (l1 & l2 & -> & -> & Hl1 & Hl2).
    { intros a b Ha Hb. apply Hby; set_solver. }
    exists (y :: l1), l2. split_and!; try done. by constructor.
  - exists [], (y :: l). split_and!; try done.
    intros y' [= <-]. lia.
Qed.

Lemma insertBy_sorted after x l :
  byKey after (x :: l) →
  StronglySorted (fun a b => key a ≤ key b) l →
  StronglySorted (fun a b => key a ≤ key b) (insertBy after x l).
Proof.
  intros Hby Hs. destruct (insertBy_split after x l Hby) as (l1 & l2 & -> & -> & Hl1 & Hl2).
  apply StronglySorted_app_2.
  - intros a b Ha Hb. apply elem_of_cons in Hb as [->|Hb].
    + rewrite Forall_forall in Hl1. specialize (Hl1 a Ha). lia.
    + by apply (StronglySorted_app_1_elem_of (fun a b => key a ≤ key b) l1 l2).
  - by eapply StronglySorted_app_1_l.
  - apply StronglySorted_app_1_r in Hs as Hs2. constructor; [done|].
    destruct l2 as [|y l2]; [done|].
    specialize (Hl2 y eq_refl). apply StronglySorted_inv in Hs2 as [_ Hy].
    constructor; [done|]. eapply Forall_impl; [exact Hy|]. simpl. intros; lia.
Qed.

Lemma insertBy_filter after x l v :
  byKey after (x :: l) →
  filter (fun a => key a = v) (insertBy after x l) = filter (fun a => key a = v) (x :: l).
Proof.
  intros Hby. destruct (insertBy_split after x l Hby) as (l1 & l2 & -> & -> & Hl1 & _).
  rewrite !filter_app, !filter_cons, filter_app.
  case_decide as Hv; [|done].
  rewrite (filter_none _ l1); [done|].
  eapply Forall_impl; [exact Hl1|]. simpl. intros; lia.
Qed.

Lemma byKey_Permutation after l l' : l ≡ₚ l' → byKey after l → byKey after l'.
Proof. intros Hp H a b Ha Hb. apply H; by rewrite Hp. Qed.

Lemma sortBy_StableSorted after l : byKey after l → StableSorted key l (sortBy after l).
Proof.
  induction l as [|x l IH]; intros Hby.
  { split; [constructor|done]. }
  destruct (IH (byKey_cons _ _ _ Hby)) as [Hs Hf].
  assert (byKey after (x :: sortBy after l)) as Hby'.
  { eapply byKey_Permutation; [|exact Hby]. constructor. symmetry.
    apply sortBy_Permutation. }
  split; simpl.
  - by apply insertBy_sorted.
  - intros v. rewrite insertBy_filter by done. rewrite !filter_cons, Hf. done.
Qed.

(** Sorting a list that is already in order changes nothing. *)
Lemma sortBy_sorted_id after l :
  byKey after l → StronglySorted (fun a b => key a ≤ key b) l → sortBy after l = l.
Proof.
  induction l as [|x l IH]; intros Hby Hs; [done|]. simpl.
  apply StronglySorted_inv in Hs as [Hs Hx].
  rewrite IH; [|by eapply byKey_cons|done].
  destruct l as [|y l]; [done|]. simpl.
  rewrite (Hby x y) by (repeat constructor).
  apply Forall_cons in Hx as [Hxy _]. rewrite bool_decide_eq_false_2; [done|lia].
Qed.

End sortBy.

(** ** Time values *)

Section Times.
Variable parseDate : string → option Z.
#[local] Abbreviation time := (timeOf parseDate).
#[local] Abbreviation tweetTime := (tweetTime parseDate).

Lemma timeAfter_valid a b :
  is_Some (tweetTime a) → is_Some (tweetTime b) →
  timeAfter (tweetTime a) (tweetTime b) = bool_decide (time b < time a).
Proof.
  unfold timeOf. intros [x ->] [y ->]. simpl.
  destruct (Z.ltb_spec 0 (x - y)); symmetry;
    [apply bool_decide_eq_true_2|apply bool_decide_eq_false_2]; lia.
Qed.

Lemma timeBefore_valid a b :
  is_Some (tweetTime a) → is_Some (tweetTime b) →
  timeBefore (tweetTime a) (tweetTime b) = bool_decide (time a < time b).
Proof.
  unfold timeOf. intros [x ->] [y ->]. simpl.
  destruct (Z.ltb_spec x y); symmetry;
    [apply bool_decide_eq_true_2|apply bool_decide_eq_false_2]; lia.
Qed.

Lemma tweetTime_valid t : is_Some (tweetTime t) → tweetTime t = Some (time t).
Proof. unfold timeOf. by intros [x ->]. Qed.

Lemma byKey_tweets (l : list Tweet.t) :
  validDates parseDate l →
  byKey time (fun a b => timeAfter (tweetTime a) (tweetTime b)) l.
Proof. intros Hv a b Ha Hb. apply timeAfter_valid; by apply Hv. Qed.

Lemma sameRecord_time x c : sameRecord x c → time c = time x.
Proof. by intros [gs ->]. Qed.

Lemma sameRecord_tweetTime x c : sameRecord x c → tweetTime c = tweetTime x.
Proof. by intros [gs ->]. Qed.

Lemma sameRecord_id x c : sameRecord x c → Tweet.id c = Tweet.id x.
Proof. by intros [gs ->]. Qed.

(** The [reduce] of the group comparator finds the earliest time value. *)
Lemma oldestOf_time first rest :
  is_Some (tweetTime first) → validDates parseDate rest →
  is_Some (tweetTime (oldestOf parseDate first rest))
  ∧ time (oldestOf parseDate first rest) = minTime parseDate (first :: rest).
Proof.
  revert first. induction rest as [|t rest IH]; intros first Hf Hv; [done|].
  unfold oldestOf, minTime in *. simpl.
  assert (is_Some (tweetTime t)) as Ht by (apply Hv; left).
  assert (validDates parseDate rest) as Hv' by (intros ??; apply Hv; by right).
  rewrite timeBefore_valid by done. case_bool_decide as Hlt.
  - destruct (IH t Ht Hv') as [? ->]. split; [done|]. f_equal. lia.
  - destruct (IH first Hf Hv') as [? ->]. split; [done|]. f_equal. lia.
Qed.

Lemma foldl_min_le (z : Z) (l : list Z) :
  foldl Z.min z l ≤ z ∧ Forall (fun x => foldl Z.min z l ≤ x) l.
Proof.
  revert z. induction l as [|x l IH]; intros z; simpl; [done|].
  destruct (IH (Z.min z x)) as [H1 H2]. split; [lia|].
  constructor; [lia|done].
Qed.

Lemma foldl_min_attained (z : Z) (l : list Z) : foldl Z.min z l ∈ z :: l.
Proof.
  revert z. induction l as [|x l IH]; intros z; simpl; [left|].
  specialize (IH (Z.min z x)). apply elem_of_cons in IH as [->|IH].
  - destruct (Z.min_spec z x) as [[_ ->]|[_ ->]]; [left|right; left].
  - right. by right.
Qed.

(** [minTime] is the minimum of the time values of a non-empty list. *)
Lemma minTime_spec (l : list Tweet.t) :
  l ≠ [] →
  (∀ t, t ∈ l → minTime parseDate l ≤ time t)
  ∧ ∃ t, t ∈ l ∧ time t = minTime parseDate l.
Proof.
  destruct l as [|t rest]; [done|]. intros _. unfold minTime.
  destruct (foldl_min_le (time t) (time <$> rest)) as [H1 H2].
  split.
  - intros t' [->|Ht']%elem_of_cons; [done|].
    rewrite Forall_forall in H2. apply H2. by apply list_elem_of_fmap_2.
  - pose proof (foldl_min_attained (time t) (time <$> rest)) as Hin.
    apply elem_of_cons in Hin as [Heq|Hin].
    + exists t. split; [left|done].
    + apply list_elem_of_fmap in Hin as (t' & Heq & Ht'). exists t'. split; [by right|done].
Qed.

End Times.

(** ** The trees of one conversation when ids are distinct *)

Lemma distinctIds_sublist l l' : l `sublist_of` l' → distinctIds l' → distinctIds l.
Proof.
  intros Hsub [Hnd Ht]. split.
  - eapply sublist_NoDup; [exact Hnd|]. by apply fmap_sublist.
  - intros t Hin. apply Ht. by eapply elem_of_sublist.
Qed.

Lemma distinctIds_Permutation l l' : l ≡ₚ l' → distinctIds l → distinctIds l'.
Proof.
  intros Hp [Hnd Ht]. split.
  - by rewrite <- Hp.
  - intros t Hin. apply Ht. by rewrite Hp.
Qed.

Lemma Forall2_impl_elem {A B} (P Q : A → B → Prop) (l : list A) (k : list B) :
  Forall2 P l k → (∀ x y, x ∈ l → P x y → Q x y) → Forall2 Q l k.
Proof.
  induction 1 as [|x y l k Hxy _ IH]; intros HPQ; constructor.
  - apply HPQ; [left|done].
  - apply IH. intros ????. apply HPQ; [by right|done].
Qed.

Lemma isCopy_sameRecord X x c :
  distinctIds X → x ∈ X → isCopy (copyMap X) x c → sameRecord x c.
Proof.
  intros [Hnd Ht] Hx [gs ->]. rewrite getCopy_unique; [|done|done|by apply Ht].
  by exists gs.
Qed.

Lemma shapeOf_sameRecord X r n :
  distinctIds X → r ∈ X →
  shapeOf X (copyMap X) (copyOf (getCopy (copyMap X) (Tweet.id r))) n →
  sameRecord r n.
Proof.
  intros HX Hr Hs. eapply isCopy_sameRecord; [done|done|].
  by eapply shapeOf_isCopy.
Qed.

Lemma Forall2_isCopy_sameRecord X L cs :
  distinctIds X → L ⊆ X →
  Forall2 (isCopy (copyMap X)) L cs → Forall2 sameRecord L cs.
Proof.
  intros HX Hsub H. induction H as [|x c L cs Hxc _ IH]; constructor.
  - eapply isCopy_sameRecord; [done| |done]. apply Hsub. left.
  - apply IH. intros y Hy. apply Hsub. by right.
Qed.

(** The children of a record of a tree are copies of a sub-sequence of the
    conversation. *)
Lemma builtFrom_kids X n :
  distinctIds X → builtFrom X (copyMap X) n → orderedWithin X (kids n).
Proof.
  intros HX (child & Hchild & [->|(cs & -> & Hcs)]).
  - exists []. split; [apply sublist_nil_l|constructor].
  - exists (filter (fun t => Is_true (repliesTo
              (Tweet.id (copyOf (getCopy (copyMap X) (Tweet.id child)))) t)) X).
    split; [apply sublist_filter|].
    eapply Forall2_isCopy_sameRecord; [done| |exact Hcs].
    intros y [_ Hy]%list_elem_of_filter. done.
Qed.

Lemma builtFrom_sameRecord X n :
  distinctIds X → builtFrom X (copyMap X) n → ∃ x, x ∈ X ∧ sameRecord x n.
Proof.
  intros HX (child & Hchild & Hs). exists child. split; [done|].
  by eapply shapeOf_sameRecord.
Qed.

Lemma buildConversation_ordered fuel X roots :
  distinctIds X →
  buildConversation fuel (copyMap X) X = Some roots →
  orderedWithin X roots
  ∧ ∀ n, n ∈ roots ≫= nodes → orderedWithin X (kids n) ∧ ∃ x, x ∈ X ∧ sameRecord x n.
Proof.
  intros HX [Hroots Hnodes]%buildConversation_shape. split.
  - exists (filter (fun t => Is_true (isRootIn (list_to_set (Tweet.id <$> X)) t)) X).
    split; [apply sublist_filter|].
    eapply Forall2_impl_elem; [exact Hroots|].
    intros r root [_ Hr]%list_elem_of_filter Hs. by eapply shapeOf_sameRecord.
  - intros n Hn. rewrite Forall_forall in Hnodes. specialize (Hnodes n Hn).
    split; [by apply builtFrom_kids|by apply builtFrom_sameRecord].
Qed.

(** ** A list of records of one conversation *)

Lemma firstOccurrences_constant (k : string) (l : list string) :
  Forall (eq k) l → l ≠ [] → firstOccurrences l = [k].
Proof.
  induction l as [|x l IH] using rev_ind; [done|]. intros Hall _.
  apply Forall_app in Hall as [Hl Hx]. apply Forall_singleton in Hx as <-.
  rewrite firstOccurrences_snoc. destruct l as [|y l].
  - done.
  - rewrite IH by done. rewrite decide_True; [done|left].
Qed.

Lemma organize_one_conversation X k :
  (∀ t, t ∈ X → convOf t = Some k) → X ≠ [] →
  organizeTweetsIntoThreads X
  = default [] (buildConversation (enoughFuel X) (copyMap X) X).
Proof.
  intros Hk Hne. rewrite organize_eq.
  assert (omap convOf X = (fun _ => k) <$> X) as Homap.
  { clear Hne. induction X as [|t X IH]; [done|]. simpl.
    rewrite (Hk t) by left. simpl. f_equal. apply IH. intros ??. apply Hk. by right. }
  rewrite Homap, (firstOccurrences_constant k); last first.
  { by destruct X. }
  { apply Forall_fmap, Forall_true. done. }
  assert (standaloneOf X = []) as ->.
  { apply filter_none, Forall_forall. intros t Ht. rewrite (Hk t Ht). done. }
  assert (membersOf X k = X) as Hm.
  { unfold membersOf. clear -Hk. induction X as [|t X IH]; [done|].
    rewrite filter_cons, decide_True by (apply Hk; left).
    f_equal. apply IH. intros ??. apply Hk. by right. }
  simpl. rewrite !app_nil_r. unfold conversationTrees. by rewrite Hm.
Qed.

(** ** Order of the rendered output *)

Lemma StronglySorted_sublist {A} (R : relation A) (l l' : list A) :
  l `sublist_of` l' → StronglySorted R l' → StronglySorted R l.
Proof.
  induction 1 as [|x l l' Hsub IH|x l l' Hsub IH]; intros Hs; [done| |].
  - apply StronglySorted_inv in Hs as [Hs Hx]. constructor; [by apply IH|].
    eapply Forall_forall. intros y Hy. rewrite Forall_forall in Hx. apply Hx.
    by eapply elem_of_sublist.
  - apply StronglySorted_inv in Hs as [Hs _]. by apply IH.
Qed.

Lemma StronglySorted_fmap_inv {A B} (f : A → B) (R : relation B) (l : list A) :
  StronglySorted R (f <$> l) → StronglySorted (fun x y => R (f x) (f y)) l.
Proof.
  induction l as [|x l IH]; intros Hs; [constructor|].
  rewrite fmap_cons in Hs. apply StronglySorted_inv in Hs as [Hs Hx].
  constructor; [by apply IH|]. rewrite Forall_fmap in Hx.
  eapply Forall_impl; [exact Hx|]. done.
Qed.

Lemma filter_fmap {A B} (f : A → B) (P : B → Prop) `{∀ y, Decision (P y)}
    (l : list A) :
  filter P (f <$> l) = f <$> filter (fun x => P (f x)) l.
Proof.
  induction l as [|x l IH]; [done|].
  rewrite fmap_cons, !filter_cons, IH. by case_decide.
Qed.

Section Order.
Variable parseDate : string → option Z.
#[local] Abbreviation time := (timeOf parseDate).
#[local] Abbreviation tweetTime := (tweetTime parseDate).
#[local] Abbreviation byTime :=
  (fun a b : Tweet.t => timeAfter (tweetTime a) (tweetTime b)).

Lemma copies_time L cs : Forall2 sameRecord L cs → time <$> cs = time <$> L.
Proof. induction 1; simpl; f_equal; eauto using sameRecord_time. Qed.

Lemma ascending_fmap l : ascending parseDate l ↔ StronglySorted Z.le (time <$> l).
Proof.
  split.
  - intros Hs. by eapply StronglySorted_fmap; [|exact Hs].
  - apply StronglySorted_fmap_inv.
Qed.

Lemma orderedWithin_ascending S cs :
  ascending parseDate S → orderedWithin S cs → ascending parseDate cs.
Proof.
  intros HS (L & Hsub & Hcs). apply ascending_fmap.
  rewrite (copies_time _ _ Hcs). apply ascending_fmap.
  by eapply StronglySorted_sublist.
Qed.

Lemma orderedWithin_valid S cs :
  validDates parseDate S → orderedWithin S cs → validDates parseDate cs.
Proof.
  intros HS (L & Hsub & Hcs) c Hc.
  apply list_elem_of_lookup in Hc as [i Hi].
  destruct (Forall2_lookup_r _ _ _ _ _ Hcs Hi) as (x & Hx & Hxc).
  rewrite (sameRecord_tweetTime _ _ _ Hxc). apply HS.
  eapply elem_of_sublist; [|done]. by eapply list_elem_of_lookup_2.
Qed.

Lemma validDates_Permutation l l' :
  l ≡ₚ l' → validDates parseDate l → validDates parseDate l'.
Proof. intros Hp H t Ht. apply H. by rewrite Hp. Qed.

Lemma validDates_subseteq l l' :
  l ⊆ l' → validDates parseDate l' → validDates parseDate l.
Proof. intros Hsub H t Ht. apply H. by apply Hsub. Qed.

(** One conversation group: the records are sorted, the trees are built, the
    roots are sorted. *)
Lemma renderConversation_ordered k ms :
  ms ≠ [] → (∀ t, t ∈ ms → convOf t = Some k) →
  distinctIds ms → validDates parseDate ms →
  (renderConversation parseDate (k, ms)).1 = k
  ∧ orderedForest parseDate ms (renderConversation parseDate (k, ms)).2.
Proof.
  intros Hne Hk Hd Hv. unfold renderConversation. simpl. split; [done|].
  set (S := sortBy byTime ms).
  pose proof (sortBy_StableSorted time byTime ms (byKey_tweets parseDate ms Hv)) as HSS.
  pose proof (sortBy_Permutation byTime ms) as Hperm. fold S in HSS, Hperm.
  assert (distinctIds S) as HdS by (eapply distinctIds_Permutation; [symmetry|]; done).
  assert (validDates parseDate S) as HvS
    by (eapply validDates_Permutation; [symmetry|]; done).
  assert (∀ t, t ∈ S → convOf t = Some k) as HkS.
  { intros t Ht. apply Hk. by rewrite <- Hperm. }
  assert (S ≠ []) as HneS.
  { intros HS. rewrite HS in Hperm. by apply Permutation_nil_l in Hperm. }
  rewrite (organize_one_conversation S k HkS HneS).
  destruct (buildConversation_total (enoughFuel S) S S) as [roots0 Hroots0];
    [done|unfold enoughFuel; lia|].
  rewrite Hroots0. simpl.
  destruct (buildConversation_ordered _ S roots0 HdS Hroots0) as [Hr Hn].
  assert (ascending parseDate roots0) as Hasc.
  { eapply orderedWithin_ascending; [|exact Hr]. apply HSS. }
  rewrite (sortBy_sorted_id time); [| |exact Hasc]; last first.
  { apply byKey_tweets. by eapply orderedWithin_valid. }
  exists S. split_and!; try done.
  intros n Hn'. destruct (Hn n Hn') as [Hkids _]. split; [done|].
  eapply orderedWithin_ascending; [|exact Hkids]. apply HSS.
Qed.

Lemma standaloneOf_convOf tweets t : t ∈ standaloneOf tweets → convOf t = None.
Proof. by intros [? _]%list_elem_of_filter. Qed.

Lemma standaloneOf_sublist tweets : standaloneOf tweets `sublist_of` tweets.
Proof. apply sublist_filter. Qed.

Lemma membersOf_sublist tweets k : membersOf tweets k `sublist_of` tweets.
Proof. apply sublist_filter. Qed.

(** The records without a conversation id: sorted, one childless root each,
    sorted again. *)
Lemma standalone_ordered tweets :
  distinctIds tweets → validDates parseDate tweets →
  orderedForest parseDate (standaloneOf tweets)
                (standalone (renderThreads parseDate tweets)).
Proof.
  intros Hd Hv. unfold renderThreads. rewrite groupByConversation_spec. simpl.
  set (S := sortBy byTime (standaloneOf tweets)).
  assert (validDates parseDate (standaloneOf tweets)) as Hv0.
  { eapply validDates_subseteq; [|exact Hv]. apply sublist_subseteq, standaloneOf_sublist. }
  pose proof (sortBy_StableSorted time byTime _ (byKey_tweets parseDate _ Hv0)) as HSS.
  pose proof (sortBy_Permutation byTime (standaloneOf tweets)) as Hperm.
  fold S in HSS, Hperm.
  assert (distinctIds S) as HdS.
  { eapply distinctIds_Permutation; [symmetry; exact Hperm|].
    eapply distinctIds_sublist; [apply standaloneOf_sublist|done]. }
  assert (validDates parseDate S) as HvS
    by (eapply validDates_Permutation; [symmetry|]; done).
  rewrite organize_standalone; last first.
  { intros t Ht. rewrite Hperm in Ht. by eapply standaloneOf_convOf. }
  assert (Forall2 sameRecord S
            ((fun t => copyOf (getCopy (copyMap S) (Tweet.id t))) <$> S)) as Hcopies.
  { apply Forall2_fmap_r, Forall_Forall2_diag, Forall_forall. intros t Ht.
    destruct HdS as [Hnd Hid]. unfold compose.
    rewrite getCopy_unique; [|done|done|by apply Hid].
    by exists []. }
  assert (orderedWithin S ((fun t => copyOf (getCopy (copyMap S) (Tweet.id t))) <$> S))
    as Hord by (exists S; done).
  assert (ascending parseDate ((fun t => copyOf (getCopy (copyMap S) (Tweet.id t))) <$> S))
    as Hasc.
  { eapply orderedWithin_ascending; [|exact Hord]. apply HSS. }
  rewrite (sortBy_sorted_id time); [| |exact Hasc]; last first.
  { apply byKey_tweets. by eapply orderedWithin_valid. }
  exists S. split_and!; try done.
  intros n Hn. apply list_elem_of_bind in Hn as (root & Hn & Hroot).
  apply list_elem_of_fmap in Hroot as (t & -> & Ht).
  rewrite nodes_eq, descendants_leaf in Hn by done.
  apply list_elem_of_singleton in Hn as ->. simpl.
  split; [exists []; split; [apply sublist_nil_l|constructor]|constructor].
Qed.

(** The comparator of the groups compares the earliest time values. *)
Lemma byKey_groups tweets (keys : list string) :
  validDates parseDate tweets →
  (∀ k, k ∈ keys → membersOf tweets k ≠ []) →
  byKey (fun e : string * list Tweet.t => minTime parseDate e.2)
        (fun a b => timeAfter (groupTime parseDate a) (groupTime parseDate b))
        ((fun k => (k, membersOf tweets k)) <$> keys).
Proof.
  intros Hv Hne a b Ha Hb.
  assert (∀ e, e ∈ (fun k => (k, membersOf tweets k)) <$> keys →
               groupTime parseDate e = Some (minTime parseDate e.2)) as Hg.
  { intros e (k & -> & Hk)%list_elem_of_fmap. unfold groupTime. simpl.
    specialize (Hne k Hk).
    assert (validDates parseDate (membersOf tweets k)) as Hvk.
    { eapply validDates_subseteq; [apply membersOf_subseteq|done]. }
    destruct (membersOf tweets k) as [|first rest]; [done|].
    destruct (oldestOf_time parseDate first rest) as [Hsome Heq].
    - apply Hvk. left.
    - intros t Ht. apply Hvk. by right.
    - rewrite (tweetTime_valid _ _ Hsome). by rewrite Heq. }
  rewrite (Hg a Ha), (Hg b Hb). simpl.
  destruct (Z.ltb_spec 0 (minTime parseDate a.2 - minTime parseDate b.2)); symmetry;
    [apply bool_decide_eq_true_2|apply bool_decide_eq_false_2]; lia.
Qed.

Lemma membersOf_nonempty tweets k :
  k ∈ firstOccurrences (omap convOf tweets) → membersOf tweets k ≠ [].
Proof.
  intros (t & Ht & Hk)%elem_of_firstOccurrences%list_elem_of_omap Hnil.
  assert (t ∈ membersOf tweets k) as Hin by (by apply list_elem_of_filter).
  rewrite Hnil in Hin. by apply elem_of_nil in Hin.
Qed.

(** The conversation groups: their keys are sorted by the earliest time value
    of the group, keys of equal time in order of first occurrence. *)
Lemma groups_ordered tweets :
  validDates parseDate tweets →
  StableSorted (fun k => minTime parseDate (membersOf tweets k))
               (firstOccurrences (omap convOf tweets))
               (conversations (renderThreads parseDate tweets)).*1.
Proof.
  intros Hv. unfold renderThreads. rewrite groupByConversation_spec. simpl.
  set (keys := firstOccurrences (omap convOf tweets)).
  set (g := fun k : string => (k, membersOf tweets k)).
  set (afterG := fun a b => timeAfter (groupTime parseDate a) (groupTime parseDate b)).
  pose proof (sortBy_StableSorted (fun e : string * list Tweet.t => minTime parseDate e.2)
                afterG (g <$> keys)
                (byKey_groups tweets keys Hv (membersOf_nonempty tweets))) as [Hs Hf].
  pose proof (sortBy_Permutation afterG (g <$> keys)) as Hperm.
  set (E := sortBy afterG (g <$> keys)) in *.
  rewrite <- list_fmap_compose.
  assert ((fst ∘ renderConversation parseDate) <$> E = E.*1) as ->.
  { by apply list_fmap_ext. }
  assert (g <$> E.*1 = E) as HE.
  { rewrite <- list_fmap_compose. etrans; [|apply list_fmap_id].
    apply list_fmap_ext. intros i e Hi. simpl.
    apply list_elem_of_lookup_2 in Hi. rewrite Hperm in Hi.
    by apply list_elem_of_fmap in Hi as (k & -> & _). }
  split.
  - rewrite <- HE in Hs. by apply StronglySorted_fmap_inv in Hs.
  - intros v. specialize (Hf v). rewrite <- HE in Hf.
    rewrite !filter_fmap in Hf. simpl in Hf.
    apply (f_equal (fmap fst)) in Hf. rewrite <- !list_fmap_compose in Hf.
    rewrite filter_fmap. etrans; [|etrans; [exact Hf|]].
    + by apply list_fmap_ext.
    + etrans; [|apply list_fmap_id]. by apply list_fmap_ext.
Qed.

End Order.

(** ** C8: order of the composed output *)

(** C8, as stated, fails: when two records of a conversation carry the same
    id, the copies attached as children are both taken from the later one,
    and the children are no longer ascending in time.  Here the children of
    the root "r" are dated 2003, 2002, 2003. *)
Lemma render_order_counterexample :
  ∃ root,
    conversations (renderThreads parseYear repeatedIdConversation) = [("c", [root])]
    ∧ Tweet.createdAt <$> kids root = [Some "2003"; Some "2002"; Some "2003"]
    ∧ ¬ ascending parseYear (kids root).
Proof.
  eexists. split; [by vm_compute|]. split; [by vm_compute|].
  intros H. apply StronglySorted_inv in H as [_ H].
  apply Forall_cons in H as [H _]. vm_compute in H. by apply H.
Qed.

(** C8 (amended): provided every record has a valid date and the records
    have pairwise distinct, non-empty ids, the composed output is ordered:
    the conversation groups are sorted by the earliest time value among their
    member records, groups of equal time in order of first occurrence; within
    each group the root trees, and the children of every record, are
    ascending in time and follow a stable sort of the group's records; the
    standalone root trees, rendered after all groups, are ascending in time
    and follow a stable sort of the records without a conversation id.  The
    composed output is [renderThreads], which is what [renderResults] shows
    whenever it composes threads ([renderResults_Threads]). *)
Theorem render_order (parseDate : string → option Z) (tweets : list Tweet.t) :
  validDates parseDate tweets → distinctIds tweets →
  StableSorted (fun k => minTime parseDate (membersOf tweets k))
               (firstOccurrences (omap convOf tweets))
               (conversations (renderThreads parseDate tweets)).*1
  ∧ (∀ k roots, (k, roots) ∈ conversations (renderThreads parseDate tweets) →
                orderedForest parseDate (membersOf tweets k) roots)
  ∧ orderedForest parseDate (standaloneOf tweets)
                  (standalone (renderThreads parseDate tweets)).
Proof.
  intros Hv Hd. split_and!.
  - by apply groups_ordered.
  - intros k roots Hin. unfold renderThreads in Hin.
    rewrite groupByConversation_spec in Hin. simpl in Hin.
    apply list_elem_of_fmap in Hin as (e & Heq & He).
    apply elem_of_sortBy, list_elem_of_fmap in He as (k' & -> & Hk').
    destruct (renderConversation_ordered parseDate k' (membersOf tweets k'))
      as [Hfst Hforest].
    + by apply membersOf_nonempty.
    + by intros t [? _]%list_elem_of_filter.
    + eapply distinctIds_sublist; [apply membersOf_sublist|done].
    + eapply validDates_subseteq; [apply membersOf_subseteq|done].
    + rewrite <- Heq in Hfst, Hforest. simpl in Hfst. by subst k'.
  - by apply standalone_ordered.
Qed.

Lemma render_order_witness :
  StableSorted (fun k => minTime parseYear (membersOf smallTimeline k))
               (firstOccurrences (omap convOf smallTimeline))
               (conversations (renderThreads parseYear smallTimeline)).*1
  ∧ (∀ k roots, (k, roots) ∈ conversations (renderThreads parseYear smallTimeline) →
                orderedForest parseYear (membersOf smallTimeline k) roots)
  ∧ orderedForest parseYear (standaloneOf smallTimeline)
                  (standalone (renderThreads parseYear smallTimeline)).
Proof.
  apply render_order.
  - intros t Ht. repeat (apply elem_of_cons in Ht as [->|Ht]); try (by eexists).
    by apply elem_of_nil in Ht.
  - split.
    + apply (bool_decide_unpack _). by vm_compute.
    + intros t Ht. repeat (apply elem_of_cons in Ht as [->|Ht]); try reflexivity.
      by apply elem_of_nil in Ht.
Defined.

(** ** Where the records of a forest come from *)

Lemma copy_origin X oid gs :
  ∃ x, (x = emptyTweet ∨ x ∈ X)
       ∧ set_children gs (copyOf (getCopy (copyMap X) oid)) = set_children gs x.
Proof.
  destruct (getCopy (copyMap X) oid) as [c|] eqn:Hc.
  - apply getCopy_elem in Hc as (t & Ht & _ & ->). exists t. split; [by right|done].
  - exists emptyTweet. split; [by left|done].
Qed.

Lemma orphanRoots_origin X tm cm t root :
  root ∈ orphanRoots X tm cm t → root = copyOf (getCopy tm (Tweet.id t)).
Proof.
  unfold orphanRoots. repeat case_match;
    intros Hin; try (by apply elem_of_nil in Hin);
    by apply list_elem_of_singleton in Hin.
Qed.

(** Every record of the forest is a record of the input, or the empty
    object, with a [children] array. *)
Lemma organize_nodes_origin X n :
  n ∈ organizeTweetsIntoThreads X ≫= nodes →
  ∃ x gs, (x = emptyTweet ∨ x ∈ X) ∧ n = set_children gs x.
Proof.
  rewrite organize_eq, bind_app. intros [Hn|Hn]%elem_of_app.
  - apply list_elem_of_bind in Hn as (root & Hn & Hroot).
    apply list_elem_of_bind in Hroot as (k & Hroot & _).
    unfold conversationTrees in Hroot.
    destruct (buildConversation _ _ _) as [roots|] eqn:Hb; [|by apply elem_of_nil in Hroot].
    apply buildConversation_shape in Hb as [_ Hnodes]. simpl in Hroot.
    rewrite Forall_forall in Hnodes.
    destruct (Hnodes n) as (child & Hchild & Hs).
    { apply list_elem_of_bind. eauto. }
    apply shapeOf_isCopy in Hs as [gs ->].
    destruct (copy_origin X (Tweet.id child) gs) as (x & Hx & ->). eauto.
  - apply list_elem_of_bind in Hn as (root & Hn & Hroot).
    apply list_elem_of_bind in Hroot as (t & Hroot & _).
    apply orphanRoots_origin in Hroot as ->.
    rewrite nodes_eq, descendants_leaf in Hn by done.
    apply list_elem_of_singleton in Hn as ->.
    destruct (copy_origin X (Tweet.id t) []) as (x & Hx & Heq). exists x, [].
    split; [done|]. exact Heq.
Qed.

Lemma render_nodes_origin parseDate tweets n :
  n ∈ renderedNodes (renderThreads parseDate tweets) →
  ∃ x gs, (x = emptyTweet ∨ x ∈ tweets) ∧ n = set_children gs x.
Proof.
  unfold renderedNodes, renderThreads. rewrite groupByConversation_spec. simpl.
  intros [Hn|Hn]%elem_of_app.
  - apply list_elem_of_bind in Hn as (e & Hn & He).
    apply list_elem_of_fmap in He as (e0 & -> & He0).
    apply elem_of_sortBy, list_elem_of_fmap in He0 as (k & -> & _).
    unfold renderConversation in Hn. simpl in Hn.
    apply list_elem_of_bind in Hn as (root & Hn & Hroot).
    apply elem_of_sortBy in Hroot.
    assert (n ∈ organizeTweetsIntoThreads
                  (sortBy (fun a b => timeAfter (tweetTime parseDate a)
                                                (tweetTime parseDate b))
                          (membersOf tweets k)) ≫= nodes) as Hin.
    { apply list_elem_of_bind. eauto. }
    apply organize_nodes_origin in Hin as (x & gs & Hx & ->).
    exists x, gs. split; [|done]. destruct Hx as [->|Hx]; [by left|right].
    apply elem_of_sortBy in Hx. by apply membersOf_subseteq in Hx.
  - apply list_elem_of_bind in Hn as (root & Hn & Hroot).
    apply elem_of_sortBy in Hroot.
    assert (n ∈ organizeTweetsIntoThreads
                  (sortBy (fun a b => timeAfter (tweetTime parseDate a)
                                                (tweetTime parseDate b))
                          (standaloneOf tweets)) ≫= nodes) as Hin.
    { apply list_elem_of_bind. eauto. }
    apply organize_nodes_origin in Hin as (x & gs & Hx & ->).
    exists x, gs. split; [|done]. destruct Hx as [->|Hx]; [by left|right].
    apply elem_of_sortBy in Hx. by apply list_elem_of_filter in Hx as [_ ?].
Qed.

Lemma fetchUserTweets_Ok r all :
  fetchUserTweets r = Ok all →
  ∃ rawTweets includesTweets repliedToTweets,
    all = allTweets (mergeBatches rawTweets includesTweets repliedToTweets).
Proof.
  unfold fetchUserTweets, fetchUserTweets_merged. destruct r as [r|]; [|done].
  fold (primaryOf r) (includedOf r) (repliedOf r).
  destruct (asArray (batch_or (includedOf r) _)) as [incl|]; simpl; [|done].
  destruct (asArray (batch_or (repliedOf r) _)) as [repl|]; simpl; [|done].
  destruct (asArray (batch_or (primaryOf r) _)) as [raw|]; simpl; [|done].
  destruct (eachRecord raw) as [raw'|]; simpl; [|done].
  case_match; [done|]. intros [= <-]. eauto.
Qed.

Lemma mergeBatches_clean rawTweets includesTweets repliedToTweets t :
  t ∈ allTweets (mergeBatches rawTweets includesTweets repliedToTweets) →
  repliedToClean t.
Proof.
  destruct (mergeBatches_spec rawTweets includesTweets repliedToTweets)
    as (Hm & Hi & Hr).
  unfold allTweets. rewrite !elem_of_app. intros [Ht|[Ht|Ht]].
  - apply list_elem_of_lookup in Ht as [i Hi'].
    destruct (Forall2_lookup_r _ _ _ _ _ Hm Hi') as (x & Hx & Hxt).
    eapply regrouped_clean; [exact Hxt|].
    apply list_lookup_fmap_Some in Hx as (raw & -> & _).
    apply processMainTweet_clean.
  - apply list_elem_of_lookup in Ht as [i Hi'].
    destruct (Forall2_lookup_r _ _ _ _ _ Hi Hi') as (x & Hx & Hxt).
    by eapply produced_clean.
  - apply list_elem_of_lookup in Ht as [i Hi'].
    destruct (Forall2_lookup_r _ _ _ _ _ Hr Hi') as (x & Hx & Hxt).
    by eapply produced_clean.
Qed.

(** ** The views of [renderResults] *)

(** Threads are composed exactly when nothing is loading, there is no error
    and the array is not empty and passes the check; they are then the
    threads of [renderThreads]. *)
Lemma renderResults_Threads parseDate isLoading error tweets out :
  renderResults parseDate isLoading error (Some tweets) = Threads out →
  tweets ≠ [] ∧ isTweetArray tweets = true ∧ out = renderThreads parseDate tweets.
Proof.
  unfold renderResults. destruct isLoading; [done|].
  destruct (truthy error); [done|]. destruct (isTweetArray tweets); [|done].
  destruct tweets; [done|]. by intros [= <-].
Qed.

Lemma renderResults_composes parseDate tweets :
  tweets ≠ [] → isTweetArray tweets = true →
  renderResults parseDate false "" (Some tweets) = Threads (renderThreads parseDate tweets).
Proof. intros Hne Hgate. unfold renderResults. cbn. rewrite Hgate. by destruct tweets. Qed.

(** ** C6: snapshot depth *)

(** C6: the snapshot entry point returns a record without [repliedTo],
    without [children] and without any reply-linkage property, whatever the
    raw record nests; consequently every [repliedTo] value in the merged set,
    and every [repliedTo] value of a record of the rendered forest, is such a
    record. *)
Theorem snapshot_depth_one :
  (∀ tweet clean, createCleanRepliedToTweet tweet = Some clean → isSnapshot clean)
  ∧ (∀ r all t s, fetchUserTweets r = Ok all → t ∈ all →
                  Tweet.repliedTo t = Some s → isSnapshot s)
  ∧ (∀ parseDate r out n s, pipeline parseDate r = Ok (Threads out) →
                            n ∈ renderedNodes out →
                            Tweet.repliedTo n = Some s → isSnapshot s).
Proof.
  split_and!.
  - apply createClean_isSnapshot.
  - intros r all t s (raw & incl & repl & ->)%fetchUserTweets_Ok Ht Hs.
    by eapply mergeBatches_clean.
  - intros parseDate r out n s Hp Hn Hs. unfold pipeline in Hp.
    destruct (fetchUserTweets r) as [all|] eqn:Hall; [|done].
    apply fetchUserTweets_Ok in Hall as (raw & incl & repl & ->).
    assert (renderResults parseDate false "" (Some (allTweets (mergeBatches raw incl repl)))
            = Threads out) as Hv by (injection Hp as Hp; exact Hp).
    apply renderResults_Threads in Hv as (_ & _ & ->).
    apply render_nodes_origin in Hn as (x & gs & [->|Hx] & ->); [done|].
    by eapply mergeBatches_clean.
Qed.

Lemma snapshot_depth_one_witness :
  ∃ clean, createCleanRepliedToTweet (Some raw5) = Some clean ∧ isSnapshot clean.
Proof.
  eexists. split; [reflexivity|].
  apply (proj1 snapshot_depth_one (Some raw5)). reflexivity.
Defined.

(** ** C2: conversation backfill *)

(** C2, as stated, fails: the synthetic conversation id is the id of the
    referencing record, "2", so no group is keyed "1"; and when both posts
    are in the primary batch nothing is backfilled and there is no group at
    all, B being a standalone root next to A. *)
Lemma backfill_group_key_counterexample :
  (∃ out, pipeline parseYear (backfillResponse true (rawA "a" "2001") (rawB "b" "2002"))
          = Ok (Threads out)
          ∧ (conversations out).*1 = ["2"])
  ∧ (∃ out root1 root2,
        pipeline parseYear (primaryOnlyResponse (rawA "a" "2001") (rawB "b" "2002"))
        = Ok (Threads out)
        ∧ conversations out = [] ∧ standalone out = [root1; root2]
        ∧ kids root1 = [] ∧ kids root2 = []).
Proof.
  split.
  - eexists. split; [by vm_compute|]. by vm_compute.
  - eexists _, _, _. split; [by vm_compute|]. by split_and!.
Qed.

(** The run of the pipeline on two records of one conversation: the merged
    set, the check of the first record and the grouping are computed; the
    only comparison of dates, which decides the order in which the thread
    builder receives the two records, is split in two cases, and the thread
    builder is computed in each. *)
Ltac backfill_by_computation :=
  match goal with
  | |- ∃ a b, pipeline ?parseDate ?r = _ ∧ _ =>
      unfold pipeline;
      let v := eval vm_compute in (fetchUserTweets r) in
      match v with
      | Ok [?tb; ?ta] =>
          let Hf := fresh "Hf" in
          assert (fetchUserTweets r = Ok [tb; ta]) as Hf by (vm_compute; reflexivity);
          rewrite Hf; clear Hf;
          let forest := eval vm_compute in (organizeTweetsIntoThreads [ta; tb]) in
          let Ho := fresh "Ho" in
          assert (∀ c : bool, organizeTweetsIntoThreads (if c then [ta; tb] else [tb; ta])
                              = forest) as Ho
            by (intros [|]; vm_compute; reflexivity);
          let Hg := fresh "Hg" in
          assert (groupByConversation [tb; ta] = ([("2", [tb; ta])], [])) as Hg
            by (vm_compute; reflexivity);
          change ((fun tweets => renderResults parseDate false "" (Some tweets))
                  <$> Ok [tb; ta])
            with (Ok (renderResults parseDate false "" (Some [tb; ta])));
          rewrite (renderResults_composes parseDate [tb; ta])
            by first [discriminate | vm_compute; reflexivity];
          unfold renderThreads; rewrite Hg; clear Hg;
          change (sortBy _ [("2", [tb; ta])]) with [("2", [tb; ta])];
          unfold renderConversation;
          cbn [fmap list_fmap fst snd];
          match goal with
          | |- context [sortBy ?f [tb; ta]] =>
              change (sortBy f [tb; ta]) with (if f tb ta then [ta; tb] else [tb; ta])
          end;
          rewrite Ho; clear Ho;
          eexists _, _; split; [reflexivity|by split_and!]
      end
  end.

(** C2 (amended): post B, with id "2", a text and a date, names its reply
    target "1" in one of the six properties the resolver reads and has no
    other property; post A has id "1", a text and a date and no other
    property.  With B in the primary batch and A in the included batch or in
    the replied-to batch, whatever the texts, the dates and the property
    are, the threads are composed and the output is a single conversation
    group whose key is "2", the id of the referencing record B; the group
    has one tree, with A as its root and B as the root's sole child, and
    there is no standalone record. *)
Theorem backfill_groups_pair (parseDate : string → option Z) (inIncluded : bool)
    (property : ReplyProperty.t) (textA createdA textB createdB : string) :
  ∃ a b,
    pipeline parseDate
      (backfillResponse inIncluded (rawA textA createdA)
         (rawReply "2" textB createdB property "1"))
    = Ok (Threads (mkRendered [("2", [a])] []))
    ∧ Tweet.id a = Some "1" ∧ kids a = [b]
    ∧ Tweet.id b = Some "2" ∧ kids b = []
    ∧ Tweet.conversationId a = Some "2" ∧ Tweet.conversationId b = Some "2"
    ∧ Tweet.text b = Some textB ∧ Tweet.createdAt b = Some createdB.
Proof.
  destruct inIncluded, property; backfill_by_computation.
Qed.

(** Outside the amended statement: when B names its target only in
    [inReplyToId], B is attached below A and is a second root of the group
    as well; when B names it only in a reference list, B is not attached,
    and with A in the replied-to batch there is no group at all. *)
Example backfill_other_linkage :
  outline (pipeline parseYear
             (backfillResponse true (rawA "a" "2001") (rawB_inReplyToId "b" "2002")))
  = Some ([("2", [(Some "1", [Some "2"]); (Some "2", [])])], [])
  ∧ outline (pipeline parseYear
               (backfillResponse true (rawA "a" "2001") (rawB_referenced "b" "2002")))
    = Some ([("2", [(Some "1", []); (Some "2", [])])], [])
  ∧ outline (pipeline parseYear
               (backfillResponse false (rawA "a" "2001") (rawB_referenced "b" "2002")))
    = Some ([], [Some "1"; Some "2"]).
Proof. split_and!; by vm_compute. Qed.

(** ** Cycle defence *)

(** Records built while their id is already in [processedIds] are leaves, and
    below every record the branch stops where its id comes again. *)
Lemma attachChildren_stops fuel conv tm p s n s' :
  Tweet.children p = Some [] →
  attachChildren fuel conv tm p s = Some (n, s') →
  Forall (fun m => Tweet.id m ∈ s → kids m = []) (nodes n)
  ∧ Forall stopsAtRepeat (nodes n).
Proof.
  revert p s n s'. induction fuel as [|fuel IH]; intros p s n s' Hp H; [done|].
  assert (Forall (fun m => Tweet.id m ∈ s → kids m = []) (nodes p)
          ∧ Forall stopsAtRepeat (nodes p)) as Hleaf.
  { rewrite nodes_eq, descendants_leaf by done. split.
    - constructor; [|done]. intros _. unfold kids. by rewrite Hp.
    - constructor; [|done]. intros d Hd. rewrite descendants_leaf in Hd by done.
      by apply elem_of_nil in Hd. }
  simpl in H. case_decide as Hin.
  { by injection H as <- <-. }
  destruct (filter _ conv) as [|c cs] eqn:Hfilter.
  { by injection H as <- <-. }
  rewrite <- Hfilter in H.
  destruct (mapState _ _ _) as [[kids' s1]|] eqn:Hmap; [|done].
  injection H as <- <-.
  eapply (mapState_inv (fun s0 => {[Tweet.id p]} ∪ s ⊆ s0)
            (fun _ c => Forall (fun m => Tweet.id m ∈ {[Tweet.id p]} ∪ s → kids m = [])
                               (nodes c)
                        ∧ Forall stopsAtRepeat (nodes c)))
    in Hmap as [_ HR]; [| |done].
  - assert (Forall (fun m => Tweet.id m ∈ {[Tweet.id p]} ∪ s → kids m = [])
                   (kids' ≫= nodes)) as Hi.
    { apply Forall_bind. eapply Forall2_Forall_r; [exact HR|]. apply Forall_true.
      by intros ?? [? _]. }
    assert (Forall stopsAtRepeat (kids' ≫= nodes)) as Hii.
    { apply Forall_bind. eapply Forall2_Forall_r; [exact HR|]. apply Forall_true.
      by intros ?? [_ ?]. }
    rewrite nodes_eq, descendants_set_children. split.
    + constructor; [done|]. eapply Forall_impl; [exact Hi|]. simpl.
      intros m Hm Hs. apply Hm. set_solver.
    + constructor; [|done]. intros d Hd Hid.
      rewrite descendants_set_children in Hd. rewrite Forall_forall in Hi.
      apply (Hi d Hd). rewrite Hid. set_solver.
  - intros a s0 b s0' _ Hs0 Hb. split.
    + apply attachChildren_grows in Hb. set_solver.
    + apply IH in Hb as [Hi Hii]; [|done]. split; [|done].
      eapply Forall_impl; [exact Hi|]. simpl. intros m Hm Hs. apply Hm. set_solver.
Qed.

Lemma buildConversation_stops fuel tm conv roots :
  buildConversation fuel tm conv = Some roots → Forall stopsAtRepeat (roots ≫= nodes).
Proof.
  unfold buildConversation. intros H.
  destruct (mapState _ _ _) as [[roots' s1]|] eqn:Hmap; [|done].
  injection H as <-.
  eapply (mapState_inv (fun _ => True) (fun _ c => Forall stopsAtRepeat (nodes c)))
    in Hmap as [_ HR]; [| |done].
  - apply Forall_bind. eapply Forall2_Forall_r; [exact HR|]. by apply Forall_true.
  - intros a s0 b s0' _ _ Hb. split; [done|].
    by apply attachChildren_stops in Hb as [_ ?].
Qed.

Lemma organize_stops tweets a :
  a ∈ organizeTweetsIntoThreads tweets ≫= nodes → stopsAtRepeat a.
Proof.
  rewrite organize_eq, bind_app. intros [Hn|Hn]%elem_of_app.
  - apply list_elem_of_bind in Hn as (root & Hn & Hroot).
    apply list_elem_of_bind in Hroot as (k & Hroot & _).
    unfold conversationTrees in Hroot.
    destruct (buildConversation _ _ _) as [roots|] eqn:Hb; [|by apply elem_of_nil in Hroot].
    apply buildConversation_stops in Hb. rewrite Forall_forall in Hb. apply Hb.
    apply list_elem_of_bind. eauto.
  - apply list_elem_of_bind in Hn as (root & Hn & Hroot).
    apply list_elem_of_bind in Hroot as (t & Hroot & _).
    apply orphanRoots_origin in Hroot as ->.
    rewrite nodes_eq, descendants_leaf in Hn by done.
    apply list_elem_of_singleton in Hn as ->.
    intros d Hd. rewrite descendants_leaf in Hd by done. by apply elem_of_nil in Hd.
Qed.

(** When every record replies to a record of the list, no record is a root
    of its conversation. *)
Lemma no_root_when_all_inside tweets k :
  allRepliesInside tweets → (∀ t, t ∈ tweets → convOf t = Some k) →
  organizeTweetsIntoThreads tweets = [].
Proof.
  intros Hall Hk. destruct tweets as [|t0 tweets0]; [by vm_compute|].
  rewrite (organize_one_conversation _ k Hk) by done.
  set (tweets := t0 :: tweets0) in *.
  destruct (buildConversation_total (enoughFuel tweets) tweets tweets) as [roots Hroots];
    [done|done|].
  rewrite Hroots. simpl.
  apply buildConversation_shape in Hroots as [Hroots _].
  rewrite filter_none in Hroots; [by apply Forall2_nil_inv_l in Hroots|].
  apply Forall_forall. intros t Ht Hroot. apply Is_true_true in Hroot.
  destruct (Hall t Ht) as (Hr & Hi & Hin).
  assert (∀ ids, isRootIn ids t = negb (bool_decide (Tweet.inReplyToId t ∈ ids))) as Heq.
  { intros ids. unfold isRootIn. by rewrite Hr, Hi. }
  rewrite Heq in Hroot.
  apply negb_true_iff, bool_decide_eq_false in Hroot. apply Hroot.
  by apply elem_of_list_to_set.
Qed.

(** ** C5: cycle safety *)

(** C5, as stated, fails: a record that was already visited is still copied
    and attached, only without children of its own.  With [loopR] a root
    (it is not flagged as a reply) that names [loopA] as its target, and
    [loopA] a reply to [loopR], the tree is r > a > r: the root has a
    descendant with its own id, and the id "r" is attached twice. *)
Lemma cycle_safety_counterexample :
  ∃ root,
    organizeTweetsIntoThreads [loopR; loopA] = [root]
    ∧ (∃ d, d ∈ descendants root ∧ Tweet.id d = Tweet.id root)
    ∧ ¬ NoDup (Tweet.id <$> nodes root).
Proof.
  eexists. split; [by vm_compute|]. split.
  - eexists. split; [vm_compute; right; left|reflexivity].
  - intros H. vm_compute in H. apply NoDup_cons in H as [H _]. apply H.
    right. left.
Qed.

(** C5 (amended): for every input the thread builder terminates, with the
    same forest for any fuel from [enoughFuel] on, and no exception is
    reachable; a record whose id was already visited in its conversation is
    attached as a leaf, so that below any record of the forest a record
    carrying the same id again has no children (the branch stops growing
    there); and when every record of a conversation replies to a record of
    that conversation, as in a cycle, no tree is built from it. *)
Theorem cycle_safety (tweets : list Tweet.t) :
  (∀ fuel, (enoughFuel tweets ≤ fuel)%nat →
           organizeTweetsIntoThreads_fuel fuel tweets
           = Some (organizeTweetsIntoThreads tweets))
  ∧ (∀ a, a ∈ organizeTweetsIntoThreads tweets ≫= nodes → stopsAtRepeat a)
  ∧ (∀ k, allRepliesInside tweets → (∀ t, t ∈ tweets → convOf t = Some k) →
          organizeTweetsIntoThreads tweets = []).
Proof.
  split_and!.
  - intros fuel Hfuel. rewrite organize_fuel_eq by done. by rewrite organize_eq.
  - apply organize_stops.
  - intros k. by apply no_root_when_all_inside.
Qed.

Lemma cycle_safety_witness :
  organizeTweetsIntoThreads_fuel 7 [cycleA; cycleB]
  = Some (organizeTweetsIntoThreads [cycleA; cycleB])
  ∧ organizeTweetsIntoThreads [cycleA; cycleB] = [].
Proof.
  split.
  - apply (cycle_safety [cycleA; cycleB]). vm_compute. lia.
  - apply (cycle_safety [cycleA; cycleB] ) with (k := "c").
    + intros t Ht. repeat (apply elem_of_cons in Ht as [->|Ht]);
        try (by apply elem_of_nil in Ht);
        (split_and!; [reflexivity|reflexivity|]); vm_compute.
      * right. left.
      * left.
    + intros t Ht. repeat (apply elem_of_cons in Ht as [->|Ht]); try reflexivity.
      by apply elem_of_nil in Ht.
Defined.

(** ** The thread builder on a store *)

Section StoreFacts.
Variable n0 : nat.
Variable C : gset (option string).
Hypothesis C_None : None ∈ C.
Implicit Types (h : Store.Heap) (tm : gmap string Store.loc).

Lemma keeps_refl h : keeps n0 h h.
Proof. by split. Qed.

Lemma keeps_trans h1 h2 h3 : keeps n0 h1 h2 → keeps n0 h2 h3 → keeps n0 h1 h3.
Proof.
  intros [Hl1 H1] [Hl2 H2]. split; [lia|].
  intros l Hl. by rewrite H2, H1.
Qed.

Lemma keeps_app h o : (n0 ≤ length h)%nat → keeps n0 h (h ++ [o]).
Proof.
  intros Hn. split; [rewrite length_app; simpl; lia|].
  intros l Hl. apply lookup_app_l. lia.
Qed.

Lemma StoreInv_alloc tm h t :
  StoreInv n0 C tm h → Tweet.id t ∈ C →
  StoreInv n0 C tm (h ++ [Store.mkObj t (Some [])]).
Proof.
  intros [Hlen Hids Hkids Htm] Ht. split.
  - rewrite length_app. lia.
  - intros l o Hl Ho. apply lookup_app_Some in Ho as [Ho|[_ Ho]]; [by eapply Hids|].
    apply list_lookup_singleton_Some in Ho as [_ <-]. done.
  - intros l o c Hl Ho Hc. apply lookup_app_Some in Ho as [Ho|[_ Ho]]; [by eapply Hkids|].
    apply list_lookup_singleton_Some in Ho as [_ <-]. by apply elem_of_nil in Hc.
  - intros i c Hc. apply Htm in Hc. rewrite length_app. simpl. lia.
Qed.

(** A copy is always made; it is the object after the last one. *)
Lemma newCopy_spec tm h id :
  StoreInv n0 C tm h →
  ∃ h', Store.newCopy (Store.getRef tm id) h = Some (length h, h')
        ∧ StoreInv n0 C tm h' ∧ keeps n0 h h' ∧ length h' = S (length h).
Proof.
  intros Hinv. unfold Store.newCopy.
  destruct (Store.getRef tm id) as [c|] eqn:Hc.
  - destruct id as [i|]; [|done]. simpl in Hc.
    destruct (inv_tm _ _ _ _ Hinv i c Hc) as [Hc1 Hc2].
    destruct (lookup_lt_is_Some_2 h c Hc2) as [o Ho]. rewrite Ho.
    eexists. split_and!; [done| | |].
    + apply StoreInv_alloc; [done|]. by eapply (inv_ids _ _ _ _ Hinv).
    + apply keeps_app, Hinv.
    + rewrite length_app. simpl. lia.
  - eexists. split_and!; [done| | |].
    + by apply StoreInv_alloc.
    + apply keeps_app, Hinv.
    + rewrite length_app. simpl. lia.
Qed.

Lemma setChildren_spec tm h p cs :
  StoreInv n0 C tm h → (n0 ≤ p < length h)%nat → Forall (fun c => n0 ≤ c)%nat cs →
  ∃ h', Store.setChildren p cs h = Some h'
        ∧ StoreInv n0 C tm h' ∧ keeps n0 h h'.
Proof.
  intros [Hlen Hids Hkids Htm] [Hp1 Hp2] Hcs. unfold Store.setChildren.
  destruct (lookup_lt_is_Some_2 h p Hp2) as [o Ho]. rewrite Ho.
  eexists. split_and!; [done| |].
  - split.
    + by rewrite length_insert.
    + intros l o' Hl Ho'. destruct (decide (l = p)) as [->|Hne].
      * rewrite list_lookup_insert_eq in Ho' by done. injection Ho' as <-.
        simpl. by eapply Hids.
      * rewrite list_lookup_insert_ne in Ho' by done. by eapply Hids.
    + intros l o' c Hl Ho' Hc. destruct (decide (l = p)) as [->|Hne].
      * rewrite list_lookup_insert_eq in Ho' by done. injection Ho' as <-.
        simpl in Hc. rewrite Forall_forall in Hcs. by apply Hcs.
      * rewrite list_lookup_insert_ne in Ho' by done. by eapply Hkids.
    + intros i c Hc. rewrite length_insert. by apply (Htm i).
  - split; [by rewrite length_insert|].
    intros l Hl. apply list_lookup_insert_ne. lia.
Qed.

Lemma readAll_fst ls h conv : Store.readAll ls h = Some conv → conv.*1 = ls.
Proof.
  unfold Store.readAll. intros H. apply mapM_Some in H.
  induction H as [|l x ls conv Hx _ IH]; [done|]. simpl. f_equal; [|done].
  destruct (h !! l); [|done]. by injection Hx as <-.
Qed.

Lemma readAll_total ls h :
  Forall (fun l => l < length h)%nat ls → is_Some (Store.readAll ls h).
Proof.
  intros Hls. apply mapM_is_Some. eapply Forall_impl; [exact Hls|]. simpl.
  intros l Hl. destruct (lookup_lt_is_Some_2 h l Hl) as [o ->]. by eexists.
Qed.

Lemma readAll_keeps ls h h' :
  keeps n0 h h' → Forall (fun l => l < n0)%nat ls →
  Store.readAll ls h' = Store.readAll ls h.
Proof.
  intros [_ Hk] Hls. unfold Store.readAll.
  induction Hls as [|l ls Hl _ IH]; [done|].
  simpl. rewrite IH. by rewrite (Hk l Hl).
Qed.

#[local] Abbreviation attachPost := (attachPost n0 C).
#[local] Abbreviation attachTotal := (attachTotal n0 C).

Lemma copyAndAttach_post tm attach tweet st c st' :
  attachPost tm attach → StoreInv n0 C tm st.2 →
  Store.copyAndAttach attach tm tweet st = Some (c, st') →
  StoreInv n0 C tm st'.2 ∧ keeps n0 st.2 st'.2 ∧ st.1 ⊆ st'.1 ∧ (n0 ≤ c)%nat.
Proof.
  intros Hpost Hinv. unfold Store.copyAndAttach.
  destruct (st.2 !! tweet.1) as [t|]; [|done].
  destruct (newCopy_spec tm st.2 (Tweet.id (Store.props t)) Hinv)
    as (h1 & -> & Hinv1 & Hk1 & _).
  destruct (attach _ _) as [[u st1]|] eqn:Hattach; [|done]. intros [= <- <-].
  apply Hpost in Hattach as (Hinv2 & Hk2 & Hs); [|done|apply Hinv].
  split_and!; [done|by eapply keeps_trans|done|apply Hinv].
Qed.

Lemma copyAndAttach_total fuel tm attach tweet st :
  attachTotal fuel tm attach → StoreInv n0 C tm st.2 →
  (tweet.1 < length st.2)%nat → (size (C ∖ st.1) < fuel)%nat →
  is_Some (Store.copyAndAttach attach tm tweet st).
Proof.
  intros Htotal Hinv Hlt Hsize. unfold Store.copyAndAttach.
  destruct (lookup_lt_is_Some_2 st.2 tweet.1 Hlt) as [t ->].
  destruct (newCopy_spec tm st.2 (Tweet.id (Store.props t)) Hinv)
    as (h1 & -> & Hinv1 & Hk1 & Hlen).
  assert (n0 ≤ length st.2 < length h1)%nat as Hrange.
  { split; [apply Hinv|lia]. }
  by destruct (Htotal (length st.2) (st.1, h1) Hinv1 Hrange Hsize) as [[u st1] ->].
Qed.

(** The loop over the children, or over the roots. *)
Lemma copyAll_post tm attach tweets st cs st' :
  attachPost tm attach → StoreInv n0 C tm st.2 →
  mapState (Store.copyAndAttach attach tm) tweets st = Some (cs, st') →
  StoreInv n0 C tm st'.2 ∧ keeps n0 st.2 st'.2 ∧ st.1 ⊆ st'.1
  ∧ Forall (fun c => n0 ≤ c)%nat cs.
Proof.
  intros Hpost Hinv Hmap.
  eapply (mapState_inv
            (fun s => StoreInv n0 C tm s.2 ∧ keeps n0 st.2 s.2 ∧ st.1 ⊆ s.1)
            (fun _ c => n0 ≤ c)%nat) in Hmap as [(? & ? & ?) HR].
  - split_and!; try done. eapply Forall2_Forall_r; [exact HR|]. by apply Forall_true.
  - intros a s b s' _ (Hi & Hk & Hs) Hstep.
    apply copyAndAttach_post in Hstep as (? & ? & ? & ?); [|done|done].
    split_and!; [done|by eapply keeps_trans|set_solver|done].
  - split_and!; [done|apply keeps_refl|done].
Qed.

Lemma copyAll_total fuel tm attach (tweets : list (Store.loc * Tweet.t)) st :
  attachPost tm attach → attachTotal fuel tm attach → StoreInv n0 C tm st.2 →
  Forall (fun t => t.1 < n0)%nat tweets → (size (C ∖ st.1) < fuel)%nat →
  is_Some (mapState (Store.copyAndAttach attach tm) tweets st).
Proof.
  intros Hpost Htotal Hinv Hin Hsize.
  destruct (mapState_is_Some
              (fun s => StoreInv n0 C tm s.2 ∧ st.1 ⊆ s.1)
              (Store.copyAndAttach attach tm) tweets st) as (bs & s' & -> & _);
    [|done|by eexists].
  intros a s Ha [Hi Hs]. rewrite Forall_forall in Hin. specialize (Hin a Ha).
  destruct (copyAndAttach_total fuel tm attach a s) as [[c s1] Hstep]; try done.
  - pose proof (inv_len _ _ _ _ Hi). lia.
  - assert (size (C ∖ s.1) ≤ size (C ∖ st.1))%nat by (apply subseteq_size; set_solver).
    lia.
  - exists c, s1. split; [done|].
    apply copyAndAttach_post in Hstep as (? & ? & ? & ?); [|done|done].
    split; [done|set_solver].
Qed.

Lemma store_attach_post fuel conv tm :
  attachPost tm (Store.attachChildren fuel conv tm).
Proof.
  induction fuel as [|fuel IH]; intros p st u st' Hinv Hp H; [done|].
  simpl in H. destruct (st.2 !! p) as [parent|] eqn:Hparent; [|done].
  case_decide.
  { injection H as <- <-. split_and!; [done|apply keeps_refl|done]. }
  destruct (Store.readAll conv st.2) as [read|]; [|done].
  destruct (filter _ read) as [|c cs] eqn:Hfilter.
  { injection H as <- <-. simpl. split_and!; [done|apply keeps_refl|set_solver]. }
  destruct (mapState _ _ _) as [[copies st1]|] eqn:Hmap; [|done].
  apply copyAll_post in Hmap as (Hinv1 & Hk1 & Hs1 & Hcopies); [|done|done].
  simpl in *.
  destruct (setChildren_spec tm st1.2 p copies Hinv1) as (h2 & Hset & Hinv2 & Hk2);
    [|done|].
  { split; [done|]. apply lookup_lt_Some in Hparent. destruct Hk1. lia. }
  rewrite Hset in H. injection H as <- <-. simpl.
  split_and!; [done|by eapply keeps_trans|set_solver].
Qed.

Lemma store_attach_total fuel conv tm :
  Forall (fun l => l < n0)%nat conv →
  attachTotal fuel tm (Store.attachChildren fuel conv tm).
Proof.
  intros Hconv. induction fuel as [|fuel IH]; intros p st Hinv [Hp1 Hp2] Hsize; [lia|].
  simpl. destruct (lookup_lt_is_Some_2 st.2 p Hp2) as [parent Hparent].
  rewrite Hparent. case_decide as Hin; [by eexists|].
  destruct (readAll_total conv st.2) as [read Hread].
  { eapply Forall_impl; [exact Hconv|]. simpl. intros l Hl.
    pose proof (inv_len _ _ _ _ Hinv). lia. }
  rewrite Hread.
  destruct (filter _ read) as [|c cs] eqn:Hfilter; [by eexists|].
  rewrite <- Hfilter.
  assert (Tweet.id (Store.props parent) ∈ C) as HpC
    by (by eapply (inv_ids _ _ _ _ Hinv)).
  assert (size (C ∖ ({[Tweet.id (Store.props parent)]} ∪ st.1)) < size (C ∖ st.1))%nat
    as Hlt by (apply subset_size; set_solver).
  destruct (copyAll_total fuel tm (Store.attachChildren fuel conv tm)
              (filter (fun t => Is_true (repliesTo (Tweet.id (Store.props parent)) t.2)) read)
              ({[Tweet.id (Store.props parent)]} ∪ st.1, st.2))
    as [[copies st1] Hmap]; simpl; try done.
  - apply store_attach_post.
  - apply Forall_forall. intros t [_ Ht]%list_elem_of_filter.
    rewrite Forall_forall in Hconv. apply Hconv.
    rewrite <- (readAll_fst _ _ _ Hread). by apply list_elem_of_fmap_2.
  - lia.
  - rewrite Hmap.
    apply copyAll_post in Hmap as (Hinv1 & Hk1 & Hs1 & Hcopies);
      [|apply store_attach_post|done].
    simpl in *.
    destruct (setChildren_spec tm st1.2 p copies Hinv1) as (h2 & -> & _); [|done|].
    + split; [done|]. destruct Hk1. lia.
    + by eexists.
Qed.

(** The conversations, one after the other. *)
Lemma store_buildConversation_spec fuel tm conv h :
  StoreInv n0 C tm h → Forall (fun l => l < n0)%nat conv → (size C < fuel)%nat →
  ∃ roots h',
    Store.buildConversation fuel tm conv h = Some (roots, h')
    ∧ StoreInv n0 C tm h' ∧ keeps n0 h h' ∧ Forall (fun c => n0 ≤ c)%nat roots.
Proof.
  intros Hinv Hconv Hsize. unfold Store.buildConversation.
  destruct (readAll_total conv h) as [read Hread].
  { eapply Forall_impl; [exact Hconv|]. simpl. intros l Hl.
    pose proof (inv_len _ _ _ _ Hinv). lia. }
  rewrite Hread.
  set (roots := filter _ read).
  destruct (copyAll_total fuel tm (Store.attachChildren fuel conv tm) roots (∅, h))
    as [[copies st1] Hmap]; simpl; try done.
  - apply store_attach_post.
  - by apply store_attach_total.
  - apply Forall_forall. intros t [_ Ht]%list_elem_of_filter.
    rewrite Forall_forall in Hconv. apply Hconv.
    rewrite <- (readAll_fst _ _ _ Hread). by apply list_elem_of_fmap_2.
  - by rewrite difference_empty_L.
  - rewrite Hmap.
    apply copyAll_post in Hmap as (Hinv1 & Hk1 & _ & Hcopies);
      [|apply store_attach_post|done].
    eauto 10.
Qed.

Lemma store_buildConversations_spec fuel tm (cm : list (string * list Store.loc)) h :
  StoreInv n0 C tm h → Forall (fun e => Forall (fun l => l < n0)%nat e.2) cm →
  (size C < fuel)%nat →
  ∃ roots h',
    Store.buildConversations fuel tm cm h = Some (roots, h')
    ∧ StoreInv n0 C tm h' ∧ keeps n0 h h' ∧ Forall (fun c => n0 ≤ c)%nat roots.
Proof.
  intros Hinv Hcm Hsize. revert h Hinv.
  induction Hcm as [|[k conv] cm Hconv _ IH]; intros h Hinv; simpl.
  { exists [], h. split_and!; [done|done|apply keeps_refl|done]. }
  destruct (store_buildConversation_spec fuel tm conv h)
    as (roots & h1 & -> & Hinv1 & Hk1 & Hroots); [done|done|done|].
  destruct (IH h1 Hinv1) as (roots' & h2 & -> & Hinv2 & Hk2 & Hroots').
  exists (roots ++ roots'), h2. split_and!; [done|done| |by apply Forall_app].
  by eapply keeps_trans.
Qed.

Lemma store_orphanRoots_spec read tm tweet h :
  StoreInv n0 C tm h → (tweet < n0)%nat →
  ∃ roots h',
    Store.orphanRoots read tm tweet h = Some (roots, h')
    ∧ StoreInv n0 C tm h' ∧ keeps n0 h h' ∧ Forall (fun c => n0 ≤ c)%nat roots.
Proof.
  intros Hinv Hlt. unfold Store.orphanRoots.
  assert (tweet < length h)%nat as Hlt' by (pose proof (inv_len _ _ _ _ Hinv); lia).
  destruct (lookup_lt_is_Some_2 h tweet Hlt') as [o ->].
  destruct (newCopy_spec tm h (Tweet.id (Store.props o)) Hinv)
    as (h1 & -> & Hinv1 & Hk1 & _).
  assert (∃ roots h',
            Some ([length h], h1) = Some (roots, h')
            ∧ StoreInv n0 C tm h' ∧ keeps n0 h h' ∧ Forall (fun c => n0 ≤ c)%nat roots)
    as Hpush.
  { exists [length h], h1. split_and!; try done.
    constructor; [apply Hinv|done]. }
  repeat case_match; try done.
  exists [], h. split_and!; [done|done|apply keeps_refl|done].
Qed.

Lemma store_pushOrphans_spec read tm orphans h :
  StoreInv n0 C tm h → Forall (fun l => l < n0)%nat orphans →
  ∃ roots h',
    Store.pushOrphans read tm orphans h = Some (roots, h')
    ∧ StoreInv n0 C tm h' ∧ keeps n0 h h' ∧ Forall (fun c => n0 ≤ c)%nat roots.
Proof.
  intros Hinv Horphans. revert h Hinv.
  induction Horphans as [|tweet orphans Hlt _ IH]; intros h Hinv; simpl.
  { exists [], h. split_and!; [done|done|apply keeps_refl|done]. }
  destruct (store_orphanRoots_spec read tm tweet h)
    as (roots & h1 & -> & Hinv1 & Hk1 & Hroots); [done|done|].
  destruct (IH h1 Hinv1) as (roots' & h2 & -> & Hinv2 & Hk2 & Hroots').
  exists (roots ++ roots'), h2. split_and!; [done|done| |by apply Forall_app].
  by eapply keeps_trans.
Qed.

(** The loop filling [tweetMap]. *)
Lemma store_fillTweetMap_spec tweets tm h :
  StoreInv n0 C tm h → Forall (fun l => l < n0)%nat tweets →
  (∀ l o, l ∈ tweets → h !! l = Some o → Tweet.id (Store.props o) ∈ C) →
  ∃ tm' h',
    Store.fillTweetMap tweets tm h = Some (tm', h')
    ∧ StoreInv n0 C tm' h' ∧ keeps n0 h h'.
Proof.
  intros Hinv Htweets. revert tm h Hinv.
  induction Htweets as [|tweet tweets Hlt Htweets IH]; intros tm h Hinv Hids; simpl.
  { exists tm, h. split_and!; [done|done|apply keeps_refl]. }
  assert (tweet < length h)%nat as Hlt' by (pose proof (inv_len _ _ _ _ Hinv); lia).
  destruct (lookup_lt_is_Some_2 h tweet Hlt') as [o Ho]. rewrite Ho.
  assert (∀ tm1 h1, StoreInv n0 C tm1 h1 → keeps n0 h h1 →
            ∃ tm' h', Store.fillTweetMap tweets tm1 h1 = Some (tm', h')
                      ∧ StoreInv n0 C tm' h' ∧ keeps n0 h h') as Hrest.
  { intros tm1 h1 Hinv1 Hk1. destruct (IH tm1 h1 Hinv1) as (tm' & h' & -> & ? & ?).
    - intros l o' Hl Ho'. apply (Hids l o'); [by right|].
      rewrite <- Ho'. symmetry. apply Hk1.
      rewrite Forall_forall in Htweets. by apply Htweets.
    - exists tm', h'. split_and!; [done|done|by eapply keeps_trans]. }
  destruct (Tweet.id (Store.props o)) as [i|] eqn:Hi; [|apply Hrest; [done|apply keeps_refl]].
  destruct (truthy i); [|apply Hrest; [done|apply keeps_refl]].
  apply Hrest; [|apply keeps_app, Hinv].
  pose proof (StoreInv_alloc tm h (Store.props o) Hinv) as [Hlen' Hids' Hkids' Htm'].
  { apply (Hids tweet o); [left|done]. }
  split; [done|done|done|].
  intros j c Hc. rewrite length_app in *. simpl in *.
  destruct (decide (i = j)) as [->|Hne].
  - rewrite lookup_insert_eq in Hc. injection Hc as <-.
    pose proof (inv_len _ _ _ _ Hinv). lia.
  - rewrite lookup_insert_ne in Hc by done. by apply (Htm' j).
Qed.

(** Every reference of the groups and of the list of orphans is a
    reference of the input. *)
Lemma store_groupByConversation_elem (read : list (Store.loc * Tweet.t)) l :
  (∃ e, e ∈ (Store.groupByConversation read).1 ∧ l ∈ e.2)
  ∨ l ∈ (Store.groupByConversation read).2 →
  l ∈ read.*1.
Proof.
  unfold Store.groupByConversation.
  induction read as [|t read IH] using rev_ind.
  { intros [(e & He & _)|H]; simpl in *; by apply elem_of_nil in He || apply elem_of_nil in H. }
  rewrite foldl_snoc, fmap_app. set (st := foldl _ _ read) in *.
  assert (∀ k (m : list (string * list Store.loc)) e,
            e ∈ Store.pushTo k t.1 m → l ∈ e.2 →
            l = t.1 ∨ ∃ e', e' ∈ m ∧ l ∈ e'.2) as Hpush.
  { intros k m. induction m as [|[k' ts] m IHm]; intros e He Hl; simpl in He.
    - apply list_elem_of_singleton in He as ->. simpl in Hl.
      apply list_elem_of_singleton in Hl. by left.
    - case_decide.
      + apply elem_of_cons in He as [->|He].
        * simpl in Hl. apply elem_of_app in Hl as [Hl|Hl].
          -- right. exists (k', ts). split; [left|done].
          -- apply list_elem_of_singleton in Hl. by left.
        * right. exists e. split; [by right|done].
      + apply elem_of_cons in He as [->|He].
        * right. exists (k', ts). split; [left|done].
        * destruct (IHm e He Hl) as [?|(e' & ? & ?)]; [by left|].
          right. exists e'. split; [by right|done]. }
  unfold Store.groupStepConv. intros H. apply elem_of_app.
  repeat case_match; simpl in H.
  - destruct H as [(e & He & Hl)|H].
    + destruct (Hpush _ _ _ He Hl) as [->|(e' & ? & ?)].
      * right. simpl. left.
      * left. apply IH. left. eauto.
    + left. apply IH. by right.
  - destruct H as [(e & He & Hl)|H].
    + left. apply IH. left. eauto.
    + apply elem_of_app in H as [H|H]; [left; apply IH; by right|].
      apply list_elem_of_singleton in H as ->. right. simpl. left.
  - destruct H as [(e & He & Hl)|H].
    + left. apply IH. left. eauto.
    + apply elem_of_app in H as [H|H]; [left; apply IH; by right|].
      apply list_elem_of_singleton in H as ->. right. simpl. left.
Qed.

Lemma reachable_new h roots l :
  (∀ l o c, (n0 ≤ l)%nat → h !! l = Some o →
            c ∈ default [] (Store.childrenRef o) → (n0 ≤ c)%nat) →
  Forall (fun c => n0 ≤ c)%nat roots →
  Store.reachable h roots l → (n0 ≤ l)%nat.
Proof.
  intros Hkids Hroots. induction 1 as [l Hl|l o c _ IH Ho Hc].
  - rewrite Forall_forall in Hroots. by apply Hroots.
  - by eapply Hkids.
Qed.

End StoreFacts.

Lemma size_candidateIds tweets h : (size (candidateIds tweets h) ≤ length tweets + 1)%nat.
Proof.
  unfold candidateIds. rewrite size_union_alt, size_singleton.
  set (ids := (fun l => (h !! l) ≫= (fun o => Tweet.id (Store.props o))) <$> tweets).
  pose proof (size_list_to_set_le ids) as Hle.
  unfold ids in Hle at 2. rewrite length_fmap in Hle.
  assert (size (list_to_set ids ∖ {[None]} : gset (option string))
          ≤ size (list_to_set ids : gset (option string)))%nat.
  { apply subseteq_size. set_solver. }
  lia.
Qed.

Lemma StoreInv_initial tweets h :
  StoreInv (length h) (candidateIds tweets h) ∅ h.
Proof.
  split; [done| | |].
  - intros l o Hl Ho. apply lookup_lt_Some in Ho. lia.
  - intros l o c Hl Ho. apply lookup_lt_Some in Ho. lia.
  - intros i c Hc. by rewrite lookup_empty in Hc.
Qed.

(** ** C10: the thread builder does not write to its input *)

(** C10: run on a store in which the input array refers to existing objects,
    [organizeTweetsIntoThreads] returns; every object that existed before the
    call, so every input record with all its properties and its [children],
    is the same after the call; and every record of the returned forest (the
    roots and whatever is reachable through [children]) is an object that was
    allocated during the call. *)
Theorem organize_leaves_input_untouched (fuel : nat) (tweets : list Store.loc)
    (h : Store.Heap) :
  Forall (fun l => l < length h)%nat tweets → (length tweets + 2 ≤ fuel)%nat →
  ∃ roots h',
    Store.organizeTweetsIntoThreads fuel tweets h = Some (roots, h')
    ∧ (∀ l o, h !! l = Some o → h' !! l = Some o)
    ∧ (∀ l, Store.reachable h' roots l → (length h ≤ l)%nat).
Proof.
  intros Htweets Hfuel.
  set (n0 := length h). set (C := candidateIds tweets h).
  assert (None ∈ C) as HNone by (unfold C, candidateIds; set_solver).
  assert (size C < fuel)%nat as Hsize.
  { pose proof (size_candidateIds tweets h). unfold C. lia. }
  unfold Store.organizeTweetsIntoThreads.
  destruct (store_fillTweetMap_spec n0 C tweets ∅ h)
    as (tm & h1 & -> & Hinv1 & Hk1); [apply StoreInv_initial|done| |].
  { intros l o Hl Ho. unfold C, candidateIds. apply elem_of_union_r, elem_of_list_to_set.
    apply list_elem_of_fmap. exists l. split; [|done]. by rewrite Ho. }
  destruct (readAll_total tweets h1) as [read Hread].
  { eapply Forall_impl; [exact Htweets|]. simpl. intros l Hl. destruct Hk1. lia. }
  rewrite Hread.
  destruct (Store.groupByConversation read) as [cm orphans] eqn:Hgroup.
  assert (∀ l, (∃ e, e ∈ cm ∧ l ∈ e.2) ∨ l ∈ orphans → (l < n0)%nat) as Hin.
  { intros l Hl. rewrite Forall_forall in Htweets. apply Htweets.
    rewrite <- (readAll_fst _ _ _ Hread).
    apply store_groupByConversation_elem. by rewrite Hgroup. }
  destruct (store_buildConversations_spec n0 C HNone fuel tm cm h1)
    as (roots & h2 & -> & Hinv2 & Hk2 & Hroots); [done| |done|].
  { apply Forall_forall. intros e He. apply Forall_forall. intros l Hl.
    apply Hin. left. eauto. }
  destruct (readAll_total tweets h2) as [read2 Hread2].
  { eapply Forall_impl; [exact Htweets|]. simpl. intros l Hl.
    destruct Hk1, Hk2. lia. }
  rewrite Hread2.
  destruct (store_pushOrphans_spec n0 C HNone read2 tm orphans h2)
    as (roots' & h3 & -> & Hinv3 & Hk3 & Hroots'); [done| |].
  { apply Forall_forall. intros l Hl. apply Hin. by right. }
  exists (roots ++ roots'), h3. split_and!; [done| |].
  - intros l o Ho. rewrite <- Ho.
    assert (l < n0)%nat as Hl by (by apply lookup_lt_Some in Ho).
    destruct Hk1 as [_ Hk1], Hk2 as [_ Hk2], Hk3 as [_ Hk3].
    by rewrite Hk3, Hk2, Hk1.
  - intros l Hl.
    apply (reachable_new n0 h3 (roots ++ roots') l);
      [apply (inv_kids _ _ _ _ Hinv3)|by apply Forall_app|done].
Qed.

Lemma organize_leaves_input_untouched_witness :
  ∃ roots h',
    Store.organizeTweetsIntoThreads 5 [2; 1; 0]%nat exampleStore = Some (roots, h')
    ∧ (∀ l o, exampleStore !! l = Some o → h' !! l = Some o)
    ∧ (∀ l, Store.reachable h' roots l → (length exampleStore ≤ l)%nat).
Proof.
  apply organize_leaves_input_untouched.
  - repeat constructor.
  - simpl. lia.
Defined.

(** On the example store the forest read back from the store is the forest of
    the embedding on values. *)
Example store_agrees_on_example :
  ∃ roots h',
    Store.organizeTweetsIntoThreads 5 [2; 1; 0]%nat exampleStore = Some (roots, h')
    ∧ mapM (Store.readTree 5 h') roots
      = Some (organizeTweetsIntoThreads [postP; postR; postS]).
Proof. eexists _, _. split; by vm_compute. Qed.

(** ** The store model against the value model *)

Lemma above_refl h : above h h.
Proof. by intros l o. Qed.

Lemma above_trans h1 h2 h3 : above h1 h2 → above h2 h3 → above h1 h3.
Proof. intros H12 H23 l o Hl. by apply H23, H12. Qed.

Lemma above_app h k : above h (h ++ k).
Proof. intros l o Hl. by apply lookup_app_l_Some. Qed.

Lemma above_length h h' : above h h' → (length h ≤ length h')%nat.
Proof.
  intros Hab. destruct (decide (length h ≤ length h')%nat) as [|Hlt]; [done|].
  destruct (lookup_lt_is_Some_2 h (length h') ltac:(lia)) as [o Ho].
  apply Hab in Ho. apply lookup_lt_Some in Ho. lia.
Qed.

Lemma above_lookup h h' l : above h h' → (l < length h)%nat → h' !! l = h !! l.
Proof.
  intros Hab Hl. destruct (lookup_lt_is_Some_2 h l Hl) as [o Ho].
  by rewrite Ho, (Hab l o Ho).
Qed.

Lemma keeps_above p h h' : keeps p h h' → (length h ≤ p)%nat → above h h'.
Proof.
  intros [_ Hk] Hp l o Hl. rewrite Hk; [done|].
  apply lookup_lt_Some in Hl. lia.
Qed.

Lemma stored_above h h' l t : above h h' → stored h l t → stored h' l t.
Proof. intros Hab (o & Ho & Ht). exists o. split; [by apply Hab|done]. Qed.

Lemma readTree_mono d d' h l t :
  (d ≤ d')%nat → Store.readTree d h l = Some t → Store.readTree d' h l = Some t.
Proof.
  revert d' l t. induction d as [|d IH]; intros d' l t Hd H; [done|].
  destruct d' as [|d']; [lia|]. simpl in *.
  destruct (h !! l) as [o|]; [|done].
  destruct (Store.childrenRef o) as [cs|]; [|done].
  destruct (mapM (Store.readTree d h) cs) as [ts|] eqn:Hts; [|done].
  apply mapM_Some in Hts.
  assert (mapM (Store.readTree d' h) cs = Some ts) as ->; [|done].
  apply mapM_Some. eapply Forall2_impl; [exact Hts|].
  intros c t'. apply IH. lia.
Qed.

Lemma readsAs_mono d d' h hi l t :
  (d ≤ d')%nat → readsAs d h hi l t → readsAs d' h hi l t.
Proof. intros Hd H h' Hh'. eapply readTree_mono; [exact Hd|by apply H]. Qed.

Lemma readsAs_agree d h h' hi hi' l t :
  (∀ x, (l ≤ x < hi)%nat → h' !! x = h !! x) → (hi ≤ hi')%nat →
  readsAs d h hi l t → readsAs d h' hi' l t.
Proof.
  intros Hag Hhi H h'' Hh''. apply H. intros x Hx.
  rewrite Hh'' by lia. by apply Hag.
Qed.

Lemma readsAs_read d h hi l t : readsAs d h hi l t → Store.readTree d h l = Some t.
Proof. intros H. by apply H. Qed.

Lemma readsAs_leaf d h p pr :
  h !! p = Some (Store.mkObj pr (Some [])) →
  readsAs (S d) h (S p) p (set_children [] pr).
Proof. intros Hp h' Hh'. simpl. rewrite Hh' by lia. by rewrite Hp. Qed.

Lemma readAll_stored ls ts h :
  Forall2 (stored h) ls ts → Store.readAll ls h = Some (zip ls ts).
Proof.
  intros H. unfold Store.readAll. apply mapM_Some.
  induction H as [|l t ls ts (o & Ho & Ht) _ IH]; simpl; constructor; [|done].
  rewrite Ho. simpl. by rewrite Ht.
Qed.

Lemma Forall2_stored_above h h' ls ts :
  above h h' → Forall2 (stored h) ls ts → Forall2 (stored h') ls ts.
Proof.
  intros Hab H. eapply Forall2_impl; [exact H|]. intros l t. by apply stored_above.
Qed.

Lemma zip_filter_snd (P : Tweet.t → Prop) `{∀ t, Decision (P t)}
    (ls : list Store.loc) (ts : list Tweet.t) :
  length ls = length ts →
  (filter (fun x : Store.loc * Tweet.t => P x.2) (zip ls ts)).*2 = filter P ts.
Proof.
  intros Hlen. rewrite <- (snd_zip ls ts) at 2 by lia.
  by rewrite filter_fmap.
Qed.


Lemma jsfind_fmap {A B} (f : A → B) (p : B → bool) (l : list A) :
  jsfind p (f <$> l) = f <$> jsfind (fun x => p (f x)) l.
Proof.
  unfold jsfind. rewrite list_find_fmap.
  by destruct (list_find _ l) as [[i x]|].
Qed.

(** Trees read in [h] are read in a store above [h]. *)
Lemma readsAs_above d lo lo' h h' (cs : list Store.loc) (ts : list Tweet.t) :
  above h h' → (lo' ≤ lo)%nat →
  Forall2 (fun c t => (lo ≤ c)%nat ∧ readsAs d h (length h) c t) cs ts →
  Forall2 (fun c t => (lo' ≤ c)%nat ∧ readsAs d h' (length h') c t) cs ts.
Proof.
  intros Hab Hlo H. eapply Forall2_impl; [exact H|].
  intros c t [Hc Hr]. split; [lia|].
  eapply readsAs_agree; [|by apply above_length|exact Hr].
  intros x Hx. apply above_lookup; [done|lia].
Qed.

Lemma mapAgrees_above tm tmv h h' : above h h' → mapAgrees tm tmv h → mapAgrees tm tmv h'.
Proof.
  intros Hab H i. specialize (H i). destruct (tm !! i) as [c|]; [|done].
  destruct H as (o & Ho & Hv). exists o. split; [by apply Hab|done].
Qed.

(** The loop filling [tweetMap] builds the table of the value model. *)
Lemma fillTweetMap_sim (tweets : list Store.loc) (tweetsV : list Tweet.t) tm tmv h :
  Forall2 (stored h) tweets tweetsV → mapAgrees tm tmv h →
  ∃ tm' h', Store.fillTweetMap tweets tm h = Some (tm', h')
            ∧ above h h' ∧ mapAgrees tm' (foldl setCopy tmv tweetsV) h'.
Proof.
  revert tweetsV tm tmv h.
  induction tweets as [|l ls IH]; intros tweetsV tm tmv h Hst Hag.
  - apply Forall2_nil_inv_l in Hst as ->.
    exists tm, h. split_and!; [done|apply above_refl|done].
  - apply Forall2_cons_inv_l in Hst as (t & ts & (o & Ho & Ht) & Hst & ->).
    cbn [Store.fillTweetMap foldl]. rewrite Ho, Ht. unfold setCopy at 2.
    destruct (Tweet.id t) as [i|] eqn:Hid; [destruct (truthy i) eqn:Hi|]; [|by apply IH..].
    unfold Store.newCopy. rewrite Ho.
    set (h1 := h ++ [Store.mkObj (Store.props o) (Some [])]).
    assert (above h h1) as Hab by apply above_app.
    destruct (IH ts (<[i := length h]> tm) (<[i := copyOf (Some t)]> tmv) h1)
      as (tm' & h' & -> & Hab' & Hag').
    + by eapply Forall2_stored_above.
    + intros j. destruct (decide (i = j)) as [<-|Hne].
      * rewrite !lookup_insert_eq. eexists. split.
        -- unfold h1. by rewrite lookup_app_r, Nat.sub_diag by lia.
        -- simpl. by rewrite Ht.
      * rewrite !lookup_insert_ne by done. by apply (mapAgrees_above tm tmv h h1).
    + exists tm', h'. split_and!; [done|by eapply above_trans|done].
Qed.

(** Grouping the references groups the values. *)
Lemma pushTo_sim (R : Store.loc → Tweet.t → Prop) k l t
    (mL : list (string * list Store.loc)) (mV : ConversationMap) :
  R l t →
  Forall2 (fun eL eV => eL.1 = eV.1 ∧ Forall2 R eL.2 eV.2) mL mV →
  Forall2 (fun eL eV => eL.1 = eV.1 ∧ Forall2 R eL.2 eV.2)
    (Store.pushTo k l mL) (pushTo k t mV).
Proof.
  intros Hlt H. induction H as [|[kL tsL] [kV tsV] mL mV [Hk Hts] Hm IH]; simpl in *.
  - constructor; [|constructor]. split; [done|]. simpl. by constructor.
  - subst kV. case_decide.
    + constructor; [|done]. split; [done|]. simpl.
      apply Forall2_app; [done|by constructor].
    + by constructor.
Qed.

Lemma groupByConversation_sim (R : Store.loc → Tweet.t → Prop)
    (read : list (Store.loc * Tweet.t)) :
  Forall (fun tw => R tw.1 tw.2) read →
  Forall2 (fun eL eV => eL.1 = eV.1 ∧ Forall2 R eL.2 eV.2)
    (Store.groupByConversation read).1 (groupByConversation read.*2).1
  ∧ Forall2 R (Store.groupByConversation read).2 (groupByConversation read.*2).2.
Proof.
  unfold Store.groupByConversation, groupByConversation.
  induction read as [|[l t] read IH] using rev_ind; intros Hread.
  - split; constructor.
  - apply Forall_app in Hread as [Hread Hlt]. rewrite Forall_singleton in Hlt.
    destruct (IH Hread) as [IH1 IH2].
    rewrite fmap_app, !foldl_app. cbn [fmap list_fmap foldl].
    destruct (foldl Store.groupStepConv _ read) as [mL oL].
    destruct (foldl groupStepConv _ read.*2) as [mV oV].
    unfold Store.groupStepConv, groupStepConv. cbn [fst snd] in *.
    destruct (Tweet.conversationId t) as [c|]; [destruct (truthy c)|]; cbn [fst snd].
    + split; [by apply pushTo_sim|done].
    + split; [done|]. apply Forall2_app; [done|by constructor].
    + split; [done|]. apply Forall2_app; [done|by constructor].
Qed.

Section StoreRefines.
Variable h0 : Store.Heap.
Variable tm : gmap string Store.loc.
Variable tmv : gmap string Tweet.t.
Hypothesis tm_agrees : mapAgrees tm tmv h0.

(** The copy taken from the table is the copy of the value model. *)
Lemma newCopy_sim id h :
  above h0 h →
  ∃ pr, Store.newCopy (Store.getRef tm id) h
        = Some (length h, h ++ [Store.mkObj pr (Some [])])
        ∧ copyOf (getCopy tmv id) = set_children [] pr.
Proof.
  intros Hab. unfold Store.newCopy, Store.getRef, getCopy.
  destruct id as [i|]; simpl.
  - pose proof (tm_agrees i) as Hi. destruct (tm !! i) as [c|].
    + destruct Hi as (o & Ho & ->). rewrite (Hab c o Ho).
      by exists (Store.props o).
    + rewrite Hi. by exists emptyTweet.
  - by exists emptyTweet.
Qed.

Lemma copyAndAttach_sim d attach attachV (tweet : Store.loc * Tweet.t) P h out P' :
  attachSim h0 d attach attachV → above h0 h →
  stored h0 tweet.1 tweet.2 →
  attachV (copyOf (getCopy tmv (Tweet.id tweet.2))) P = Some (out, P') →
  ∃ h', Store.copyAndAttach attach tm tweet (P, h) = Some (length h, (P', h'))
        ∧ above h h' ∧ readsAs d h' (length h') (length h) out.
Proof.
  intros Hsim Hab (o & Ho & Ht) HV. unfold Store.copyAndAttach. simpl.
  rewrite (Hab _ _ Ho), Ht.
  destruct (newCopy_sim (Tweet.id tweet.2) h Hab) as (pr & -> & Hpr).
  rewrite Hpr in HV.
  destruct (Hsim (length h) pr P (h ++ [Store.mkObj pr (Some [])]) out P')
    as (h' & -> & Hk & Hr); [| | | |done|].
  - eapply above_trans; [exact Hab|apply above_app].
  - rewrite length_app. simpl. lia.
  - by apply above_length.
  - by rewrite lookup_app_r, Nat.sub_diag by lia.
  - exists h'. split_and!; [done| |done].
    intros l o' Hl. destruct Hk as [_ Hk].
    rewrite Hk by (by apply lookup_lt_Some in Hl). by apply lookup_app_l_Some.
Qed.

Lemma copyAll_sim d attach attachV (tweets : list (Store.loc * Tweet.t)) P h outs P' :
  attachSim h0 d attach attachV → above h0 h →
  Forall (fun tw => stored h0 tw.1 tw.2) tweets →
  mapState (fun child => attachV (copyOf (getCopy tmv (Tweet.id child))))
    tweets.*2 P = Some (outs, P') →
  ∃ cs h', mapState (Store.copyAndAttach attach tm) tweets (P, h) = Some (cs, (P', h'))
           ∧ above h h'
           ∧ Forall2 (fun c t => (length h ≤ c)%nat ∧ readsAs d h' (length h') c t)
               cs outs.
Proof.
  intros Hsim. revert P h outs.
  induction tweets as [|tw tweets IH]; intros P h outs Hab Hst HV.
  - injection HV as <- <-. exists [], h. split_and!; [done|apply above_refl|constructor].
  - rewrite fmap_cons in HV. cbn [mapState] in HV.
    destruct (attachV _ P) as [[out P1]|] eqn:Hout; [|done].
    destruct (mapState _ tweets.*2 P1) as [[outs1 P2]|] eqn:Houts; [|done].
    injection HV as <- <-.
    apply Forall_cons in Hst as [Htw Hst].
    destruct (copyAndAttach_sim d attach attachV tw P h out P1 Hsim Hab Htw Hout)
      as (h1 & Hc & Hab1 & Hr).
    destruct (IH P1 h1 outs1) as (cs & h' & Hcs & Hab2 & Hrs);
      [by eapply above_trans|done|done|].
    exists (length h :: cs), h'. cbn [mapState]. rewrite Hc, Hcs.
    pose proof (above_length _ _ Hab1). pose proof (above_length _ _ Hab2).
    split_and!; [done|by eapply above_trans|]. constructor.
    + split; [done|]. eapply readsAs_agree; [|exact H0|exact Hr].
      intros x Hx. apply above_lookup; [done|lia].
    + eapply Forall2_impl; [exact Hrs|]. intros c t [Hc1 Hc2]. split; [lia|done].
Qed.

Lemma attach_sim fuel (convL : list Store.loc) (convV : list Tweet.t) :
  Forall2 (stored h0) convL convV →
  attachSim h0 fuel (Store.attachChildren fuel convL tm) (attachChildren fuel convV tmv).
Proof.
  intros Hconv. induction fuel as [|fuel IH]; intros p pr P h out P' Hab Hlen Hp Hobj HV;
    [done|].
  cbn [attachChildren] in HV. cbn [Store.attachChildren]. 
  change (Tweet.id (set_children [] pr)) with (Tweet.id pr) in HV.
  cbn [snd fst]. rewrite Hobj. cbn [Store.props].
  destruct (decide (Tweet.id pr ∈ P)) as [Hin|Hin].
  { injection HV as <- <-. exists h. split_and!; [done|apply keeps_refl|].
    rewrite Hlen. by apply readsAs_leaf. }
  rewrite (readAll_stored convL convV h) by (by eapply Forall2_stored_above).
  pose proof (zip_filter_snd (fun t => Is_true (repliesTo (Tweet.id pr) t))
                convL convV (Forall2_length _ _ _ Hconv)) as Hfilter.
  assert (Forall (fun tw : Store.loc * Tweet.t => stored h0 tw.1 tw.2)
            (filter (fun x : Store.loc * Tweet.t =>
                       Is_true (repliesTo (Tweet.id pr) x.2)) (zip convL convV)))
    as Hst.
  { apply Forall_forall. intros [l t] [_ Hlt]%list_elem_of_filter.
    apply list_elem_of_lookup in Hlt as [i Hi].
    apply lookup_zip_Some in Hi as [Hl Ht]. simpl.
    by eapply Forall2_lookup_lr. }
  destruct (filter _ (zip convL convV)) as [|cl rest] eqn:HchL.
  { rewrite <- Hfilter in HV. injection HV as <- <-.
    exists h. split_and!; [done|apply keeps_refl|].
    rewrite Hlen. by apply readsAs_leaf. }
  rewrite <- Hfilter in HV. rewrite fmap_cons in HV. rewrite <- fmap_cons in HV.
  destruct (mapState _ (cl :: rest).*2 _) as [[outs P1]|] eqn:Houts; [|done].
  injection HV as <- <-.
  destruct (copyAll_sim fuel _ _ (cl :: rest) _ h outs P1 IH Hab Hst Houts)
    as (cs & h' & -> & Hab' & Hrs).
  cbn [snd fst]. unfold Store.setChildren.
  pose proof (above_length _ _ Hab') as Hlen'.
  assert (h' !! p = Some (Store.mkObj pr (Some []))) as Hobj'.
  { by apply Hab'. }
  rewrite Hobj'. cbn [Store.props].
  eexists. split_and!; [done| |].
  - split; [rewrite length_insert; lia|].
    intros l Hl. rewrite list_lookup_insert_ne by lia.
    apply above_lookup; [done|lia].
  - intros h3 Hh3. rewrite length_insert in Hh3. cbn [Store.readTree].
    rewrite Hh3 by lia. rewrite list_lookup_insert_eq by lia.
    cbn [Store.childrenRef Store.props].
    assert (mapM (Store.readTree fuel h3) cs = Some outs) as ->; [|done].
    apply mapM_Some. eapply Forall2_impl; [exact Hrs|].
    intros c t [Hc Hr]. apply Hr. intros x Hx.
    rewrite Hh3 by lia. apply list_lookup_insert_ne. lia.
Qed.

Lemma buildConversation_sim fuel (convL : list Store.loc) (convV : list Tweet.t) h trees :
  Forall2 (stored h0) convL convV → above h0 h →
  buildConversation fuel tmv convV = Some trees →
  ∃ roots h', Store.buildConversation fuel tm convL h = Some (roots, h')
              ∧ above h h'
              ∧ Forall2 (fun c t => (length h ≤ c)%nat ∧ readsAs fuel h' (length h') c t)
                  roots trees.
Proof.
  intros Hconv Hab HV. unfold buildConversation in HV. unfold Store.buildConversation.
  rewrite (readAll_stored convL convV h) by (by eapply Forall2_stored_above).
  pose proof (Forall2_length _ _ _ Hconv) as Hlen.
  assert ((fun t : Store.loc * Tweet.t => Tweet.id t.2) <$> zip convL convV
          = Tweet.id <$> convV) as ->.
  { rewrite <- (snd_zip convL convV) at 2 by lia. by rewrite <- list_fmap_compose. }
  set (ids := list_to_set (Tweet.id <$> convV) : gset (option string)) in *.
  pose proof (zip_filter_snd (fun t => Is_true (isRootIn ids t)) convL convV Hlen)
    as Hfilter.
  assert (Forall (fun tw : Store.loc * Tweet.t => stored h0 tw.1 tw.2)
            (filter (fun x : Store.loc * Tweet.t => Is_true (isRootIn ids x.2))
               (zip convL convV))) as Hst.
  { apply Forall_forall. intros [l t] [_ Hlt]%list_elem_of_filter.
    apply list_elem_of_lookup in Hlt as [i Hi].
    apply lookup_zip_Some in Hi as [Hl Ht]. simpl.
    by eapply Forall2_lookup_lr. }
  rewrite <- Hfilter in HV.
  destruct (mapState _ _ ∅) as [[outs P1]|] eqn:Houts; [|done].
  injection HV as <-.
  destruct (copyAll_sim fuel _ _ _ _ h outs P1 (attach_sim fuel convL convV Hconv)
              Hab Hst Houts) as (cs & h' & -> & Hab' & Hrs).
  by exists cs, h'.
Qed.

Lemma buildConversations_sim fuel (cmL : list (string * list Store.loc))
    (cmV : ConversationMap) h trees :
  Forall2 (fun eL eV => eL.1 = eV.1 ∧ Forall2 (stored h0) eL.2 eV.2) cmL cmV →
  above h0 h →
  mapM (fun c => buildConversation fuel tmv c.2) cmV = Some trees →
  ∃ roots h', Store.buildConversations fuel tm cmL h = Some (roots, h')
              ∧ above h h'
              ∧ Forall2 (fun c t => (length h ≤ c)%nat ∧ readsAs fuel h' (length h') c t)
                  roots (mjoin trees).
Proof.
  intros Hcm. revert h trees.
  induction Hcm as [|[kL convL] [kV convV] cmL cmV [_ Hconv] _ IH];
    intros h trees Hab HV.
  - injection HV as <-. exists [], h. split_and!; [done|apply above_refl|constructor].
  - apply mapM_Some in HV.
    apply Forall2_cons_inv_l in HV as (ts & trees' & Hts & HV & ->).
    apply mapM_Some in HV. cbn [snd] in *.
    destruct (buildConversation_sim fuel convL convV h ts Hconv Hab Hts)
      as (roots & h1 & Hb & Hab1 & Hr1).
    destruct (IH h1 trees') as (roots' & h2 & Hbs & Hab2 & Hr2);
      [by eapply above_trans|done|].
    exists (roots ++ roots'), h2. cbn [Store.buildConversations]. rewrite Hb, Hbs.
    split_and!; [done|by eapply above_trans|].
    change (mjoin (ts :: trees')) with (ts ++ mjoin trees'). apply Forall2_app.
    + by eapply readsAs_above.
    + eapply Forall2_impl; [exact Hr2|]. intros c t [Hc Hr]. split; [|done].
      pose proof (above_length _ _ Hab1). lia.
Qed.

Lemma orphanRoots_sim (tweets : list Store.loc) (tweetsV : list Tweet.t) cmV l t h :
  length tweets = length tweetsV → above h0 h → stored h0 l t →
  ∃ roots h', Store.orphanRoots (zip tweets tweetsV) tm l h = Some (roots, h')
              ∧ above h h'
              ∧ Forall2 (fun c t' => (length h ≤ c)%nat ∧ readsAs 1 h' (length h') c t')
                  roots (orphanRoots tweetsV tmv cmV t).
Proof.
  intros Hlen Hab (o & Ho & Ht). unfold Store.orphanRoots, orphanRoots.
  rewrite (Hab _ _ Ho), Ht.
  destruct (newCopy_sim (Tweet.id t) h Hab) as (pr & -> & Hpr). rewrite Hpr.
  assert (∃ roots h',
    Some ([length h], h ++ [Store.mkObj pr (Some [])]) = Some (roots, h')
    ∧ above h h'
    ∧ Forall2 (fun c t' => (length h ≤ c)%nat ∧ readsAs 1 h' (length h') c t')
        roots [set_children [] pr]) as Hpush.
  { eexists _, _. split_and!; [done|apply above_app|].
    constructor; [|constructor]. split; [done|].
    rewrite length_app. simpl. rewrite Nat.add_1_r.
    apply readsAs_leaf. by rewrite lookup_app_r, Nat.sub_diag by lia. }
  assert (∃ roots h',
    Some ([], h) = Some (roots, h') ∧ above h h'
    ∧ Forall2 (fun c t' => (length h ≤ c)%nat ∧ readsAs 1 h' (length h') c t')
        roots ([] : list Tweet.t)) as Hskip.
  { exists [], h. split_and!; [done|apply above_refl|constructor]. }
  destruct (negb (truthy (Tweet.isReply t)) || negb (truthy (Tweet.inReplyToId t)));
    [done|].
  assert (jsfind (fun t0 => bool_decide (Tweet.id t0 = Tweet.inReplyToId t)) tweetsV
          = snd <$> jsfind (fun p : Store.loc * Tweet.t =>
                              bool_decide (Tweet.id p.2 = Tweet.inReplyToId t))
                      (zip tweets tweetsV)) as ->.
  { etrans; [|exact (jsfind_fmap snd
                       (fun t0 => bool_decide (Tweet.id t0 = Tweet.inReplyToId t))
                       (zip tweets tweetsV))].
    by rewrite snd_zip by lia. }
  destruct (jsfind _ (zip tweets tweetsV)) as [parentTweet|]; [|done]. simpl.
  destruct (truthy (Tweet.conversationId parentTweet.2)); [|done].
  by destruct (getConversation _ _).
Qed.

Lemma pushOrphans_sim (tweets : list Store.loc) (tweetsV : list Tweet.t) cmV
    (orphL : list Store.loc) (orphV : list Tweet.t) h :
  length tweets = length tweetsV → Forall2 (stored h0) orphL orphV → above h0 h →
  ∃ roots h', Store.pushOrphans (zip tweets tweetsV) tm orphL h = Some (roots, h')
              ∧ above h h'
              ∧ Forall2 (fun c t' => (length h ≤ c)%nat ∧ readsAs 1 h' (length h') c t')
                  roots (orphV ≫= orphanRoots tweetsV tmv cmV).
Proof.
  intros Hlen Horph. revert h.
  induction Horph as [|l t orphL orphV Hlt _ IH]; intros h Hab.
  - exists [], h. split_and!; [done|apply above_refl|constructor].
  - destruct (orphanRoots_sim tweets tweetsV cmV l t h Hlen Hab Hlt)
      as (roots & h1 & Ho & Hab1 & Hr1).
    destruct (IH h1) as (roots' & h2 & Hos & Hab2 & Hr2); [by eapply above_trans|].
    exists (roots ++ roots'), h2. cbn [Store.pushOrphans]. rewrite Ho, Hos.
    split_and!; [done|by eapply above_trans|].
    rewrite bind_cons. apply Forall2_app.
    + by eapply readsAs_above.
    + eapply Forall2_impl; [exact Hr2|]. intros c t' [Hc Hr]. split; [|done].
      pose proof (above_length _ _ Hab1). lia.
Qed.

End StoreRefines.

(** The store model refines the value model: where the function on values
    returns a forest, the function on the store returns roots below which
    that forest is read. *)
Theorem store_refines fuel (tweets : list Store.loc) (tweetsV : list Tweet.t) h forest :
  Forall2 (stored h) tweets tweetsV →
  organizeTweetsIntoThreads_fuel fuel tweetsV = Some forest →
  ∃ roots h',
    Store.organizeTweetsIntoThreads fuel tweets h = Some (roots, h')
    ∧ mapM (Store.readTree (S fuel) h') roots = Some forest.
Proof.
  intros Hst HV. unfold organizeTweetsIntoThreads_fuel in HV.
  unfold Store.organizeTweetsIntoThreads.
  destruct (fillTweetMap_sim tweets tweetsV ∅ ∅ h Hst) as (tm & h0 & -> & Hab0 & Hag).
  { intros i. by rewrite !lookup_empty. }
  fold (copyMap tweetsV) in Hag.
  pose proof (Forall2_stored_above _ _ _ _ Hab0 Hst) as Hst0.
  pose proof (Forall2_length _ _ _ Hst) as Hlen.
  rewrite (readAll_stored tweets tweetsV h0 Hst0).
  destruct (groupByConversation_sim (stored h0) (zip tweets tweetsV)) as [Hcm Horph].
  { apply Forall_forall. intros [l t] Hlt.
    apply list_elem_of_lookup in Hlt as [i Hi].
    apply lookup_zip_Some in Hi as [Hl Ht]. simpl. by eapply Forall2_lookup_lr. }
  rewrite snd_zip in Hcm, Horph by lia.
  destruct (Store.groupByConversation (zip tweets tweetsV)) as [cmL orphL].
  destruct (groupByConversation tweetsV) as [cmV orphV]. cbn [fst snd] in *.
  destruct (mapM _ cmV) as [trees|] eqn:Htrees; [|done]. injection HV as <-.
  destruct (buildConversations_sim h0 tm (copyMap tweetsV) Hag fuel cmL cmV h0 trees
              Hcm (above_refl h0) Htrees) as (roots & h2 & -> & Hab2 & Hr2).
  rewrite (readAll_stored tweets tweetsV h2) by (by eapply Forall2_stored_above).
  destruct (pushOrphans_sim h0 tm (copyMap tweetsV) Hag tweets tweetsV cmV orphL orphV h2
              Hlen Horph Hab2) as (roots' & h3 & -> & Hab3 & Hr3).
  exists (roots ++ roots'), h3. split; [done|].
  apply mapM_Some, Forall2_app.
  - eapply Forall2_impl; [exact (readsAs_above _ _ 0%nat _ _ _ _ Hab3 ltac:(lia) Hr2)|].
    intros c t [_ Hr]. eapply readTree_mono; [|by eapply readsAs_read]. lia.
  - eapply Forall2_impl; [exact Hr3|].
    intros c t [_ Hr]. eapply readTree_mono; [|by eapply readsAs_read]. lia.
Qed.

(** With the fuel of [organizeTweetsIntoThreads], the forest read from the
    store is the forest of the value model. *)
Corollary store_organize_agrees (tweets : list Store.loc) (tweetsV : list Tweet.t) h :
  Forall2 (stored h) tweets tweetsV →
  ∃ roots h',
    Store.organizeTweetsIntoThreads (enoughFuel tweetsV) tweets h = Some (roots, h')
    ∧ mapM (Store.readTree (S (enoughFuel tweetsV)) h') roots
      = Some (organizeTweetsIntoThreads tweetsV).
Proof.
  intros Hst. unfold organizeTweetsIntoThreads.
  destruct (organize_fuel_total (enoughFuel tweetsV) tweetsV) as [forest Hf]; [done|].
  rewrite Hf. simpl. by apply (store_refines _ tweets tweetsV).
Qed.

(** * Further properties of the code *)

(** ** The normalizer *)

Lemma truthy_jsor `{Truthy A} (a b : option A) :
  truthy (a ||| b) = truthy a || truthy b.
Proof. unfold jsor. by destruct (truthy a) eqn:Ha. Qed.

Lemma or_undefined_Some `{Truthy A} (x : option A) (v : A) :
  or_undefined x = Some v → x = Some v ∧ truthy v = true.
Proof.
  unfold or_undefined. destruct (truthy x) eqn:Hx; [|done].
  intros ->. done.
Qed.

Lemma or_undefined_is_Some `{Truthy A} (x : option A) :
  is_Some (or_undefined x) ↔ truthy x = true.
Proof.
  unfold or_undefined. destruct (truthy x) eqn:Hx.
  - split; [done|]. intros _. by apply truthy_is_Some.
  - split; [by intros [? ?]|done].
Qed.

(** X1: a normalized record whose raw record has no [isReply] flag is
    flagged as a reply exactly when it has an [inReplyToId]; and an
    [inReplyToId] is never the empty string. *)
Theorem normalized_reply_flag (raw : Raw.t) (p : Tweet.t) :
  processRawTweet (Some raw) = Some p → Raw.isReply raw = None →
  Tweet.isReply p = Some (bool_decide (is_Some (Tweet.inReplyToId p)))
  ∧ (∀ i, Tweet.inReplyToId p = Some i → truthy i = true).
Proof.
  unfold processRawTweet. destruct (negb (truthy (Raw.id raw))); [done|].
  intros [= <-] Hflag. cbn [Tweet.isReply Tweet.inReplyToId].
  split; [|intros i Hi; by apply or_undefined_Some in Hi as [_ ?]].
  unfold isReplyOf. rewrite Hflag. f_equal.
  assert (truthy (Raw.inReplyToId raw ||| replyId7 raw) = truthy (replyId7 raw)) as Heq.
  { rewrite truthy_jsor. destruct (truthy (Raw.inReplyToId raw)) eqn:Hi; [|done].
    unfold replyId7. by rewrite truthy_jsor, Hi, orb_true_r. }
  destruct (truthy (replyId7 raw)) eqn:Hr; symmetry.
  - apply bool_decide_eq_true, or_undefined_is_Some. by rewrite Heq.
  - apply bool_decide_eq_false. rewrite or_undefined_is_Some, Heq. done.
Qed.

Lemma normalized_reply_flag_witness :
  let p := default emptyTweet (processRawTweet (Some (rawB "b" "2002"))) in
  Tweet.isReply p = Some (bool_decide (is_Some (Tweet.inReplyToId p)))
  ∧ (∀ i, Tweet.inReplyToId p = Some i → truthy i = true).
Proof. apply (normalized_reply_flag (rawB "b" "2002")); reflexivity. Defined.

(** The snapshot of a raw record shows the same content as the record the
    normalizer makes of it. *)
Lemma snapshot_shows_normalized (raw : Raw.t) (p : Tweet.t) :
  processRawTweet (Some raw) = Some p →
  ∃ s, createCleanRepliedToTweet (Some raw) = Some s ∧ sameDisplay s p.
Proof.
  unfold processRawTweet. destruct (negb (truthy (Raw.id raw))); [done|].
  intros [= <-]. eexists. split; [reflexivity|]. by repeat split.
Qed.

Lemma sameDisplay_refl a : sameDisplay a a.
Proof. by repeat split. Qed.

Lemma sameDisplay_sym a b : sameDisplay a b → sameDisplay b a.
Proof. unfold sameDisplay. intros H. by destruct_and!. Qed.

Lemma sameDisplay_trans a b c : sameDisplay a b → sameDisplay b c → sameDisplay a c.
Proof.
  unfold sameDisplay. intros H1 H2. destruct_and!. split_and!; congruence.
Qed.

Lemma regrouped_sameDisplay a b : regrouped a b → sameDisplay a b.
Proof. intros [->|[c ->]]; by repeat split. Qed.

Lemma sameDisplay_set_source s a : sameDisplay a (set_source s a).
Proof. by repeat split. Qed.


(** ** The reply resolver *)

Section LookupTable.
Variable step : gmap string Raw.t → Raw.t → gmap string Raw.t.
Hypothesis step_sound : ∀ m t i x,
  step m t !! i = Some x → m !! i = Some x ∨ (x = t ∧ Raw.id t = Some i).
Hypothesis step_keeps : ∀ m t i, is_Some (m !! i) → is_Some (step m t !! i).
Hypothesis step_adds : ∀ m t i,
  Raw.id t = Some i → truthy i = true → is_Some (step m t !! i).

Lemma foldl_step_sound m (l : list Raw.t) i x :
  foldl step m l !! i = Some x → m !! i = Some x ∨ (x ∈ l ∧ Raw.id x = Some i).
Proof.
  revert m. induction l as [|t l IH]; intros m H; simpl in H; [by left|].
  destruct (IH _ H) as [H1|[H1 H2]].
  - destruct (step_sound _ _ _ _ H1) as [?|[-> ?]]; [by left|].
    right. split; [by left|done].
  - right. split; [by right|done].
Qed.

Lemma foldl_step_keeps m (l : list Raw.t) i :
  is_Some (m !! i) → is_Some (foldl step m l !! i).
Proof. revert m. induction l as [|t l IH]; intros m H; simpl; auto. Qed.

Lemma foldl_step_adds m (l : list Raw.t) i x :
  x ∈ l → Raw.id x = Some i → truthy i = true → is_Some (foldl step m l !! i).
Proof.
  revert m. induction l as [|t l IH]; intros m Hx Hid Hi; [by apply elem_of_nil in Hx|].
  apply elem_of_cons in Hx as [->|Hx]; simpl.
  - by apply foldl_step_keeps, step_adds.
  - by apply IH.
Qed.

End LookupTable.

Lemma setIfId_sound m t i x :
  setIfId m t !! i = Some x → m !! i = Some x ∨ (x = t ∧ Raw.id t = Some i).
Proof.
  unfold setIfId. destruct (Raw.id t) as [j|]; [|by left].
  destruct (truthy j); [|by left].
  destruct (decide (j = i)) as [->|Hne].
  - rewrite lookup_insert_eq. intros [= <-]. by right.
  - rewrite lookup_insert_ne by done. by left.
Qed.

Lemma setIfId_keeps m t i : is_Some (m !! i) → is_Some (setIfId m t !! i).
Proof.
  unfold setIfId. destruct (Raw.id t) as [j|]; [|done].
  destruct (truthy j); [|done]. intros H.
  destruct (decide (j = i)) as [->|Hne].
  - by rewrite lookup_insert_eq.
  - by rewrite lookup_insert_ne.
Qed.

Lemma setIfId_adds m t i :
  Raw.id t = Some i → truthy i = true → is_Some (setIfId m t !! i).
Proof. unfold setIfId. intros -> ->. by rewrite lookup_insert_eq. Qed.

Lemma setIfNew_sound m t i x :
  setIfNew m t !! i = Some x → m !! i = Some x ∨ (x = t ∧ Raw.id t = Some i).
Proof.
  unfold setIfNew. destruct (Raw.id t) as [j|]; [|by left].
  destruct (truthy j); [|by left].
  destruct (m !! j) eqn:Hj; [by left|].
  destruct (decide (j = i)) as [->|Hne].
  - rewrite lookup_insert_eq. intros [= <-]. by right.
  - rewrite lookup_insert_ne by done. by left.
Qed.

Lemma setIfNew_keeps m t i : is_Some (m !! i) → is_Some (setIfNew m t !! i).
Proof.
  unfold setIfNew. destruct (Raw.id t) as [j|]; [|done].
  destruct (truthy j); [|done]. destruct (m !! j) eqn:Hj; [done|]. intros H.
  destruct (decide (j = i)) as [->|Hne].
  - by rewrite lookup_insert_eq.
  - by rewrite lookup_insert_ne.
Qed.

Lemma setIfNew_adds m t i :
  Raw.id t = Some i → truthy i = true → is_Some (setIfNew m t !! i).
Proof.
  unfold setIfNew. intros -> ->. destruct (m !! i) eqn:Hi; [by rewrite Hi|].
  by rewrite lookup_insert_eq.
Qed.

(** The lookup table holds, under an id, a record of one of the three
    batches that carries this id. *)
Lemma buildTweetMap_sound includesTweets repliedToTweets rawTweets i x :
  buildTweetMap includesTweets repliedToTweets rawTweets !! i = Some x →
  x ∈ rawTweets ++ includesTweets ++ repliedToTweets ∧ Raw.id x = Some i.
Proof.
  unfold buildTweetMap. intros H.
  apply (foldl_step_sound _ setIfNew_sound) in H as [H|[H ?]].
  - apply (foldl_step_sound _ setIfId_sound) in H as [H|[H ?]].
    + by rewrite lookup_empty in H.
    + split; [|done]. apply elem_of_app. by right.
  - split; [|done]. apply elem_of_app. by left.
Qed.

(** Every non-empty id carried by a record of one of the three batches is in
    the lookup table. *)
Lemma buildTweetMap_complete includesTweets repliedToTweets rawTweets i x :
  x ∈ rawTweets ++ includesTweets ++ repliedToTweets → Raw.id x = Some i →
  truthy i = true →
  is_Some (buildTweetMap includesTweets repliedToTweets rawTweets !! i).
Proof.
  unfold buildTweetMap. intros [Hx|Hx]%elem_of_app Hid Hi.
  - by eapply (foldl_step_adds _ setIfNew_keeps setIfNew_adds).
  - apply (foldl_step_keeps _ setIfNew_keeps).
    by eapply (foldl_step_adds _ setIfId_keeps setIfId_adds).
Qed.

Lemma regrouped_repliedTo a b : regrouped a b → Tweet.repliedTo b = Tweet.repliedTo a.
Proof. by intros [->|[c ->]]. Qed.

(** The primary record at position [i] of the merged set is the record the
    [map] callback made of the raw record at position [i], up to its
    conversation id. *)
Lemma mergeBatches_main_lookup rawTweets includesTweets repliedToTweets i tweet :
  rawTweets !! i = Some tweet →
  ∃ t, processedMainTweets (mergeBatches rawTweets includesTweets repliedToTweets) !! i
       = Some t
       ∧ regrouped (processMainTweet
                      (buildTweetMap includesTweets repliedToTweets rawTweets)
                      rawTweets tweet) t.
Proof.
  intros Hi.
  destruct (mergeBatches_spec rawTweets includesTweets repliedToTweets) as [Hmain _].
  eapply Forall2_lookup_l in Hmain as (t & Ht & Hr); [|by rewrite list_lookup_fmap, Hi].
  by exists t.
Qed.

(** X3: reply resolution by the first id is complete.  The resolver reads
    six id properties in a fixed order and takes the first that is not
    empty.  When that id is carried by some record of the response (in any
    of the three batches), the record of the merged set has a [repliedTo]
    snapshot.  (An id in a later one of the six properties is not looked
    up.) *)
Theorem reply_target_resolved rawTweets includesTweets repliedToTweets
    (i : nat) (tweet x : Raw.t) (r : string) :
  rawTweets !! i = Some tweet →
  replyId6 tweet = Some r → truthy r = true →
  x ∈ rawTweets ++ includesTweets ++ repliedToTweets → Raw.id x = Some r →
  ∃ t, processedMainTweets (mergeBatches rawTweets includesTweets repliedToTweets) !! i
       = Some t
       ∧ Tweet.id t = Raw.id tweet
       ∧ is_Some (Tweet.repliedTo t).
Proof.
  intros Hi Hr Htr Hx Hid.
  destruct (mergeBatches_main_lookup _ includesTweets repliedToTweets _ _ Hi)
    as (t & Ht & Hreg).
  exists t. split; [done|]. split; [by rewrite (regrouped_id _ _ Hreg)|].
  rewrite (regrouped_repliedTo _ _ Hreg). cbn [processMainTweet Tweet.repliedTo].
  destruct (buildTweetMap_complete includesTweets repliedToTweets rawTweets r x Hx Hid Htr)
    as [found Hfound].
  unfold resolveRepliedTo. rewrite Hr. cbn [mbind option_bind]. rewrite Hfound.
  rewrite truthy_Some, Htr. cbn [andb].
  match goal with |- is_Some (if negb (truthy ?o) then _ else _) =>
    destruct (truthy o) eqn:Ho; cbn [negb]; [by apply truthy_is_Some|done] end.
Qed.

Lemma reply_target_resolved_witness :
  ∃ t, processedMainTweets
         (mergeBatches [rawB "b" "2002"] [] [rawA "a" "2001"]) !! 0%nat = Some t
       ∧ Tweet.id t = Raw.id (rawB "b" "2002")
       ∧ is_Some (Tweet.repliedTo t).
Proof.
  apply (reply_target_resolved _ _ _ 0%nat (rawB "b" "2002") (rawA "a" "2001") "1");
    [reflexivity|reflexivity|reflexivity| |reflexivity].
  simpl. right. left.
Defined.

(** Without an embedded record and without a reference list, a snapshot
    is found by the reply id alone. *)
Lemma resolve_by_id rawTweets includesTweets repliedToTweets
    (tweet : Raw.t) (s : Tweet.t) :
  Raw.replied_to tweet = None → Raw.repliedTo tweet = None →
  Raw.referenced_tweets tweet = None → Raw.referencedTweets tweet = None →
  resolveRepliedTo (buildTweetMap includesTweets repliedToTweets rawTweets)
    rawTweets tweet = Some s →
  truthy (replyId6 tweet) = true
  ∧ ∃ x, x ∈ rawTweets ++ includesTweets ++ repliedToTweets
         ∧ Raw.id x = replyId6 tweet
         ∧ createCleanRepliedToTweet (Some x) = Some s.
Proof.
  intros H1 H2 H3 H4. unfold resolveRepliedTo. rewrite H1, H2, H3, H4.
  cbn [jsor truthy truthy_option]. cbn [negb andb].
  rewrite andb_true_r.
  destruct (truthy (replyId6 tweet)) eqn:Hr; [|done].
  destruct (replyId6 tweet) as [r|] eqn:Hr6; [|done]. cbn [mbind option_bind].
  destruct (buildTweetMap _ _ _ !! r) as [raw|] eqn:Hraw.
  - intros [= <-]. apply buildTweetMap_sound in Hraw as [Hin Hid].
    split; [done|]. by exists raw.
  - destruct (jsfind _ rawTweets) as [raw|] eqn:Hfind; [|done].
    intros [= <-]. apply jsfind_Some in Hfind as [Hin Hid].
    apply bool_decide_eq_true in Hid. split; [done|].
    exists raw. split_and!; [|done|done]. apply elem_of_app. by left.
Qed.

(** X4: a snapshot found by id alone is the snapshot of the reply target.
    When the raw record embeds no replied-to record and has no reference
    list, its [repliedTo], if any, carries the id of the reply target and
    shows a record of the response that carries that id. *)
Theorem reply_snapshot_is_target rawTweets includesTweets repliedToTweets
    (tweet : Raw.t) (s : Tweet.t) :
  Raw.replied_to tweet = None → Raw.repliedTo tweet = None →
  Raw.referenced_tweets tweet = None → Raw.referencedTweets tweet = None →
  resolveRepliedTo (buildTweetMap includesTweets repliedToTweets rawTweets)
    rawTweets tweet = Some s →
  Tweet.id s = replyId6 tweet
  ∧ ∃ x, x ∈ rawTweets ++ includesTweets ++ repliedToTweets
         ∧ Raw.id x = replyId6 tweet
         ∧ createCleanRepliedToTweet (Some x) = Some s.
Proof.
  intros H1 H2 H3 H4 Hs.
  destruct (resolve_by_id _ _ _ _ _ H1 H2 H3 H4 Hs) as (_ & x & Hx & Hid & Hclean).
  split; [|by exists x].
  injection Hclean as <-. exact Hid.
Qed.

Lemma reply_snapshot_is_target_witness :
  ∃ s, resolveRepliedTo (buildTweetMap [] [rawA "a" "2001"] [rawB "b" "2002"])
         [rawB "b" "2002"] (rawB "b" "2002") = Some s
       ∧ Tweet.id s = Some "1".
Proof.
  eexists. split; [reflexivity|].
  apply (reply_snapshot_is_target [rawB "b" "2002"] [] [rawA "a" "2001"]
           (rawB "b" "2002")); reflexivity.
Defined.

(** X2: a snapshot shows what the entry of its record shows.  When the
    snapshot of a primary record was found by the reply id alone and its id
    is not the id of a primary record, the merged set has an entry of a
    supplementary batch that shows the same content as the snapshot. *)
Theorem snapshot_shows_entry rawTweets includesTweets repliedToTweets
    (i : nat) (tweet : Raw.t) (t s : Tweet.t) :
  rawTweets !! i = Some tweet →
  Raw.replied_to tweet = None → Raw.repliedTo tweet = None →
  Raw.referenced_tweets tweet = None → Raw.referencedTweets tweet = None →
  processedMainTweets (mergeBatches rawTweets includesTweets repliedToTweets) !! i
  = Some t →
  Tweet.repliedTo t = Some s → Tweet.id s ∉ Raw.id <$> rawTweets →
  ∃ e, e ∈ processedIncludesTweets (mergeBatches rawTweets includesTweets repliedToTweets)
           ++ processedRepliedToTweets
                (mergeBatches rawTweets includesTweets repliedToTweets)
       ∧ Tweet.id e = Tweet.id s ∧ sameDisplay s e.
Proof.
  intros Hi H1 H2 H3 H4 Ht Hs Hnot.
  destruct (mergeBatches_main_lookup _ includesTweets repliedToTweets _ _ Hi)
    as (t' & Ht' & Hreg).
  rewrite Ht in Ht'. injection Ht' as <-.
  rewrite (regrouped_repliedTo _ _ Hreg) in Hs. cbn [processMainTweet Tweet.repliedTo] in Hs.
  destruct (resolve_by_id _ _ _ _ _ H1 H2 H3 H4 Hs) as (Htr & x & Hx & Hid & Hclean).
  assert (Tweet.id s = Raw.id x) as Hsx by (by injection Hclean as <-).
  assert (Is_true (isValid (mainTweetIdsOf rawTweets) x)) as Hvalid.
  { apply Is_true_true. unfold isValid, mainTweetIdsOf. rewrite Hid, Htr. cbn [andb].
    apply negb_true_iff, bool_decide_eq_false. rewrite elem_of_list_to_set.
    by rewrite <- Hid, <- Hsx. }
  destruct (mergeBatches_spec rawTweets includesTweets repliedToTweets)
    as (_ & Hincl & Hrepl).
  assert (∀ source (batch ts : list _),
            Forall2 (produced source)
              (filter (fun tweet => Is_true (isValid (mainTweetIdsOf rawTweets) tweet))
                 batch) ts →
            x ∈ batch → ∃ e, e ∈ ts ∧ Tweet.id e = Tweet.id s ∧ sameDisplay s e) as Hentry.
  { intros source batch ts Hts Hxin.
    assert (x ∈ filter (fun tweet => Is_true (isValid (mainTweetIdsOf rawTweets) tweet))
                batch) as Hxf by (by apply list_elem_of_filter).
    apply list_elem_of_lookup in Hxf as [j Hj].
    destruct (Forall2_lookup_l _ _ _ _ _ Hts Hj) as (e & He & p & Hp & Hreg').
    exists e. split; [by eapply list_elem_of_lookup_2|].
    destruct (snapshot_shows_normalized x p Hp) as (s' & Hs' & Hdisp).
    rewrite Hclean in Hs'. injection Hs' as <-.
    assert (sameDisplay s e) as Hse.
    { eapply sameDisplay_trans; [exact Hdisp|].
      eapply sameDisplay_trans; [apply (sameDisplay_set_source source)|].
      by apply regrouped_sameDisplay. }
    split; [|done]. symmetry. apply Hse. }
  apply elem_of_app in Hx as [Hx|Hx].
  { exfalso. apply Hnot. rewrite Hsx. apply list_elem_of_fmap. by exists x. }
  apply elem_of_app in Hx as [Hx|Hx].
  - destruct (Hentry _ _ _ Hincl Hx) as (e & He & Hide & Hse).
    exists e. split; [apply elem_of_app; by left|done].
  - destruct (Hentry _ _ _ Hrepl Hx) as (e & He & Hide & Hse).
    exists e. split; [apply elem_of_app; by right|done].
Qed.

Lemma snapshot_shows_entry_witness :
  let m := mergeBatches [rawB "b" "2002"] [] [rawA "a" "2001"] in
  ∃ t s, processedMainTweets m !! 0%nat = Some t ∧ Tweet.repliedTo t = Some s
         ∧ ∃ e, e ∈ processedIncludesTweets m ++ processedRepliedToTweets m
                ∧ Tweet.id e = Tweet.id s ∧ sameDisplay s e.
Proof.
  eexists _, _. split; [vm_compute; reflexivity|]. split; [reflexivity|].
  eapply (snapshot_shows_entry [rawB "b" "2002"] [] [rawA "a" "2001"] 0
            (rawB "b" "2002")); try reflexivity.
  vm_compute. intros H. apply list_elem_of_singleton in H. discriminate H.
Defined.

(** ** Conversation backfill in the merge *)

Lemma settled_refl a : settled a a.
Proof. by left. Qed.

Lemma settled_fixed a b :
  settled a b → truthy (Tweet.conversationId a) = true ∨ truthy (Tweet.id a) = false →
  b = a.
Proof. intros [->|(Hc & Hi & _)] [H|H]; congruence. Qed.

Lemma settled_trans a b c : settled a b → settled b c → settled a c.
Proof.
  intros [->|(Hc & Hi & ->)] Hbc; [done|].
  rewrite (settled_fixed _ _ Hbc); [|by left].
  right. by split_and!.
Qed.

Lemma Forall2_settled_refl l : Forall2 settled l l.
Proof. induction l; constructor; auto using settled_refl. Qed.

Lemma Forall2_settled_trans l1 l2 l3 :
  Forall2 settled l1 l2 → Forall2 settled l2 l3 → Forall2 settled l1 l3.
Proof.
  intros H. revert l3. induction H; intros l3 H3; inversion H3; subst; constructor;
    eauto using settled_trans.
Qed.

Lemma Forall2_settled_insert l i t :
  l !! i = Some t → truthy (Tweet.conversationId t) = false → truthy (Tweet.id t) = true →
  Forall2 settled l (<[i := set_conversationId (Tweet.id t) t]> l).
Proof.
  intros Hi Hc Hid. apply Forall2_same_length_lookup_2; [by rewrite length_insert|].
  intros j a b Ha Hb. destruct (decide (i = j)) as [<-|Hne].
  - rewrite list_lookup_insert_eq in Hb by (by eapply lookup_lt_Some).
    right. split_and!; congruence.
  - rewrite list_lookup_insert_ne in Hb by done. left. congruence.
Qed.

Section Backfill.
Variable references : Raw.t → Tweet.t → bool.
Hypothesis references_conv : ∀ x c a,
  references x (set_conversationId c a) = references x a.

Lemma settled_references x a b : settled a b → references x b = references x a.
Proof. intros [->|(_ & _ & ->)]; [done|apply references_conv]. Qed.

Lemma list_find_settled x (M M' : list Tweet.t) :
  Forall2 settled M M' →
  match list_find (fun t => Is_true (references x t)) M with
  | Some (i, r) =>
      ∃ r', list_find (fun t => Is_true (references x t)) M' = Some (i, r')
            ∧ settled r r'
  | None => list_find (fun t => Is_true (references x t)) M' = None
  end.
Proof.
  induction 1 as [|a b M M' Hab _ IH]; [done|].
  cbn [list_find]. rewrite (settled_references x a b Hab).
  destruct (decide (Is_true (references x a))); [by exists b|].
  destruct (list_find _ M) as [[i r]|].
  - destruct IH as (r' & -> & Hr). by exists r'.
  - by rewrite IH.
Qed.

Lemma groupedWithStable_settled x t M M' :
  Forall2 settled M M' →
  groupedWithStable references x t M → groupedWithStable references x t M'.
Proof.
  intros HM. unfold groupedWithStable, jsfind.
  pose proof (list_find_settled x M M' HM) as Hfind.
  destruct (list_find _ M) as [[i r]|]; [|by rewrite Hfind].
  destruct Hfind as (r' & -> & Hr). cbn [fmap option_fmap option_map snd].
  destruct (truthy (Tweet.conversationId r)) eqn:Hc.
  - rewrite (settled_fixed _ _ Hr) by (by left). by rewrite Hc.
  - intros [Ht Hid]. rewrite (settled_fixed _ _ Hr) by (by right). by rewrite Hc.
Qed.

Lemma groupedWithStable_weaken x t M :
  groupedWithStable references x t M → groupedWith references x t M.
Proof.
  unfold groupedWithStable, groupedWith. destruct (jsfind _ M) as [r|]; [|done].
  destruct (truthy (Tweet.conversationId r)); [done|]. by intros [? _].
Qed.

Lemma groupStep_backfill source main out tweet :
  truthy (Raw.id tweet) = true →
  ∃ main' t,
    groupStep source references (main, out) tweet = (main', out ++ [t])
    ∧ Forall2 settled main main'
    ∧ groupedWithStable references tweet t main'.
Proof.
  intros Hid. unfold groupStep, processRawTweet. rewrite Hid. cbn [negb].
  unfold groupedWithStable, jsfind.
  destruct (list_find _ main) as [[i r]|] eqn:Hfind.
  - destruct (truthy (Tweet.conversationId r)) eqn:Hc.
    + eexists _, _. split_and!; [done|apply Forall2_settled_refl|].
      rewrite Hfind. cbn [fmap option_fmap option_map snd]. by rewrite Hc.
    + destruct (truthy (Tweet.id r)) eqn:Hr.
      * apply list_find_Some in Hfind as Hf. destruct Hf as (Hi & Href & Hbefore).
        pose proof (Forall2_settled_insert main i r Hi Hc Hr) as Hset.
        eexists _, _. split_and!; [done|done|].
        pose proof (list_find_settled tweet _ _ Hset) as Hfind'.
        rewrite Hfind in Hfind'. destruct Hfind' as (r' & Hfind' & _).
        rewrite Hfind'. cbn [fmap option_fmap option_map snd].
        apply list_find_Some in Hfind' as (Hi' & _ & _).
        rewrite list_lookup_insert_eq in Hi' by (by eapply lookup_lt_Some).
        injection Hi' as <-.
        cbn [Tweet.conversationId set_conversationId]. by rewrite Hr.
      * eexists _, _. split_and!; [done|apply Forall2_settled_refl|].
        rewrite Hfind. cbn [fmap option_fmap option_map snd]. by rewrite Hc.
  - eexists _, _. split_and!; [done|apply Forall2_settled_refl|].
    by rewrite Hfind.
Qed.

Lemma foldl_groupStep_backfill source batch main out :
  Forall (fun tweet => truthy (Raw.id tweet) = true) batch →
  ∃ main' ts,
    foldl (groupStep source references) (main, out) batch = (main', out ++ ts)
    ∧ Forall2 settled main main'
    ∧ Forall2 (fun x t => groupedWithStable references x t main') batch ts.
Proof.
  intros Hb. revert main out.
  induction Hb as [|tweet batch Hid _ IH]; intros main out.
  - exists main, []. rewrite app_nil_r. split_and!; [done|apply Forall2_settled_refl|done].
  - destruct (groupStep_backfill source main out tweet Hid) as (main1 & t & Hs & Hm1 & Ht).
    destruct (IH main1 (out ++ [t])) as (main2 & ts & Hf & Hm2 & Hts).
    exists main2, (t :: ts). cbn [foldl]. rewrite Hs, Hf, <- app_assoc.
    split_and!; [done|by eapply Forall2_settled_trans|].
    constructor; [|done]. by eapply groupedWithStable_settled.
Qed.

Lemma processSupplementary_backfill source ids main batch :
  ∃ main' ts,
    processSupplementary source references ids main batch = (main', ts)
    ∧ Forall2 settled main main'
    ∧ Forall2 (fun x t => groupedWithStable references x t main')
        (filter (fun tweet => Is_true (isValid ids tweet)) batch) ts.
Proof.
  unfold processSupplementary.
  destruct (foldl_groupStep_backfill source
              (filter (fun tweet => Is_true (isValid ids tweet)) batch) main [])
    as (main' & ts & Hf & Hm & Hts).
  { apply Forall_forall. intros tweet [Hv _]%list_elem_of_filter.
    apply Is_true_true in Hv. by eapply isValid_truthy. }
  by exists main', ts.
Qed.

End Backfill.

Lemma referencesIncluded_conv x c a :
  referencesIncluded x (set_conversationId c a) = referencesIncluded x a.
Proof. done. Qed.

Lemma referencesRepliedTo_conv x c a :
  referencesRepliedTo x (set_conversationId c a) = referencesRepliedTo x a.
Proof. done. Qed.

(** X5: conversation backfill.  In the merged set a supplementary record
    carries the conversation id of the first primary record that references
    it, whenever that primary record has one in the merged set, and its own
    conversation id otherwise.  A primary record keeps its conversation id;
    when it has none, and has an id, the merge can give it its own id as
    conversation id, and nothing else. *)
Theorem backfill_same_conversation rawTweets includesTweets repliedToTweets :
  let m := mergeBatches rawTweets includesTweets repliedToTweets in
  let valid := fun tweet => Is_true (isValid (mainTweetIdsOf rawTweets) tweet) in
  Forall2 (fun x t => groupedWith referencesIncluded x t (processedMainTweets m))
    (filter valid includesTweets) (processedIncludesTweets m)
  ∧ Forall2 (fun x t => groupedWith referencesRepliedTo x t (processedMainTweets m))
      (filter valid repliedToTweets) (processedRepliedToTweets m)
  ∧ Forall2 (fun x t =>
               Tweet.conversationId t = or_undefined (Raw.conversationId x)
               ∨ (truthy (Raw.conversationId x) = false ∧ truthy (Raw.id x) = true
                  ∧ Tweet.conversationId t = Raw.id x))
      rawTweets (processedMainTweets m).
Proof.
  intros m valid. subst m valid. unfold mergeBatches, mainTweetIdsOf.
  set (tweetMap := buildTweetMap includesTweets repliedToTweets rawTweets).
  rewrite (processMainTweet_ids tweetMap rawTweets rawTweets).
  set (ids := list_to_set (Raw.id <$> rawTweets) : gset (option string)).
  destruct (processSupplementary_backfill referencesIncluded referencesIncluded_conv
              includes ids (processMainTweet tweetMap rawTweets <$> rawTweets)
              includesTweets) as (main1 & incl & -> & Hm1 & Hincl).
  destruct (processSupplementary_backfill referencesRepliedTo referencesRepliedTo_conv
              replied_to ids main1 repliedToTweets) as (main2 & repl & -> & Hm2 & Hrepl).
  cbn [processedMainTweets processedIncludesTweets processedRepliedToTweets].
  split_and!.
  - eapply Forall2_impl; [exact Hincl|]. intros x t Ht.
    apply groupedWithStable_weaken.
    by eapply (groupedWithStable_settled referencesIncluded referencesIncluded_conv).
  - eapply Forall2_impl; [exact Hrepl|]. intros x t Ht.
    by apply groupedWithStable_weaken.
  - pose proof (Forall2_settled_trans _ _ _ Hm1 Hm2) as Hm.
    rewrite Forall2_fmap_l in Hm. eapply Forall2_impl; [exact Hm|].
    intros x t [->|(Hc & Hi & ->)]; [by left|].
    cbn in Hc, Hi. right. split_and!; [|done|done].
    unfold or_undefined in Hc.
    destruct (truthy (Raw.conversationId x)) eqn:E; [congruence|done].
Qed.

(** ** The thread builder: what enters the forest *)

(** The copy made for a record that has an id carries that id. *)
Lemma copy_id (X : list Tweet.t) (t : Tweet.t) :
  t ∈ X → truthy (Tweet.id t) = true →
  Tweet.id (copyOf (getCopy (copyMap X) (Tweet.id t))) = Tweet.id t.
Proof.
  intros Ht Hid. rewrite getCopy_copyMap, Hid.
  destruct (last (filter (fun t0 => Tweet.id t0 = Tweet.id t) X)) as [t'|] eqn:Hlast.
  - apply last_Some_elem_of in Hlast. by apply list_elem_of_filter in Hlast as [<- _].
  - apply last_None in Hlast.
    assert (t ∈ filter (fun t0 => Tweet.id t0 = Tweet.id t) X) as Hin
      by (by apply list_elem_of_filter).
    rewrite Hlast in Hin. by apply elem_of_nil in Hin.
Qed.

Lemma shapeOf_id conv tm p n : shapeOf conv tm p n → Tweet.id n = Tweet.id p.
Proof. by intros [->|(cs & -> & _)]. Qed.

(** The copy found for the id of a record of the list is the copy of the
    last record that carries this id. *)
Lemma getCopy_last (X : list Tweet.t) (t : Tweet.t) :
  t ∈ X → truthy (Tweet.id t) = true →
  ∃ x, lastWithId X (Tweet.id t) = Some x
       ∧ getCopy (copyMap X) (Tweet.id t) = Some (copyOf (Some x)).
Proof.
  intros Ht Hid. rewrite getCopy_copyMap, Hid. unfold lastWithId.
  destruct (last (filter (fun t0 => Tweet.id t0 = Tweet.id t) X)) as [x|] eqn:Hlast.
  - by exists x.
  - apply last_None in Hlast.
    assert (t ∈ filter (fun t0 => Tweet.id t0 = Tweet.id t) X) as Hin
      by (by apply list_elem_of_filter).
    rewrite Hlast in Hin. by apply elem_of_nil in Hin.
Qed.

Lemma lastWithId_elem (X : list Tweet.t) (i : option string) (x : Tweet.t) :
  lastWithId X i = Some x → x ∈ X ∧ Tweet.id x = i.
Proof.
  intros Hlast. apply last_Some_elem_of, list_elem_of_filter in Hlast as [? ?]. done.
Qed.

(** A record that has an id and is not a reply with a target enters the
    forest as a root: the root has the id of the record, and the fields of
    the last record of the list that carries this id. *)
Lemma organize_root_of (tweets : list Tweet.t) (t : Tweet.t) :
  t ∈ tweets → truthy (Tweet.id t) = true →
  truthy (Tweet.isReply t) = false ∨ truthy (Tweet.inReplyToId t) = false →
  ∃ root x, root ∈ organizeTweetsIntoThreads tweets ∧ Tweet.id root = Tweet.id t
            ∧ lastWithId tweets (Tweet.id t) = Some x ∧ sameRecord x root.
Proof.
  intros Ht Hid Hroot. rewrite organize_eq.
  assert (negb (truthy (Tweet.isReply t)) || negb (truthy (Tweet.inReplyToId t)) = true)
    as Hb by (destruct Hroot as [-> | ->]; [done|by rewrite orb_true_r]).
  destruct (getCopy_last tweets t Ht Hid) as (x & Hx & Hcopy).
  destruct (convOf t) as [k|] eqn:Hk.
  - assert (k ∈ firstOccurrences (omap convOf tweets)) as Hkey.
    { apply elem_of_firstOccurrences, list_elem_of_omap. by exists t. }
    pose proof (buildConversation_enough tweets k (enoughFuel tweets) ltac:(done)) as Hb'.
    apply buildConversation_shape in Hb' as [Hroots _].
    assert (t ∈ filter (fun t0 => Is_true (isRootIn
              (list_to_set (Tweet.id <$> membersOf tweets k)) t0)) (membersOf tweets k))
      as Hin.
    { apply list_elem_of_filter. split; [|by apply list_elem_of_filter].
      unfold isRootIn. rewrite Hb. done. }
    apply list_elem_of_lookup in Hin as [i Hi].
    destruct (Forall2_lookup_l _ _ _ _ _ Hroots Hi) as (root & Hroot' & Hshape).
    exists root, x. split_and!.
    + apply elem_of_app. left. apply list_elem_of_bind. exists k. split; [|done].
      by eapply list_elem_of_lookup_2.
    + rewrite (shapeOf_id _ _ _ _ Hshape). by apply copy_id.
    + done.
    + rewrite Hcopy in Hshape. destruct Hshape as [->|(cs & -> & _)].
      * by exists [].
      * by exists cs.
  - exists (copyOf (getCopy (copyMap tweets) (Tweet.id t))), x. split_and!.
    + apply elem_of_app. right. apply list_elem_of_bind. exists t.
      split; [|by apply list_elem_of_filter].
      unfold orphanRoots. rewrite Hb. by left.
    + by apply copy_id.
    + done.
    + rewrite Hcopy. by exists [].
Qed.

(** X6: the thread builder keeps a root for every record that is not a
    reply.  For every record of the input that has an id and is not flagged
    as a reply, or names no reply target, the forest has a root with this
    id; the root carries the fields of the last record of the input with
    this id, which is the record itself when no other record carries its
    id. *)
Theorem non_replies_are_roots (tweets : list Tweet.t) (t : Tweet.t) :
  t ∈ tweets → truthy (Tweet.id t) = true →
  truthy (Tweet.isReply t) = false ∨ truthy (Tweet.inReplyToId t) = false →
  ∃ root x, root ∈ organizeTweetsIntoThreads tweets
            ∧ lastWithId tweets (Tweet.id t) = Some x
            ∧ sameRecord x root
            ∧ ((∀ y, y ∈ tweets → Tweet.id y = Tweet.id t → y = t) → x = t).
Proof.
  intros Ht Hid Hroot.
  destruct (organize_root_of tweets t Ht Hid Hroot) as (root & x & Hin & _ & Hx & Hsame).
  exists root, x. split_and!; [done|done|done|].
  intros Honly. apply lastWithId_elem in Hx as [Hx Hidx]. by apply Honly.
Qed.

Lemma non_replies_are_roots_witness :
  ∃ root, root ∈ organizeTweetsIntoThreads [postP; postR] ∧ sameRecord postP root.
Proof.
  destruct (non_replies_are_roots [postP; postR] postP) as (root & x & Hin & _ & Hsame & Hx);
    [by left|reflexivity|by left|].
  exists root. split; [done|]. rewrite <- Hx; [done|].
  intros y Hy Hid. apply elem_of_cons in Hy as [->|Hy]; [done|].
  apply list_elem_of_singleton in Hy as ->. discriminate Hid.
Defined.

(** X7: with pairwise distinct ids, every edge of the forest is a reply
    edge inside one conversation: a child names its parent as reply target,
    is not its parent, and has the conversation id of its parent. *)
Theorem children_reply_to_parent (tweets : list Tweet.t) (n c : Tweet.t) :
  distinctIds tweets →
  n ∈ organizeTweetsIntoThreads tweets ≫= nodes → c ∈ kids n →
  Tweet.inReplyToId c = Tweet.id n ∧ Tweet.id c ≠ Tweet.id n
  ∧ Tweet.conversationId c = Tweet.conversationId n.
Proof.
  intros Hd Hn Hc. rewrite organize_eq in Hn.
  apply list_elem_of_bind in Hn as (root & Hn & Hroot).
  apply elem_of_app in Hroot as [Hroot|Hroot].
  - apply list_elem_of_bind in Hroot as (k & Hroot & Hk).
    pose proof (buildConversation_enough tweets k (enoughFuel tweets) ltac:(done)) as Hb.
    apply buildConversation_shape in Hb as [_ Hbuilt].
    rewrite Forall_forall in Hbuilt.
    destruct (Hbuilt n) as (child & Hchild & Hshape).
    { apply list_elem_of_bind. by exists root. }
    pose proof (membersOf_subseteq tweets k) as Hsub.
    assert (sameRecord child (copyOf (getCopy (copyMap tweets) (Tweet.id child)))) as Hp.
    { apply (isCopy_sameRecord tweets); [done|by apply Hsub|by exists []]. }
    destruct Hp as [gp Hp].
    destruct Hshape as [->|(cs & -> & Hcs)].
    { unfold kids in Hc. rewrite copyOf_children in Hc. by apply elem_of_nil in Hc. }
    change (kids (set_children cs _)) with cs in Hc.
    apply list_elem_of_lookup in Hc as [i Hi].
    destruct (Forall2_lookup_r _ _ _ _ _ Hcs Hi) as (r & Hr & Hcopy).
    apply list_elem_of_lookup_2, list_elem_of_filter in Hr as [Hrep Hrin].
    apply (isCopy_sameRecord tweets) in Hcopy as [gs ->]; [|done|by apply Hsub].
    apply Is_true_true, andb_true_iff in Hrep as [Hrep1 Hrep2].
    apply bool_decide_eq_true in Hrep1. apply negb_true_iff, bool_decide_eq_false in Hrep2.
    apply list_elem_of_filter in Hrin as [Hrk _].
    apply list_elem_of_filter in Hchild as [Hck _].
    rewrite Hp. cbn. split_and!; [by rewrite Hp in Hrep1|by rewrite Hp in Hrep2|].
    unfold convOf, or_undefined in Hrk, Hck.
    destruct (truthy (Tweet.conversationId r)); [|done].
    destruct (truthy (Tweet.conversationId child)); [|done]. congruence.
  - apply list_elem_of_bind in Hroot as (t & Hroot & _).
    apply orphanRoots_origin in Hroot as ->.
    rewrite nodes_eq, descendants_leaf in Hn by apply copyOf_children.
    apply list_elem_of_singleton in Hn as ->.
    unfold kids in Hc. rewrite copyOf_children in Hc. by apply elem_of_nil in Hc.
Qed.

Lemma smallTimeline_distinct : distinctIds smallTimeline.
Proof.
  split.
  - apply (bool_decide_unpack _). by vm_compute.
  - intros t Ht. repeat (apply elem_of_cons in Ht as [->|Ht]); try reflexivity.
    by apply elem_of_nil in Ht.
Qed.

Lemma children_reply_to_parent_witness :
  ∃ n c, n ∈ organizeTweetsIntoThreads smallTimeline ≫= nodes ∧ c ∈ kids n
         ∧ Tweet.inReplyToId c = Tweet.id n ∧ Tweet.id c ≠ Tweet.id n
         ∧ Tweet.conversationId c = Tweet.conversationId n.
Proof.
  assert (∃ n, head (organizeTweetsIntoThreads smallTimeline) = Some n) as [n Hn]
    by (eexists; by vm_compute).
  assert (∃ c, head (kids n) = Some c) as [c Hc].
  { vm_compute in Hn. injection Hn as <-. eexists. by vm_compute. }
  assert (n ∈ organizeTweetsIntoThreads smallTimeline ≫= nodes) as Hn'.
  { apply list_elem_of_bind. exists n. split; [rewrite nodes_eq; by left|].
    by apply head_Some_elem_of. }
  assert (c ∈ kids n) as Hc' by (by apply head_Some_elem_of).
  exists n, c. split; [done|]. split; [done|].
  exact (children_reply_to_parent smallTimeline n c smallTimeline_distinct Hn' Hc').
Defined.

(** ** Rendering: groups and standalone records *)

(** X8: when [renderResults] composes the threads, the conversation groups
    have pairwise distinct keys, one for each non-empty conversation id that
    occurs in the response, whatever the dates are. *)
Theorem render_groups_distinct (parseDate : string → option Z) (isLoading : bool)
    (error : string) (tweets : list Tweet.t) (out : Rendered) :
  renderResults parseDate isLoading error (Some tweets) = Threads out →
  NoDup (conversations out).*1
  ∧ ∀ k, k ∈ (conversations out).*1
         ↔ ∃ t, t ∈ tweets ∧ Tweet.conversationId t = Some k ∧ truthy k = true.
Proof.
  intros (_ & _ & ->)%renderResults_Threads.
  assert ((conversations (renderThreads parseDate tweets)).*1
          ≡ₚ firstOccurrences (omap convOf tweets)) as Hperm.
  { unfold renderThreads. rewrite groupByConversation_spec.
    cbn [conversations]. rewrite <- list_fmap_compose.
    erewrite (list_fmap_ext _ fst); [|intros ? [k ms]; reflexivity].
    rewrite sortBy_Permutation, <- list_fmap_compose.
    by rewrite list_fmap_id. }
  split.
  - rewrite Hperm. apply NoDup_firstOccurrences.
  - intros k. rewrite Hperm, elem_of_firstOccurrences, list_elem_of_omap.
    split.
    + intros (t & Ht & Hk). exists t. split; [done|].
      pose proof (convOf_truthy _ _ Hk) as Htr. split; [|done].
      unfold convOf, or_undefined in Hk. by destruct (truthy (Tweet.conversationId t)).
    + intros (t & Ht & Hk & Htr). exists t. split; [done|].
      unfold convOf, or_undefined. by rewrite Hk, truthy_Some, Htr.
Qed.

Lemma render_groups_distinct_witness :
  ∃ out, renderResults parseYear false "" (Some smallTimeline) = Threads out
         ∧ (conversations out).*1 = ["c"]
         ∧ NoDup (conversations out).*1.
Proof.
  exists (renderThreads parseYear smallTimeline). split; [reflexivity|].
  split; [by vm_compute|].
  apply (render_groups_distinct parseYear false "" smallTimeline). reflexivity.
Defined.

(** X9: when [renderResults] composes the threads, no record without a
    conversation id is lost: there is one standalone root per such record,
    without children, and for such a record that has an id one of these
    roots carries the fields of a record without conversation id that has
    this id, which is the record itself when no other one carries its id. *)
Theorem render_keeps_standalone (parseDate : string → option Z) (isLoading : bool)
    (error : string) (tweets : list Tweet.t) (out : Rendered) :
  renderResults parseDate isLoading error (Some tweets) = Threads out →
  length (standalone out) = length (standaloneOf tweets)
  ∧ (∀ root, root ∈ standalone out → kids root = [])
  ∧ (∀ t, t ∈ tweets → convOf t = None → truthy (Tweet.id t) = true →
          ∃ root x, root ∈ standalone out ∧ root = set_children [] x
                    ∧ x ∈ tweets ∧ convOf x = None ∧ Tweet.id x = Tweet.id t
                    ∧ ((∀ y, y ∈ tweets → convOf y = None →
                             Tweet.id y = Tweet.id t → y = t) → x = t)).
Proof.
  intros (_ & _ & ->)%renderResults_Threads.
  unfold renderThreads. rewrite groupByConversation_spec. cbn [standalone].
  set (after := fun a b : Tweet.t => timeAfter (tweetTime parseDate a) (tweetTime parseDate b)).
  set (S := sortBy after (standaloneOf tweets)).
  assert (∀ t, t ∈ S → convOf t = None ∧ t ∈ tweets) as HS.
  { intros t Ht. apply elem_of_sortBy, list_elem_of_filter in Ht. done. }
  rewrite (organize_standalone S) by (intros ? ?; by apply HS).
  split_and!.
  - rewrite sortBy_Permutation, length_fmap. unfold S. by rewrite sortBy_Permutation.
  - intros root Hroot. apply elem_of_sortBy in Hroot.
    by apply list_elem_of_fmap in Hroot as (t & -> & _).
  - intros t Ht Hk Hid.
    assert (t ∈ S) as HtS.
    { apply elem_of_sortBy. by apply list_elem_of_filter. }
    destruct (getCopy_last S t HtS Hid) as (x & Hx & Hcopy).
    apply lastWithId_elem in Hx as [HxS Hidx]. destruct (HS x HxS) as [Hxk Hxin].
    exists (copyOf (getCopy (copyMap S) (Tweet.id t))), x. split_and!; try done.
    + apply elem_of_sortBy, list_elem_of_fmap. by exists t.
    + by rewrite Hcopy.
    + intros Honly. by apply Honly.
Qed.

Lemma render_keeps_standalone_witness :
  ∃ out root, renderResults parseYear false "" (Some smallTimeline) = Threads out
              ∧ standalone out = [root]
              ∧ root = set_children [] (post "3" "2000" None None None).
Proof.
  destruct (render_keeps_standalone parseYear false "" smallTimeline
              (renderThreads parseYear smallTimeline) eq_refl) as (_ & _ & H).
  destruct (H (post "3" "2000" None None None)) as (root & x & Hin & -> & Hx & _ & _ & Honly);
    [by right; left|reflexivity|reflexivity|].
  exists (renderThreads parseYear smallTimeline), (set_children [] x).
  split; [reflexivity|].
  rewrite Honly.
  - split; [by vm_compute|done].
  - intros y Hy Hk Hid.
    repeat (apply elem_of_cons in Hy as [->|Hy]); try discriminate Hk; try done.
    by apply elem_of_nil in Hy.
Defined.

(** X10: when [renderResults] composes the threads, a record with a
    conversation id and an id that is not flagged as a reply, or names no
    reply target, has a root in the group of its conversation: the root
    carries the fields of a record of that conversation with this id, which
    is the record itself when no other one carries its id. *)
Theorem render_keeps_non_replies (parseDate : string → option Z) (isLoading : bool)
    (error : string) (tweets : list Tweet.t) (out : Rendered) (t : Tweet.t) (k : string) :
  renderResults parseDate isLoading error (Some tweets) = Threads out →
  t ∈ tweets → convOf t = Some k → truthy (Tweet.id t) = true →
  truthy (Tweet.isReply t) = false ∨ truthy (Tweet.inReplyToId t) = false →
  ∃ roots root x, (k, roots) ∈ conversations out ∧ root ∈ roots
                  ∧ sameRecord x root
                  ∧ x ∈ tweets ∧ convOf x = Some k ∧ Tweet.id x = Tweet.id t
                  ∧ ((∀ y, y ∈ tweets → convOf y = Some k →
                           Tweet.id y = Tweet.id t → y = t) → x = t).
Proof.
  intros (_ & _ & ->)%renderResults_Threads Ht Hk Hid Hroot.
  set (after := fun a b : Tweet.t => timeAfter (tweetTime parseDate a) (tweetTime parseDate b)).
  set (S := sortBy after (membersOf tweets k)).
  assert (t ∈ S) as HtS.
  { apply elem_of_sortBy. by apply list_elem_of_filter. }
  destruct (organize_root_of S t HtS Hid Hroot) as (root & x & Hin & _ & Hx & Hsame).
  apply lastWithId_elem in Hx as [HxS Hidx].
  apply elem_of_sortBy, list_elem_of_filter in HxS as [Hxk Hxin].
  exists (sortBy after (organizeTweetsIntoThreads S)), root, x.
  split_and!; [|by apply elem_of_sortBy|done|done|done|done|].
  - unfold renderThreads. rewrite groupByConversation_spec. cbn [conversations].
    apply list_elem_of_fmap. exists (k, membersOf tweets k). split; [done|].
    apply elem_of_sortBy, list_elem_of_fmap. exists k. split; [done|].
    apply elem_of_firstOccurrences, list_elem_of_omap. by exists t.
  - intros Honly. by apply Honly.
Qed.

Lemma render_keeps_non_replies_witness :
  ∃ out roots root,
    renderResults parseYear false "" (Some smallTimeline) = Threads out
    ∧ ("c", roots) ∈ conversations out ∧ root ∈ roots
    ∧ sameRecord (post "1" "2001" (Some "c") None None) root.
Proof.
  destruct (render_keeps_non_replies parseYear false "" smallTimeline
              (renderThreads parseYear smallTimeline)
              (post "1" "2001" (Some "c") None None) "c" eq_refl)
    as (roots & root & x & Hk & Hin & Hsame & _ & _ & _ & Honly);
    [by right; right; left|reflexivity|reflexivity|by left|].
  exists (renderThreads parseYear smallTimeline), roots, root.
  split_and!; [reflexivity|done|done|].
  rewrite <- Honly; [done|].
  intros y Hy Hc Hid.
  repeat (apply elem_of_cons in Hy as [->|Hy]); try discriminate Hid; try done.
  by apply elem_of_nil in Hy.
Defined.

(** ** The merge of [advancedSearch] *)

Lemma searchGroup_regrouped references main tweet p :
  processRawTweet (Some tweet) = Some p →
  ∃ y, searchGroup references main tweet = Some y ∧ regrouped p y.
Proof.
  intros Hp. unfold searchGroup. rewrite Hp.
  destruct (jsfind _ main) as [r|]; [|by exists p; split; [|left]].
  destruct (truthy (Tweet.conversationId r)).
  - eexists. split; [done|]. right. by eexists.
  - exists p. split; [done|by left].
Qed.

Lemma Forall2_omap_l {A B C} (f : A → option B) (Q : B → C → Prop)
    (l : list A) (k : list C) :
  Forall2 (fun x t => ∃ y, f x = Some y ∧ Q y t) l k → Forall2 Q (omap f l) k.
Proof.
  induction 1 as [|x t l k (y & Hy & HQ) _ IH]; [constructor|].
  cbn [omap list_omap]. rewrite Hy. by constructor.
Qed.

Lemma searchMain_ids (rawTweets : list Raw.t) :
  Tweet.id <$> (searchMainTweet <$> rawTweets) = Raw.id <$> rawTweets.
Proof.
  rewrite <- list_fmap_compose. apply list_fmap_ext. by intros ? [].
Qed.

Lemma searchMainTweet_sameDisplay tweetMap rawTweets tweet :
  sameDisplay (searchMainTweet tweet) (processMainTweet tweetMap rawTweets tweet).
Proof. destruct tweet. by repeat split. Qed.

Lemma searchSupplementary_sameDisplay source references' rawTweets main
    (batch : list Raw.t) (ts : list Tweet.t) :
  Forall2 (produced source)
    (filter (fun tweet => Is_true (isValid (mainTweetIdsOf rawTweets) tweet)) batch) ts →
  Forall2 sameDisplay
    (searchSupplementary references'
       (list_to_set (Tweet.id <$> (searchMainTweet <$> rawTweets))) main batch) ts.
Proof.
  intros H. unfold searchSupplementary. rewrite searchMain_ids.
  apply Forall2_omap_l. eapply Forall2_impl; [exact H|].
  intros x t (p & Hp & Hreg).
  destruct (searchGroup_regrouped references' main x p Hp) as (y & Hy & Hreg').
  exists y. split; [done|].
  eapply sameDisplay_trans; [apply sameDisplay_sym, regrouped_sameDisplay, Hreg'|].
  eapply sameDisplay_trans; [apply (sameDisplay_set_source source)|].
  by apply regrouped_sameDisplay.
Qed.

(** X11: on the same three arrays, [advancedSearch] and [fetchUserTweets]
    return the same records in the same order, as far as what a card shows
    is concerned: the two merges keep and drop the same records, and differ
    only in reply linkage, snapshots, conversation ids and provenance
    tags. *)
Theorem search_shows_same_records rawTweets includesTweets repliedToTweets :
  Forall2 sameDisplay
    (searchMerge rawTweets includesTweets repliedToTweets)
    (allTweets (mergeBatches rawTweets includesTweets repliedToTweets)).
Proof.
  destruct (mergeBatches_spec rawTweets includesTweets repliedToTweets)
    as (Hm & Hi & Hr).
  unfold searchMerge, allTweets. repeat apply Forall2_app.
  - rewrite Forall2_fmap_l in Hm. rewrite Forall2_fmap_l.
    eapply Forall2_impl; [exact Hm|]. intros x t Hreg.
    eapply sameDisplay_trans; [apply searchMainTweet_sameDisplay|].
    by apply regrouped_sameDisplay.
  - by eapply searchSupplementary_sameDisplay.
  - by eapply searchSupplementary_sameDisplay.
Qed.

(** X12: [advancedSearch] mints no conversation id.  Every conversation id
    in its result is the conversation id of a raw record of the response;
    a primary record keeps its own, a supplementary record has its own or
    that of a primary record. *)
Theorem search_never_mints rawTweets includesTweets repliedToTweets (t : Tweet.t)
    (c : string) :
  t ∈ searchMerge rawTweets includesTweets repliedToTweets →
  Tweet.conversationId t = Some c →
  ∃ x, x ∈ rawTweets ++ includesTweets ++ repliedToTweets
       ∧ Raw.conversationId x = Some c.
Proof.
  assert (∀ t, t ∈ searchMainTweet <$> rawTweets → Tweet.conversationId t = Some c →
               ∃ x, x ∈ rawTweets ∧ Raw.conversationId x = Some c) as Hmain.
  { intros t' (x & -> & Hx)%list_elem_of_fmap Hc.
    exists x. split; [done|]. cbn in Hc. by apply or_undefined_Some in Hc as [? _]. }
  assert (∀ references ids (batch : list Raw.t) t,
            t ∈ searchSupplementary references ids (searchMainTweet <$> rawTweets) batch →
            Tweet.conversationId t = Some c →
            ∃ x, x ∈ rawTweets ++ batch ∧ Raw.conversationId x = Some c) as Hsupp.
  { intros references ids batch t' Ht Hc. unfold searchSupplementary in Ht.
    apply list_elem_of_omap in Ht as (x & [_ Hx]%list_elem_of_filter & Hg).
    unfold searchGroup, processRawTweet in Hg.
    destruct (negb (truthy (Raw.id x))); [done|].
    assert (Raw.conversationId x = Some c → ∃ x, x ∈ rawTweets ++ batch
                                                ∧ Raw.conversationId x = Some c) as Hown.
    { intros ?. exists x. split; [|done]. apply elem_of_app. by right. }
    destruct (jsfind _ _) as [r|] eqn:Hfind.
    - destruct (truthy (Tweet.conversationId r)) eqn:Hr.
      + injection Hg as <-. cbn in Hc. apply jsfind_Some in Hfind as [Hrin _].
        destruct (Hmain r Hrin Hc) as (x' & Hx' & Hc'). exists x'. split; [|done].
        apply elem_of_app. by left.
      + injection Hg as <-. cbn in Hc. by apply or_undefined_Some in Hc as [? _]; auto.
    - injection Hg as <-. cbn in Hc. by apply or_undefined_Some in Hc as [? _]; auto. }
  intros Ht Hc. unfold searchMerge in Ht.
  apply elem_of_app in Ht as [Ht|Ht].
  - destruct (Hmain t Ht Hc) as (x & Hx & Hxc). exists x. split; [|done].
    apply elem_of_app. by left.
  - apply elem_of_app in Ht as [Ht|Ht];
      destruct (Hsupp _ _ _ t Ht Hc) as (x & Hx & Hxc); exists x; (split; [|done]);
      rewrite !elem_of_app; apply elem_of_app in Hx as [?|?]; auto.
Qed.

Lemma search_never_mints_witness :
  ∃ x, x ∈ [inConversation "c" (rawB "b" "2002")] ++ [rawA "a" "2001"] ++ []
       ∧ Raw.conversationId x = Some "c".
Proof.
  assert (∃ t, last (searchMerge [inConversation "c" (rawB "b" "2002")]
                       [rawA "a" "2001"] []) = Some t) as [t Ht]
    by (eexists; by vm_compute).
  apply (search_never_mints _ _ _ t "c"); [by apply last_Some_elem_of|].
  vm_compute in Ht. by injection Ht as <-.
Defined.

(** ** Requests *)

Lemma substring_all (s : string) : String.substring 0 (String.length s) s = s.
Proof. induction s as [|a s IH]; [done|]. simpl. by rewrite IH. Qed.

Lemma proxyTarget_user (search : string) :
  proxyTarget ("/api/twitter/twitter/user/last_tweets" +:+ search)
  = Some ("https://api.twitterapi.io/twitter/user/last_tweets" +:+ search).
Proof.
  unfold proxyTarget, rewrite. simpl. by rewrite substring_all.
Qed.

Lemma proxyTarget_search (search : string) :
  proxyTarget ("/api/twitter/twitter/tweet/advanced_search" +:+ search)
  = Some ("https://api.twitterapi.io/twitter/tweet/advanced_search" +:+ search).
Proof.
  unfold proxyTarget, rewrite. simpl. by rewrite substring_all.
Qed.

Section RequestFacts.
Variable trim : string → string.
Variable serialize : list (string * string) → string.

(** X13: in development the request reaches the same URL as in production.
    The request goes to the development server under a path that its proxy
    forwards, after [rewrite], to exactly the URL that is requested directly
    in production; the headers are the same.  This holds for both
    endpoints. *)
Theorem dev_proxy_reaches_api (origin : string) :
  (∀ params reqDev,
     fetchUserTweets_request trim serialize true origin params = Normal reqDev →
     ∃ path reqProd,
       fetchUserTweets_request trim serialize false origin params = Normal reqProd
       ∧ requestUrl reqDev = origin +:+ path
       ∧ proxyTarget path = Some (requestUrl reqProd)
       ∧ headers reqDev = headers reqProd)
  ∧ (∀ params reqDev,
       advancedSearch_request trim serialize true origin params = Normal reqDev →
       ∃ path reqProd,
         advancedSearch_request trim serialize false origin params = Normal reqProd
         ∧ requestUrl reqDev = origin +:+ path
         ∧ proxyTarget path = Some (requestUrl reqProd)
         ∧ headers reqDev = headers reqProd).
Proof.
  split; intros params reqDev.
  - unfold fetchUserTweets_request.
    destruct (_ && _); [done|]. destruct (negb _); [done|]. intros [= <-].
    eexists _, _. split_and!; [done|done| |done].
    cbn [requestUrl]. apply proxyTarget_user.
  - unfold advancedSearch_request.
    destruct (negb _); [done|]. destruct (negb _); [done|]. intros [= <-].
    eexists _, _. split_and!; [done|done| |done].
    cbn [requestUrl]. apply proxyTarget_search.
Qed.

(** X14: a request for a timeline names exactly one user.  When the
    validation of [fetchUserTweets] passes, the first parameter of the query
    is [userId] or [userName] with a trimmed, non-empty value, [userId]
    whenever its trimmed value is not empty; no other parameter is called
    [userId] or [userName], and no parameter occurs twice. *)
Theorem user_request_names_one_user (isDevelopment : bool) (origin : string)
    (params : FetchUserTweetsParams) (req : Request) :
  fetchUserTweets_request trim serialize isDevelopment origin params = Normal req →
  ∃ name value,
    userTweetsQuery trim params !! 0%nat = Some (name, value)
    ∧ truthy value = true
    ∧ ((name = "userId" ∧ trimmed trim (userId params) = Some value)
       ∨ (name = "userName" ∧ trimmed trim (userName params) = Some value
          ∧ truthy (trimmed trim (userId params)) = false))
    ∧ NoDup (userTweetsQuery trim params).*1
    ∧ (∀ n v i, userTweetsQuery trim params !! i = Some (n, v) →
                n = "userId" ∨ n = "userName" → i = 0%nat).
Proof.
  unfold fetchUserTweets_request, userTweetsQuery.
  destruct (truthy (trimmed trim (userId params))) eqn:Hid.
  - intros _.
    destruct (trimmed trim (userId params)) as [v|] eqn:Hv; [|done].
    exists "userId", v. cbn [default setParam].
    destruct (truthy (trimmed trim (cursor params)));
      destruct (includeReplies params) as [b|]; cbn;
      (split_and!; [done|done|by left|by apply (bool_decide_unpack _)|]);
      intros n v' [|[|[|i]]] Hi Hn; try done; cbn in Hi;
      injection Hi as <- <-; by destruct Hn.
  - destruct (truthy (trimmed trim (userName params))) eqn:Hname; [|done].
    intros _.
    destruct (trimmed trim (userName params)) as [v|] eqn:Hv; [|done].
    exists "userName", v. cbn [default setParam].
    destruct (truthy (trimmed trim (cursor params)));
      destruct (includeReplies params) as [b|]; cbn;
      (split_and!; [done|done|by right|by apply (bool_decide_unpack _)|]);
      intros n v' [|[|[|i]]] Hi Hn; try done; cbn in Hi;
      injection Hi as <- <-; by destruct Hn.
Qed.

End RequestFacts.

Lemma dev_proxy_reaches_api_witness :
  ∃ path reqProd,
    fetchUserTweets_request trimAscii serializePlain false "http://localhost:3000"
      (mkUserParams (Some " jack ") None "key" None (Some false)) = Normal reqProd
    ∧ proxyTarget path = Some (requestUrl reqProd)
    ∧ requestUrl reqProd
      = "https://api.twitterapi.io/twitter/user/last_tweets?userName=jack&includeReplies=false".
Proof.
  destruct (proj1 (dev_proxy_reaches_api trimAscii serializePlain "http://localhost:3000")
              (mkUserParams (Some " jack ") None "key" None (Some false)) _ eq_refl)
    as (path & reqProd & Hprod & _ & Hproxy & _).
  exists path, reqProd. split_and!; [done|done|].
  vm_compute in Hprod. by injection Hprod as <-.
Defined.

Lemma user_request_names_one_user_witness :
  ∃ name value,
    userTweetsQuery trimAscii (mkUserParams (Some " jack ") (Some "  ") "key" None None)
      !! 0%nat = Some (name, value)
    ∧ name = "userName" ∧ value = "jack".
Proof.
  destruct (user_request_names_one_user trimAscii serializePlain false ""
              (mkUserParams (Some " jack ") (Some "  ") "key" None None) _ eq_refl)
    as (name & value & H0 & _).
  exists name, value. split; [done|].
  vm_compute in H0. by injection H0 as <- <-.
Defined.

(** ** Cards *)

Lemma substring_split (n m : nat) (s : string) :
  (n + m ≤ String.length s)%nat →
  ∃ pre post, s = pre +:+ String.substring n m s +:+ post
              ∧ String.length pre = n ∧ String.length (String.substring n m s) = m.
Proof.
  revert n m. induction s as [|a s IH]; intros n m Hlen; simpl in Hlen.
  - assert (n = 0%nat ∧ m = 0%nat) as [-> ->] by lia. by exists "", "".
  - destruct n as [|n].
    + destruct m as [|m].
      * exists "", (String a s). done.
      * destruct (IH 0%nat m) as (pre & post & Hs & Hpre & Hsub); [lia|].
        destruct pre; [|done]. exists "", post.
        split_and!; [|done|simpl; by rewrite Hsub].
        change (String a s = String a (String.substring 0 m s +:+ post)).
        f_equal. exact Hs.
    + destruct (IH n m) as (pre & post & Hs & Hpre & Hsub); [lia|].
      exists (String a pre), post. split_and!; [|simpl; by rewrite Hpre|done].
      change (String a s = String a (pre +:+ String.substring n m s +:+ post)).
      f_equal. exact Hs.
Qed.

Lemma append_empty_r (s : string) : s +:+ "" = s.
Proof.
  induction s as [|a s IH]; [done|].
  change (String a (s +:+ "") = String a s). by rewrite IH.
Qed.

(** X15: a card shows the text or a part of it.  For a record that has a
    text, [displayText] does not throw, and what it returns is the text
    itself or, for a reply whose display range lies inside the text, the
    non-empty part of the text that the range delimits. *)
Theorem displayText_within_text (tweet : Tweet.t) (text : string) :
  Tweet.text tweet = Some text →
  ∃ pre shown post,
    displayText tweet = Ok (Some shown)
    ∧ text = pre +:+ shown +:+ post
    ∧ (shown = text
       ∨ (cardIsReply tweet = true ∧ shown ≠ ""
          ∧ Tweet.displayTextRange tweet
            = Some (Z.of_nat (String.length pre),
                    Z.of_nat (String.length pre + String.length shown)))).
Proof.
  intros Htext. unfold displayText. rewrite Htext.
  assert (∃ pre shown post, Ok (Some text) = Ok (Some shown)
            ∧ text = pre +:+ shown +:+ post
            ∧ (shown = text
               ∨ (cardIsReply tweet = true ∧ shown ≠ ""
                  ∧ Tweet.displayTextRange tweet
                    = Some (Z.of_nat (String.length pre),
                            Z.of_nat (String.length pre + String.length shown)))))
    as Hwhole.
  { exists "", text, "". split_and!; [done| |by left].
    change (text = text +:+ ""). by rewrite append_empty_r. }
  destruct (Tweet.displayTextRange tweet) as [[start end_]|]; [|done].
  destruct (cardIsReply tweet) eqn:Hreply; [|done]. cbn [andb].
  destruct (0 <=? start) eqn:Hstart; [|done].
  destruct ((end_ <=? Z.of_nat (String.length text)) && (start <? end_)) eqn:Hrange;
    [|done].
  apply andb_true_iff in Hrange as [Hend Hlt].
  apply Z.leb_le in Hstart, Hend. apply Z.ltb_lt in Hlt.
  destruct (substring_split (Z.to_nat start) (Z.to_nat (end_ - start)) text)
    as (pre & post & Hs & Hpre & Hsub); [lia|].
  eexists pre, _, post. split_and!; [done|done|]. right.
  split_and!; [done| |].
  - intros Hempty. rewrite Hempty in Hsub. simpl in Hsub. lia.
  - rewrite Hsub, Hpre. f_equal. f_equal; lia.
Qed.

Lemma displayText_within_text_witness :
  ∃ pre post,
    displayText mentionReply = Ok (Some "hello")
    ∧ "@a hello" = pre +:+ "hello" +:+ post.
Proof.
  destruct (displayText_within_text mentionReply "@a hello" eq_refl)
    as (pre & shown & post & Hd & Hs & _).
  vm_compute in Hd. injection Hd as <-. by exists pre, post.
Defined.

Lemma length_bind_elem {A B} (f : A → list B) (l : list A) (x : A) :
  x ∈ l → (length (f x) ≤ length (l ≫= f))%nat.
Proof.
  induction l as [|y l IH]; intros Hx; [by apply elem_of_nil in Hx|].
  rewrite bind_cons, length_app. apply elem_of_cons in Hx as [->|Hx]; [lia|].
  specialize (IH Hx). lia.
Qed.

(** Induction on a tree of records. *)
Lemma Tweet_tree_ind (P : Tweet.t → Prop) :
  (∀ t, (∀ c, c ∈ kids t → P c) → P t) → ∀ t, P t.
Proof.
  intros H t. remember (length (nodes t)) as n eqn:Hn. revert t Hn.
  induction n as [n IH] using lt_wf_ind. intros t ->.
  apply H. intros c Hc. apply (IH (length (nodes c))); [|done].
  rewrite (nodes_eq t). unfold descendants. cbn [length].
  pose proof (length_bind_elem nodes (kids t) c Hc). lia.
Qed.

Lemma cards_unfold t depth :
  cards (renderTweetThread t depth)
  = renderTweetThread t depth
    :: (kids t ≫= fun child => cards (renderTweetThread child (S depth))).
Proof.
  destruct t as [? ? ? ? ? ? ? ? ? ? ? ? ? ? ? ? ? ? ? ? ? ? [cs|] ?]; [|done].
  cbn [renderTweetThread cards card_replies Tweet.children kids default]. f_equal.
  unfold kids. cbn [Tweet.children default].
  induction cs as [|c cs IH]; [done|].
  rewrite fmap_cons, !bind_cons. by rewrite IH.
Qed.

(** The cards of a thread show the records of the tree, parents before
    children; each card has the badge of its record, and a child is one
    level below its parent. *)
Lemma cards_nodes (t : Tweet.t) :
  ∀ depth,
    card_tweet <$> cards (renderTweetThread t depth) = nodes t
    ∧ Forall (fun v => card_isIncludedTweet v = isIncludedTweet (card_tweet v)
                       ∧ (depth ≤ card_depth v)%nat)
        (cards (renderTweetThread t depth)).
Proof.
  induction t as [t IH] using Tweet_tree_ind. intros depth.
  rewrite cards_unfold, nodes_eq. unfold descendants.
  assert (renderTweetThread t depth
          = mkThread t depth (isIncludedTweet t) (card_replies (renderTweetThread t depth)))
    as Hroot by (by destruct t as [? ? ? ? ? ? ? ? ? ? ? ? ? ? ? ? ? ? ? ? ? ? [cs|] ?]).
  split.
  - rewrite fmap_cons. f_equal; [by rewrite Hroot|].
    induction (kids t) as [|c cs IHcs]; [done|].
    rewrite !bind_cons, fmap_app. f_equal.
    + apply IH. by left.
    + apply IHcs. intros c' Hc'. apply IH. by right.
  - constructor; [rewrite Hroot; by split|].
    induction (kids t) as [|c cs IHcs]; [constructor|].
    rewrite bind_cons. apply Forall_app. split.
    + eapply Forall_impl; [apply (IH c); by left|].
      intros v [? ?]. split; [done|lia].
    + apply IHcs. intros c' Hc'. apply IH. by right.
Qed.

Lemma renderedThreads_nodes (out : Rendered) :
  card_tweet <$> (renderedThreads out ≫= cards) = renderedNodes out.
Proof.
  assert (∀ roots : list Tweet.t,
            card_tweet <$> (((fun tweet => renderTweetThread tweet 0) <$> roots) ≫= cards)
            = roots ≫= nodes) as Hroots.
  { induction roots as [|r roots IH]; [done|].
    rewrite fmap_cons, !bind_cons, fmap_app, IH. f_equal. apply cards_nodes. }
  unfold renderedThreads, renderedNodes. rewrite bind_app, fmap_app, Hroots. f_equal.
  induction (conversations out) as [|e es IH]; [done|].
  rewrite !bind_cons, bind_app, fmap_app, Hroots. by rewrite IH.
Qed.

Lemma renderedThreads_badge (out : Rendered) (v : Thread) :
  v ∈ renderedThreads out ≫= cards →
  card_isIncludedTweet v = isIncludedTweet (card_tweet v).
Proof.
  intros (th & Hv & Hth)%list_elem_of_bind.
  assert (∃ t, th = renderTweetThread t 0) as [t ->].
  { unfold renderedThreads in Hth. apply elem_of_app in Hth as [Hth|Hth].
    - apply list_elem_of_bind in Hth as (e & Hth & _).
      apply list_elem_of_fmap in Hth as (t & -> & _). by exists t.
    - apply list_elem_of_fmap in Hth as (t & -> & _). by exists t. }
  destruct (cards_nodes t 0%nat) as [_ Hall].
  rewrite Forall_forall in Hall. by apply Hall.
Qed.

Lemma regrouped_source a b : regrouped a b → Tweet._source b = Tweet._source a.
Proof. by intros [->|[c ->]]. Qed.

(** X16: the badge "Included Tweet" marks the records that are not primary.
    On the page made of the merged set of [fetchUserTweets], a card carries
    the badge exactly when its record has an id that no record of the primary
    batch has. *)
Theorem badge_marks_supplementary (parseDate : string → option Z)
    rawTweets includesTweets repliedToTweets (v : Thread) :
  v ∈ renderedThreads
        (renderThreads parseDate
           (allTweets (mergeBatches rawTweets includesTweets repliedToTweets)))
      ≫= cards →
  card_isIncludedTweet v = true
  ↔ truthy (Tweet.id (card_tweet v)) = true
    ∧ Tweet.id (card_tweet v) ∉ Raw.id <$> rawTweets.
Proof.
  intros Hv. rewrite (renderedThreads_badge _ _ Hv).
  assert (card_tweet v ∈ renderedNodes
            (renderThreads parseDate
               (allTweets (mergeBatches rawTweets includesTweets repliedToTweets))))
    as Hn.
  { rewrite <- renderedThreads_nodes. apply list_elem_of_fmap. by exists v. }
  apply render_nodes_origin in Hn as (x & gs & Hx & ->).
  change (isIncludedTweet (set_children gs x)) with (isIncludedTweet x).
  change (Tweet.id (set_children gs x)) with (Tweet.id x).
  destruct Hx as [->|Hx]; [by split; [|intros [? _]]|].
  destruct (mergeBatches_spec rawTweets includesTweets repliedToTweets)
    as (Hm & Hi & Hr).
  assert (∀ source (batch ts : list _),
            Forall2 (produced source)
              (filter (fun tweet => Is_true (isValid (mainTweetIdsOf rawTweets) tweet))
                 batch) ts →
            x ∈ ts →
            Tweet._source x = Some source ∧ truthy (Tweet.id x) = true
            ∧ Tweet.id x ∉ Raw.id <$> rawTweets) as Hsupp.
  { intros source batch ts Hts Hxin. apply list_elem_of_lookup in Hxin as [i Hxi].
    destruct (Forall2_lookup_r _ _ _ _ _ Hts Hxi) as (tweet & Htw & Hprod).
    apply list_elem_of_lookup_2, list_elem_of_filter in Htw as [Hvalid _].
    rewrite (produced_id _ _ _ Hprod). split_and!.
    - by eapply produced_source.
    - apply Is_true_true in Hvalid. by eapply isValid_truthy.
    - by apply valid_not_primary. }
  unfold allTweets in Hx. apply elem_of_app in Hx as [Hx|Hx].
  - assert (Tweet._source x = Some main ∧ Tweet.id x ∈ Raw.id <$> rawTweets) as [Hs Hid].
    { apply list_elem_of_lookup in Hx as [i Hxi].
      destruct (Forall2_lookup_r _ _ _ _ _ Hm Hxi) as (p & Hp & Hreg).
      apply list_lookup_fmap_Some in Hp as (tweet & -> & Htw).
      rewrite (regrouped_source _ _ Hreg), (regrouped_id _ _ Hreg). split; [done|].
      apply list_elem_of_fmap. exists tweet. split; [done|].
      by eapply list_elem_of_lookup_2. }
    unfold isIncludedTweet. rewrite Hs. split; [done|]. by intros [_ ?].
  - apply elem_of_app in Hx as [Hx|Hx].
    + destruct (Hsupp _ _ _ Hi Hx) as (Hs & Hid & Hnot).
      unfold isIncludedTweet. rewrite Hs. by split.
    + destruct (Hsupp _ _ _ Hr Hx) as (Hs & Hid & Hnot).
      unfold isIncludedTweet. rewrite Hs. by split.
Qed.

Lemma badge_marks_supplementary_witness :
  ∃ v, v ∈ renderedThreads
             (renderThreads parseYear (allTweets (mergeBatches [raw5] [raw4] [])))
           ≫= cards
       ∧ card_isIncludedTweet v = true
       ∧ Tweet.id (card_tweet v) ∉ Raw.id <$> [raw5].
Proof.
  assert (∃ v, head (renderedThreads
                       (renderThreads parseYear (allTweets (mergeBatches [raw5] [raw4] [])))
                     ≫= cards) = Some v ∧ card_isIncludedTweet v = true)
    as (v & Hv & Hflag) by (eexists; split; by vm_compute).
  apply head_Some_elem_of in Hv.
  exists v. split_and!; [done|done|].
  by apply (badge_marks_supplementary parseYear [raw5] [raw4] [] v Hv).
Defined.

(** ** The thread builder: no record twice *)

Lemma sameRecord_inReplyToId x c : sameRecord x c → Tweet.inReplyToId c = Tweet.inReplyToId x.
Proof. by intros [gs ->]. Qed.

Lemma bind_one {A B} (f : A → list B) (x : A) : [x] ≫= f = f x.
Proof. cbn. apply app_nil_r. Qed.

Section NoDuplicates.
Variable T : list Tweet.t.
Variable X : list Tweet.t.
Hypothesis T_distinct : distinctIds T.
Hypothesis X_sub : X ⊆ T.
Hypothesis X_distinct : NoDup (Tweet.id <$> X).

#[local] Abbreviation copy child := (copyOf (getCopy (copyMap T) (Tweet.id child))).

Lemma same_id_same_record x y : x ∈ T → y ∈ T → Tweet.id x = Tweet.id y → x = y.
Proof.
  intros Hx Hy Hid. destruct T_distinct as [Hnd _].
  apply list_elem_of_lookup in Hx as [i Hi]. apply list_elem_of_lookup in Hy as [j Hj].
  assert (i = j) as ->; [|congruence].
  eapply NoDup_lookup; [exact Hnd| |]; rewrite list_lookup_fmap.
  - by rewrite Hi.
  - rewrite Hj. simpl. by rewrite Hid.
Qed.

Lemma copy_sameRecord x : x ∈ T → sameRecord x (copy x).
Proof. intros Hx. apply (isCopy_sameRecord T); [done|done|by exists []]. Qed.

Lemma ids_truthy x : x ∈ T → truthy (Tweet.id x) = true.
Proof. intros Hx. by apply T_distinct. Qed.

Lemma closedUnder_add s rp :
  rp ∈ X → closedUnder X s →
  (Tweet.inReplyToId rp ∈ Tweet.id <$> X → Tweet.inReplyToId rp ∈ s) →
  closedUnder X ({[Tweet.id rp]} ∪ s).
Proof.
  intros Hrp Hcl Hparent x Hx Hin Hpar.
  apply elem_of_union in Hin as [Hin|Hin].
  - apply elem_of_singleton in Hin. assert (x = rp) as -> by (apply same_id_same_record; auto).
    apply elem_of_union. right. auto.
  - apply elem_of_union. right. by apply Hcl.
Qed.

Section AttachAll.
Variable attach : Tweet.t → gset (option string) → option (Tweet.t * gset (option string)).
Hypothesis attach_fresh : ∀ rp s n s',
  rp ∈ X → Tweet.id rp ∉ s → closedUnder X s →
  (Tweet.inReplyToId rp ∈ Tweet.id <$> X → Tweet.inReplyToId rp ∈ s) →
  attach (copy rp) s = Some (n, s') →
  freshForest X s s' [rp] [n].

Lemma attachAll_fresh (L : list Tweet.t) s cs s' :
  L ⊆ X → NoDup (Tweet.id <$> L) →
  (∀ c, c ∈ L → (Tweet.id c ∉ s)
               ∧ (Tweet.inReplyToId c ∈ Tweet.id <$> X → Tweet.inReplyToId c ∈ s)) →
  closedUnder X s →
  mapState (fun child => attach (copy child)) L s = Some (cs, s') →
  freshForest X s s' L cs.
Proof.
  revert s cs s'. induction L as [|c L IH]; intros s cs s' HL Hnd Hpre Hcl Hmap.
  - injection Hmap as <- <-. unfold freshForest. change ([] ≫= nodes) with (@nil Tweet.t). cbn [fmap list_fmap]. split_and!.
    + constructor.
    + intros i Hi. by apply elem_of_nil in Hi.
    + intros i. split; [by left|]. intros [?|Hi]; [done|]. by apply elem_of_nil in Hi.
    + done.
    + intros m Hm. by apply elem_of_nil in Hm.
    + intros m Hm. by apply elem_of_nil in Hm.
    + intros c Hc. by apply elem_of_nil in Hc.
    + intros m x Hm. by apply elem_of_nil in Hm.
  - cbn [mapState] in Hmap.
    destruct (attach (copy c) s) as [[n1 s1]|] eqn:Hc; [|done].
    destruct (mapState _ L s1) as [[cs' s2]|] eqn:HLmap; [|done].
    injection Hmap as <- <-.
    apply NoDup_cons in Hnd as [Hc_notin HndL].
    destruct (Hpre c ltac:(by left)) as [Hc_s Hc_par].
    destruct (attach_fresh c s n1 s1 ltac:(apply HL; by left) Hc_s Hcl Hc_par Hc)
      as (Hnd1 & Hnew1 & Hs1 & Hcl1 & Hrec1 & Hpar1 & Hroots1 & Hkids1).
    rewrite bind_one in Hnd1, Hnew1, Hs1, Hrec1, Hpar1, Hroots1, Hkids1.
    assert (∀ c', c' ∈ L → (Tweet.id c' ∉ s1)
              ∧ (Tweet.inReplyToId c' ∈ Tweet.id <$> X → Tweet.inReplyToId c' ∈ s1))
      as Hpre1.
    { intros c' Hc'. destruct (Hpre c' ltac:(by right)) as [Hc's Hc'par].
      split; [|intros ?; apply Hs1; left; auto].
      intros Hin. apply Hs1 in Hin as [Hin|Hin]; [done|].
      apply list_elem_of_fmap in Hin as (m & Hidm & Hm).
      destruct (Hrec1 m Hm) as (x & Hx & Hxm).
      assert (x = c') as ->.
      { apply same_id_same_record; [by apply X_sub|apply X_sub, HL; by right|].
        rewrite Hidm. symmetry. by apply sameRecord_id. }
      destruct (Hpar1 m Hm) as [Hroot|Hinside].
      - apply Hc_notin. rewrite <- Hidm in Hroot.
        apply list_elem_of_fmap in Hroot as (y & Hy & Hyc).
        apply list_elem_of_singleton in Hyc as ->.
        apply list_elem_of_fmap. by exists c'.
      - rewrite (sameRecord_inReplyToId _ _ Hxm) in Hinside.
        apply (Hnew1 _ Hinside). apply Hc'par.
        apply list_elem_of_fmap in Hinside as (m' & -> & Hm').
        destruct (Hrec1 m' Hm') as (x' & Hx' & Hxm').
        rewrite (sameRecord_id _ _ Hxm'). apply list_elem_of_fmap. by exists x'. }
    destruct (IH s1 cs' s2)
      as (Hnd2 & Hnew2 & Hs2 & Hcl2 & Hrec2 & Hpar2 & Hroots2 & Hkids2);
      [intros ? ?; apply HL; by right|done|done|done|done|].
    unfold freshForest. rewrite bind_cons. rewrite !fmap_app. split_and!.
    + apply NoDup_app. split_and!; [done| |done].
      intros i Hi1 Hi2. apply (Hnew2 i Hi2). apply Hs1. by right.
    + intros i [Hi|Hi]%elem_of_app; [by apply Hnew1|].
      intros His. apply (Hnew2 i Hi). apply Hs1. by left.
    + intros i. rewrite Hs2, Hs1, elem_of_app. tauto.
    + done.
    + intros m [Hm|Hm]%elem_of_app; auto.
    + intros m [Hm|Hm]%elem_of_app.
      * destruct (Hpar1 m Hm) as [Hroot|Hinside].
        -- left. rewrite fmap_cons. apply list_elem_of_fmap in Hroot as (y & Hy & Hyc).
           apply list_elem_of_singleton in Hyc as ->. rewrite Hy. by left.
        -- right. apply elem_of_app. by left.
      * destruct (Hpar2 m Hm) as [Hroot|Hinside].
        -- left. rewrite fmap_cons. by right.
        -- right. apply elem_of_app. by right.
    + intros c' Hc'. apply elem_of_app. apply elem_of_cons in Hc' as [->|Hc'].
      * left. apply Hroots1. by left.
      * right. by apply Hroots2.
    + intros m x Hm Hx Hrep. apply elem_of_app. apply elem_of_app in Hm as [Hm|Hm].
      * left. by apply (Hkids1 m x).
      * right. by apply (Hkids2 m x).
Qed.

End AttachAll.

Lemma attachChildren_fresh fuel rp s n s' :
  rp ∈ X → Tweet.id rp ∉ s → closedUnder X s →
  (Tweet.inReplyToId rp ∈ Tweet.id <$> X → Tweet.inReplyToId rp ∈ s) →
  attachChildren fuel X (copyMap T) (copy rp) s = Some (n, s') →
  freshForest X s s' [rp] [n].
Proof.
  revert rp s n s'. induction fuel as [|fuel IH]; intros rp s n s' Hrp Hs Hcl Hpar H;
    [done|].
  pose proof (copy_sameRecord rp (X_sub _ Hrp)) as Hsame.
  pose proof (sameRecord_id _ _ Hsame) as Hid.
  cbn [attachChildren] in H. rewrite Hid in H.
  destruct (decide (Tweet.id rp ∈ s)) as [|_]; [done|].
  pose proof (closedUnder_add s rp Hrp Hcl Hpar) as Hcl1.
  assert (∀ gs, sameRecord rp (set_children gs (copy rp))) as Hsame'.
  { intros gs. destruct Hsame as [gs0 ->]. by exists gs. }
  destruct (filter _ X) as [|c0 cs0] eqn:Hfilter.
  - injection H as <- <-. unfold freshForest. rewrite bind_one, nodes_eq.
    rewrite descendants_leaf by apply copyOf_children.
    cbn [fmap list_fmap]. rewrite Hid. split_and!.
    + apply NoDup_singleton.
    + by intros i ->%list_elem_of_singleton.
    + intros i. rewrite elem_of_union, elem_of_singleton, list_elem_of_singleton. tauto.
    + done.
    + intros m ->%list_elem_of_singleton. by exists rp.
    + intros m ->%list_elem_of_singleton. left. rewrite Hid. by left.
    + intros c ->%list_elem_of_singleton. by left.
    + intros m x ->%list_elem_of_singleton Hx Hrep. rewrite Hid in Hrep.
      assert (x ∈ filter (fun t => Is_true (repliesTo (Tweet.id rp) t)) X) as Hin
        by (by apply list_elem_of_filter).
      rewrite Hfilter in Hin. by apply elem_of_nil in Hin.
  - rewrite <- Hfilter in H.
    destruct (mapState _ _ _) as [[cs s2]|] eqn:Hmap; [|done].
    injection H as <- <-.
    apply (attachAll_fresh _ (IH)) in Hmap
      as (Hnd & Hnew & Hs2 & Hcl2 & Hrec & Hparent & Hroots & Hkids).
    + unfold freshForest. rewrite bind_one, nodes_eq, descendants_set_children.
      rewrite fmap_cons.
      change (Tweet.id (set_children cs (copy rp))) with (Tweet.id (copy rp)).
      rewrite Hid. split_and!.
      * apply NoDup_cons. split; [|done]. intros Hin. apply (Hnew _ Hin).
        apply elem_of_union. left. by apply elem_of_singleton.
      * intros i [->|Hi]%elem_of_cons; [done|].
        intros His. apply (Hnew i Hi). apply elem_of_union. by right.
      * intros i. rewrite Hs2, elem_of_union, elem_of_singleton, elem_of_cons. tauto.
      * done.
      * intros m [->|Hm]%elem_of_cons; [by exists rp|by apply Hrec].
      * intros m [->|Hm]%elem_of_cons.
        { left. change (Tweet.id (set_children cs (copy rp))) with (Tweet.id (copy rp)).
          rewrite Hid. by left. }
        right. apply elem_of_cons.
        destruct (Hparent m Hm) as [Hroot|Hinside]; [left|by right].
        apply list_elem_of_fmap in Hroot as (c & Hidc & Hc).
        apply list_elem_of_filter in Hc as [Hrep Hc].
        destruct (Hrec m Hm) as (x & Hx & Hxm).
        assert (x = c) as ->.
        { apply same_id_same_record; [by apply X_sub|by apply X_sub|].
          rewrite <- Hidc. symmetry. by apply sameRecord_id. }
        rewrite (sameRecord_inReplyToId _ _ Hxm).
        apply Is_true_true, andb_true_iff in Hrep as [Hrep _].
        by apply bool_decide_eq_true in Hrep.
      * intros c ->%list_elem_of_singleton. by left.
      * intros m x Hm Hx Hrep. apply elem_of_cons. right.
        apply elem_of_cons in Hm as [->|Hm].
        -- change (Tweet.id (set_children cs (copy rp))) with (Tweet.id (copy rp)) in Hrep.
           rewrite Hid in Hrep. apply Hroots. by apply list_elem_of_filter.
        -- by apply (Hkids m x).
    + intros c [_ Hc]%list_elem_of_filter. done.
    + eapply sublist_NoDup; [exact X_distinct|]. apply fmap_sublist, sublist_filter.
    + intros c [Hrep Hc]%list_elem_of_filter.
      apply Is_true_true, andb_true_iff in Hrep as [Hrep1 Hrep2].
      apply bool_decide_eq_true in Hrep1.
      apply negb_true_iff, bool_decide_eq_false in Hrep2.
      split.
      * intros [Hin|Hin]%elem_of_union; [by apply elem_of_singleton in Hin|].
        apply Hs. rewrite <- Hrep1. apply Hcl; [done|done|].
        rewrite Hrep1. apply list_elem_of_fmap. by exists rp.
      * intros _. rewrite Hrep1. apply elem_of_union. left. by apply elem_of_singleton.
    + done.
Qed.

Hypothesis T_flags : flaggedReplies T.

(** A root has no reply target among the records of its conversation. *)
Lemma root_no_parent r :
  r ∈ X → isRootIn (list_to_set (Tweet.id <$> X)) r = true →
  Tweet.inReplyToId r ∉ Tweet.id <$> X.
Proof.
  intros Hr Hroot Hin. pose proof Hin as Hin'.
  apply list_elem_of_fmap in Hin' as (x & Hx & HxX).
  assert (truthy (Tweet.inReplyToId r) = true) as Htarget.
  { rewrite Hx. by apply ids_truthy, X_sub. }
  pose proof (T_flags r (X_sub _ Hr) Htarget) as Hflag.
  unfold isRootIn in Hroot. rewrite Htarget, Hflag in Hroot. cbn [negb orb] in Hroot.
  apply negb_true_iff, bool_decide_eq_false in Hroot. apply Hroot.
  by apply elem_of_list_to_set.
Qed.

Lemma buildConversation_fresh fuel roots :
  buildConversation fuel (copyMap T) X = Some roots →
  NoDup (Tweet.id <$> (roots ≫= nodes))
  ∧ (∀ m, m ∈ roots ≫= nodes → ∃ x, x ∈ X ∧ sameRecord x m)
  ∧ (∀ c, c ∈ X → isRootIn (list_to_set (Tweet.id <$> X)) c = true →
          Tweet.id c ∈ Tweet.id <$> (roots ≫= nodes))
  ∧ (∀ m x, m ∈ roots ≫= nodes → x ∈ X → Is_true (repliesTo (Tweet.id m) x) →
            Tweet.id x ∈ Tweet.id <$> (roots ≫= nodes)).
Proof.
  unfold buildConversation. intros H.
  destruct (mapState _ _ _) as [[roots' s1]|] eqn:Hmap; [|done].
  injection H as <-.
  apply (attachAll_fresh _ (attachChildren_fresh fuel)) in Hmap
    as (Hnd & _ & _ & _ & Hrec & _ & Hroots & Hkids).
  - split_and!; [done|done| |done].
    intros c Hc Hroot. apply Hroots, list_elem_of_filter. split; [|done].
    by apply Is_true_true.
  - by intros r [_ Hr]%list_elem_of_filter.
  - eapply sublist_NoDup; [exact X_distinct|]. apply fmap_sublist, sublist_filter.
  - intros r [Hroot Hr]%list_elem_of_filter. split; [set_solver|].
    intros Hin. exfalso. apply Is_true_true in Hroot.
    by apply (root_no_parent r Hr Hroot).
  - intros x _ Hx. set_solver.
Qed.

Variable rank : Tweet.t → nat.
Hypothesis X_ranked : ∀ x p,
  x ∈ X → p ∈ X → Tweet.inReplyToId x = Tweet.id p → (rank p < rank x)%nat.

(** Without a reply cycle, every record of the conversation is in one of
    its trees. *)
Lemma buildConversation_complete fuel roots :
  buildConversation fuel (copyMap T) X = Some roots →
  ∀ x, x ∈ X → Tweet.id x ∈ Tweet.id <$> (roots ≫= nodes).
Proof.
  intros H. destruct (buildConversation_fresh _ _ H) as (_ & Hrec & Hroots & Hkids).
  assert (∀ n x, (rank x < n)%nat → x ∈ X →
                 Tweet.id x ∈ Tweet.id <$> (roots ≫= nodes)) as Hall.
  { induction n as [|n IH]; intros x Hn Hx; [lia|].
    destruct (isRootIn (list_to_set (Tweet.id <$> X)) x) eqn:Hroot; [by apply Hroots|].
    unfold isRootIn in Hroot. apply orb_false_iff in Hroot as [_ Hin].
    apply negb_false_iff, bool_decide_eq_true in Hin.
    apply elem_of_list_to_set, list_elem_of_fmap in Hin as (p & Hp & HpX).
    pose proof (X_ranked x p Hx HpX Hp) as Hlt.
    pose proof (IH p ltac:(lia) HpX) as Hpin.
    apply list_elem_of_fmap in Hpin as (m & Hm & Hmn).
    apply (Hkids m x Hmn Hx). apply Is_true_true, andb_true_iff. split.
    - apply bool_decide_eq_true. by rewrite Hp, Hm.
    - apply negb_true_iff, bool_decide_eq_false. intros Hxm.
      assert (x = p) as -> by (apply same_id_same_record; auto; congruence). lia. }
  intros x Hx. by apply (Hall (S (rank x))); [lia|].
Qed.

End NoDuplicates.

Lemma membersOf_distinct tweets k :
  distinctIds tweets → NoDup (Tweet.id <$> membersOf tweets k).
Proof.
  intros [Hnd _]. eapply sublist_NoDup; [exact Hnd|].
  apply fmap_sublist, membersOf_sublist.
Qed.

Lemma smallTimeline_flagged : flaggedReplies smallTimeline.
Proof.
  intros t Ht. repeat (apply elem_of_cons in Ht as [->|Ht]); try done.
  by apply elem_of_nil in Ht.
Qed.

Lemma smallTimeline_acyclic : acyclicReplies smallTimeline.
Proof.
  exists (fun t => if decide (Tweet.id t = Some "2") then 1%nat else 0%nat).
  intros x p Hx Hp.
  repeat (apply elem_of_cons in Hx as [->|Hx]); try (by apply elem_of_nil in Hx);
  repeat (apply elem_of_cons in Hp as [->|Hp]); try (by apply elem_of_nil in Hp);
  intros Hk Hkp Hid; try discriminate Hid; try discriminate Hkp;
  try (by destruct Hk); vm_compute; lia.
Qed.

Lemma smallTimeline_noStray : noStrayReplies smallTimeline.
Proof.
  intros x p Hx Hp.
  repeat (apply elem_of_cons in Hx as [->|Hx]); try (by apply elem_of_nil in Hx);
  repeat (apply elem_of_cons in Hp as [->|Hp]); try (by apply elem_of_nil in Hp);
  intros Hk Hid; try discriminate Hid; try discriminate Hk; reflexivity.
Qed.

(** X17: with pairwise distinct ids and consistent reply flags, the forest
    shows no record twice.  When the input records have pairwise distinct
    non-empty ids and every record that names a reply target is flagged as a
    reply, no id occurs twice among the records of the returned forest. *)
Theorem forest_has_no_duplicates (tweets : list Tweet.t) :
  distinctIds tweets → flaggedReplies tweets →
  NoDup (Tweet.id <$> (organizeTweetsIntoThreads tweets ≫= nodes)).
Proof.
  intros Hd Hflags. rewrite organize_eq.
  set (tm := copyMap tweets). set (cm := (groupByConversation tweets).1).
  assert (∀ k m, m ∈ conversationTrees tweets k ≫= nodes →
                 ∃ x, x ∈ membersOf tweets k ∧ sameRecord x m) as Hconv_rec.
  { intros k m Hm.
    pose proof (buildConversation_enough tweets k (enoughFuel tweets) ltac:(done)) as Hb.
    apply (buildConversation_fresh tweets (membersOf tweets k) Hd
             (membersOf_subseteq tweets k) (membersOf_distinct tweets k Hd) Hflags)
      in Hb as (_ & Hrec & _).
    by apply Hrec. }
  assert (∀ k, NoDup (Tweet.id <$> (conversationTrees tweets k ≫= nodes))) as Hconv_nd.
  { intros k.
    pose proof (buildConversation_enough tweets k (enoughFuel tweets) ltac:(done)) as Hb.
    by apply (buildConversation_fresh tweets (membersOf tweets k) Hd
                (membersOf_subseteq tweets k) (membersOf_distinct tweets k Hd) Hflags)
      in Hb as (Hnd & _). }
  assert (∀ keys i, i ∈ Tweet.id <$> ((keys ≫= conversationTrees tweets) ≫= nodes) →
                    ∃ k x, k ∈ keys ∧ x ∈ tweets ∧ convOf x = Some k ∧ Tweet.id x = i)
    as Hconv_ids.
  { intros keys i (m & -> & Hm)%list_elem_of_fmap.
    apply list_elem_of_bind in Hm as (root & Hm & Hroot).
    apply list_elem_of_bind in Hroot as (k & Hroot & Hk).
    destruct (Hconv_rec k m) as (x & Hx & Hxm).
    { apply list_elem_of_bind. by exists root. }
    apply list_elem_of_filter in Hx as [Hxk Hx].
    exists k, x. split_and!; [done|done|done|]. symmetry. by apply sameRecord_id. }
  assert (∀ L i, i ∈ Tweet.id <$> ((L ≫= orphanRoots tweets tm cm) ≫= nodes) →
                 ∃ t, t ∈ L ∧ (t ∈ tweets → Tweet.id t = i)) as Horph_ids.
  { intros L i (m & -> & Hm)%list_elem_of_fmap.
    apply list_elem_of_bind in Hm as (root & Hm & Hroot).
    apply list_elem_of_bind in Hroot as (t & Hroot & Ht).
    apply orphanRoots_origin in Hroot as ->.
    rewrite nodes_eq, descendants_leaf in Hm by apply copyOf_children.
    apply list_elem_of_singleton in Hm as ->.
    exists t. split; [done|]. intros Htw. symmetry.
    apply sameRecord_id. by apply copy_sameRecord. }
  rewrite bind_app, fmap_app. apply NoDup_app. split_and!.
  - pose proof (NoDup_firstOccurrences (omap convOf tweets)) as Hkeys.
    induction (firstOccurrences (omap convOf tweets)) as [|k keys IH]; [constructor|].
    apply NoDup_cons in Hkeys as [Hk Hkeys].
    rewrite bind_cons, bind_app, fmap_app. apply NoDup_app. split_and!; [done| |by apply IH].
    intros i (m & -> & Hm)%list_elem_of_fmap Hin.
    destruct (Hconv_rec k m Hm) as (x & [Hxk Hx]%list_elem_of_filter & Hxm).
    destruct (Hconv_ids keys _ Hin) as (k' & y & Hk' & Hy & Hyk & Hid).
    assert (y = x) as ->.
    { apply (same_id_same_record tweets Hd); [done|done|].
      rewrite Hid. by apply sameRecord_id. }
    rewrite Hxk in Hyk. injection Hyk as ->. done.
  - intros i Hconv Horph.
    destruct (Hconv_ids _ _ Hconv) as (k & x & _ & Hx & Hxk & Hidx).
    destruct (Horph_ids _ _ Horph) as (t & [Htk Ht]%list_elem_of_filter & Hidt).
    assert (x = t) as ->.
    { apply (same_id_same_record tweets Hd); [done|done|]. rewrite Hidx. symmetry. auto. }
    congruence.
  - pose proof (sublist_NoDup _ _ (proj1 Hd)
                  (fmap_sublist Tweet.id _ _ (standaloneOf_sublist tweets))) as Hnd.
    assert (standaloneOf tweets ⊆ tweets) as Hsub.
    { intros t Ht. by apply list_elem_of_filter in Ht as [_ ?]. }
    induction (standaloneOf tweets) as [|t L IH]; [constructor|].
    rewrite fmap_cons in Hnd. apply NoDup_cons in Hnd as [Ht HndL].
    rewrite bind_cons, bind_app, fmap_app. apply NoDup_app. split_and!.
    + assert (orphanRoots tweets tm cm t = [] ∨
              orphanRoots tweets tm cm t = [copyOf (getCopy tm (Tweet.id t))]) as [-> | ->].
      { unfold orphanRoots. repeat case_match; auto. }
      * constructor.
      * rewrite bind_one, nodes_eq, descendants_leaf by apply copyOf_children.
        apply NoDup_singleton.
    + intros i Hi1 Hi2.
      destruct (Horph_ids [t] i) as (t1 & Ht1 & Hid1).
      { by rewrite bind_one. }
      apply list_elem_of_singleton in Ht1 as ->.
      destruct (Horph_ids L i Hi2) as (t2 & Ht2 & Hid2).
      apply Ht. apply list_elem_of_fmap. exists t2. split; [|done].
      rewrite Hid1, Hid2; [done|apply Hsub; by right|apply Hsub; by left].
    + apply IH; [done|]. intros ? ?. apply Hsub. by right.
Qed.

Lemma forest_has_no_duplicates_witness :
  NoDup (Tweet.id <$> (organizeTweetsIntoThreads smallTimeline ≫= nodes)).
Proof.
  apply forest_has_no_duplicates;
    [apply smallTimeline_distinct|apply smallTimeline_flagged].
Defined.

(** X18: without reply cycles and stray replies, the forest loses no
    record.  When the input records have pairwise distinct non-empty ids
    and consistent reply flags, the replies inside each conversation form no
    cycle, and no record without a conversation id replies to a record that
    has one, every input record is a record of the returned forest, with its
    own fields and some [children] array. *)
Theorem forest_keeps_every_record (tweets : list Tweet.t) :
  distinctIds tweets → flaggedReplies tweets →
  acyclicReplies tweets → noStrayReplies tweets →
  ∀ x, x ∈ tweets →
       ∃ m, m ∈ organizeTweetsIntoThreads tweets ≫= nodes ∧ sameRecord x m.
Proof.
  intros Hd Hflags [rank Hrank] Hstray x Hx. rewrite organize_eq, bind_app.
  destruct (convOf x) as [k|] eqn:Hk.
  - pose proof (buildConversation_enough tweets k (enoughFuel tweets) ltac:(done)) as Hb.
    assert (x ∈ membersOf tweets k) as HxX by (by apply list_elem_of_filter).
    assert (∀ y p, y ∈ membersOf tweets k → p ∈ membersOf tweets k →
                   Tweet.inReplyToId y = Tweet.id p → (rank p < rank y)%nat) as Hranked.
    { intros y p [Hyk Hy]%list_elem_of_filter [Hpk Hp]%list_elem_of_filter Hyp.
      apply Hrank; [done|done|by rewrite Hyk|congruence|done]. }
    pose proof (buildConversation_complete tweets (membersOf tweets k) Hd
                  (membersOf_subseteq tweets k) (membersOf_distinct tweets k Hd) Hflags
                  rank Hranked _ _ Hb x HxX) as Hin.
    apply list_elem_of_fmap in Hin as (m & Hid & Hm).
    destruct (buildConversation_fresh tweets (membersOf tweets k) Hd
                (membersOf_subseteq tweets k) (membersOf_distinct tweets k Hd) Hflags
                _ _ Hb) as (_ & Hrec & _).
    destruct (Hrec m Hm) as (x' & Hx' & Hsame).
    assert (x' = x) as ->.
    { apply (same_id_same_record tweets Hd); [by apply membersOf_subseteq in Hx'|done|].
      rewrite Hid. symmetry. by apply sameRecord_id. }
    exists m. split; [|done]. apply elem_of_app. left.
    apply list_elem_of_bind in Hm as (root & Hm & Hroot).
    apply list_elem_of_bind. exists root. split; [done|].
    apply list_elem_of_bind. exists k. split; [done|].
    apply elem_of_firstOccurrences, list_elem_of_omap. by exists x.
  - exists (copyOf (getCopy (copyMap tweets) (Tweet.id x))).
    split; [|by apply copy_sameRecord].
    apply elem_of_app. right. apply list_elem_of_bind.
    exists (copyOf (getCopy (copyMap tweets) (Tweet.id x))). split.
    { rewrite nodes_eq, descendants_leaf by apply copyOf_children. by left. }
    apply list_elem_of_bind. exists x. split; [|by apply list_elem_of_filter].
    unfold orphanRoots.
    destruct (negb (truthy (Tweet.isReply x)) || negb (truthy (Tweet.inReplyToId x)));
      [by left|].
    destruct (jsfind _ tweets) as [parent|] eqn:Hfind; [|by left].
    apply jsfind_Some in Hfind as [Hparent Hid]. apply bool_decide_eq_true in Hid.
    rewrite (convOf_None_falsy parent); [by left|].
    by apply (Hstray x parent).
Qed.

Lemma forest_keeps_every_record_witness :
  ∃ m, m ∈ organizeTweetsIntoThreads smallTimeline ≫= nodes
       ∧ sameRecord (post "2" "2002" (Some "c") (Some true) (Some "1")) m.
Proof.
  apply (forest_keeps_every_record smallTimeline);
    [apply smallTimeline_distinct|apply smallTimeline_flagged
    |apply smallTimeline_acyclic|apply smallTimeline_noStray|by left].
Defined.

(** ** Rendering: every record once *)

Lemma bind_membersOf_skip (t : Tweet.t) (l : list Tweet.t) (keys : list string) :
  (∀ k, k ∈ keys → convOf t ≠ Some k) →
  keys ≫= membersOf (t :: l) = keys ≫= membersOf l.
Proof.
  induction keys as [|k keys IH]; intros Hk; [done|].
  rewrite !bind_cons, IH by (intros ? ?; apply Hk; by right).
  f_equal. unfold membersOf. rewrite filter_cons_False; [done|]. apply Hk. by left.
Qed.

Lemma bind_membersOf_cons (t : Tweet.t) (l : list Tweet.t) (keys : list string) (k0 : string) :
  NoDup keys → k0 ∈ keys → convOf t = Some k0 →
  keys ≫= membersOf (t :: l) ≡ₚ t :: (keys ≫= membersOf l).
Proof.
  induction keys as [|k keys IH]; intros Hnd Hk0 Ht; [by apply elem_of_nil in Hk0|].
  apply NoDup_cons in Hnd as [Hk Hnd]. rewrite !bind_cons.
  destruct (decide (k = k0)) as [->|Hne].
  - rewrite bind_membersOf_skip.
    + unfold membersOf at 1. by rewrite filter_cons_True.
    + intros k' Hk' Heq. rewrite Ht in Heq. injection Heq as ->. done.
  - apply elem_of_cons in Hk0 as [->|Hk0]; [done|].
    rewrite (IH Hnd Hk0 Ht). unfold membersOf at 1.
    rewrite filter_cons_False by (rewrite Ht; congruence).
    symmetry. apply Permutation_middle.
Qed.

(** The conversations and the records without a conversation key partition
    the list. *)
Lemma partition_by_conversation (l : list Tweet.t) (keys : list string) :
  NoDup keys → (∀ t k, t ∈ l → convOf t = Some k → k ∈ keys) →
  (keys ≫= membersOf l) ++ standaloneOf l ≡ₚ l.
Proof.
  intros Hnd. induction l as [|t l IH]; intros Hkeys.
  - assert (keys ≫= membersOf [] = []) as ->; [|done].
    clear. induction keys as [|k keys IH]; [done|]. by rewrite bind_cons, IH.
  - specialize (IH ltac:(intros ? ? ? ?; eapply Hkeys; [by right|done])).
    destruct (convOf t) as [k0|] eqn:Ht.
    + rewrite (bind_membersOf_cons t l keys k0); [|done|apply (Hkeys t); [by left|done]|done].
      unfold standaloneOf. rewrite filter_cons_False by (by rewrite Ht).
      simpl. by constructor.
    + rewrite bind_membersOf_skip by (intros ? ?; by rewrite Ht).
      unfold standaloneOf. rewrite filter_cons_True by done.
      rewrite <- Permutation_middle. by constructor.
Qed.

Lemma fmap_bind_Permutation {A B C} (f g : A → list B) (h : B → C) (l : list A) :
  (∀ a, a ∈ l → h <$> f a ≡ₚ h <$> g a) →
  h <$> (l ≫= f) ≡ₚ h <$> (l ≫= g).
Proof.
  induction l as [|a l IH]; intros Hfg; [done|].
  rewrite !bind_cons, !fmap_app. f_equiv; [apply Hfg; by left|].
  apply IH. intros ? ?. apply Hfg. by right.
Qed.

(** The trees of one conversation without a reply cycle hold each of its
    records once. *)
Lemma conversation_rearranged (X : list Tweet.t) (k : string) (rank : Tweet.t → nat) :
  distinctIds X → flaggedReplies X → (∀ t, t ∈ X → convOf t = Some k) →
  (∀ x p, x ∈ X → p ∈ X → Tweet.inReplyToId x = Tweet.id p → (rank p < rank x)%nat) →
  Tweet.id <$> (organizeTweetsIntoThreads X ≫= nodes) ≡ₚ Tweet.id <$> X.
Proof.
  intros Hd Hflags Hk Hrank. destruct X as [|x0 X0] eqn:HX; [done|]. rewrite <- HX in *.
  rewrite (organize_one_conversation X k) by (done || by rewrite HX).
  destruct (buildConversation_total (enoughFuel X) X X ltac:(done) ltac:(done))
    as [roots Hb].
  rewrite Hb. cbn [default].
  destruct (buildConversation_fresh X X Hd ltac:(done) (proj1 Hd) Hflags _ _ Hb)
    as (Hnd & Hrec & _).
  pose proof (buildConversation_complete X X Hd ltac:(done) (proj1 Hd) Hflags rank Hrank
                _ _ Hb) as Hall.
  apply NoDup_Permutation; [done|apply Hd|].
  intros i. split.
  - intros (m & -> & Hm)%list_elem_of_fmap. destruct (Hrec m Hm) as (x & Hx & Hsame).
    rewrite (sameRecord_id _ _ Hsame). apply list_elem_of_fmap. by exists x.
  - intros (x & -> & Hx)%list_elem_of_fmap. by apply Hall.
Qed.

(** The roots made of records without a conversation key carry the ids of
    these records. *)
Lemma standalone_ids (S : list Tweet.t) :
  distinctIds S →
  Tweet.id <$> (((fun t => copyOf (getCopy (copyMap S) (Tweet.id t))) <$> S) ≫= nodes)
  = Tweet.id <$> S.
Proof.
  intros Hd.
  assert (∀ L : list Tweet.t, L ⊆ S →
            Tweet.id <$> (((fun t => copyOf (getCopy (copyMap S) (Tweet.id t))) <$> L)
                            ≫= nodes)
            = Tweet.id <$> L) as Hall; [|by apply Hall].
  induction L as [|t L IH]; intros Hsub; [done|].
  rewrite !fmap_cons, bind_cons, fmap_app, IH by (intros ? ?; apply Hsub; by right).
  rewrite nodes_eq, descendants_leaf by apply copyOf_children.
  cbn [fmap list_fmap app]. f_equal.
  apply sameRecord_id, copy_sameRecord; [done|]. apply Hsub. by left.
Qed.

(** X19: when [renderResults] composes the threads, they show every record
    once.  When the records have pairwise distinct non-empty ids and
    consistent reply flags and the replies inside each conversation form no
    cycle, the ids of the records of the conversation groups and of the
    standalone trees are a rearrangement of the ids of the response,
    whatever the dates are. *)
Theorem render_shows_each_record_once (parseDate : string → option Z)
    (isLoading : bool) (error : string) (tweets : list Tweet.t) (out : Rendered) :
  renderResults parseDate isLoading error (Some tweets) = Threads out →
  distinctIds tweets → flaggedReplies tweets → acyclicReplies tweets →
  Tweet.id <$> renderedNodes out ≡ₚ Tweet.id <$> tweets.
Proof.
  intros (_ & _ & ->)%renderResults_Threads Hd Hflags [rank Hrank].
  set (after := fun a b : Tweet.t => timeAfter (tweetTime parseDate a) (tweetTime parseDate b)).
  set (keys := firstOccurrences (omap convOf tweets)).
  assert (∀ L : list Tweet.t, L ⊆ tweets → L `sublist_of` tweets →
            distinctIds (sortBy after L) ∧ flaggedReplies (sortBy after L)) as Hsorted.
  { intros L Hsub Hsl. split.
    - apply (distinctIds_Permutation L); [by rewrite sortBy_Permutation|]. split.
      + eapply sublist_NoDup; [exact (proj1 Hd)|]. by apply fmap_sublist.
      + intros t Ht. by apply Hd, Hsub.
    - intros t Ht. apply Hflags, Hsub. by apply elem_of_sortBy in Ht. }
  unfold renderedNodes, renderThreads. rewrite groupByConversation_spec.
  cbn [conversations standalone]. fold after keys.
  rewrite fmap_app. etrans; [|by rewrite <- (partition_by_conversation tweets keys
    (NoDup_firstOccurrences _)
    ltac:(intros t k Ht Hk; apply elem_of_firstOccurrences, list_elem_of_omap; by exists t))].
  rewrite (fmap_app _ (keys ≫= membersOf tweets)). f_equiv.
  - rewrite list_fmap_bind, sortBy_Permutation, list_fmap_bind.
    apply fmap_bind_Permutation. intros k Hk. unfold compose, renderConversation. cbn [snd fst]. fold after.
    rewrite sortBy_Permutation.
    destruct (Hsorted (membersOf tweets k) (membersOf_subseteq tweets k)
                (membersOf_sublist tweets k)) as [HdS HfS].
    rewrite (conversation_rearranged _ k rank HdS HfS).
    + by rewrite sortBy_Permutation.
    + intros t Ht. apply elem_of_sortBy in Ht. by apply list_elem_of_filter in Ht as [? _].
    + intros x p Hx Hp Hxp. apply elem_of_sortBy, list_elem_of_filter in Hx as [Hxk Hx].
      apply elem_of_sortBy, list_elem_of_filter in Hp as [Hpk Hp].
      apply Hrank; [done|done|by rewrite Hxk|congruence|done].
  - rewrite sortBy_Permutation.
    assert (standaloneOf tweets ⊆ tweets) as Hsub
      by (intros t Ht; by apply list_elem_of_filter in Ht as [_ ?]).
    destruct (Hsorted (standaloneOf tweets) Hsub (standaloneOf_sublist tweets))
      as [HdS _].
    rewrite organize_standalone; last first.
    { intros t Ht. apply elem_of_sortBy in Ht. by eapply standaloneOf_convOf. }
    rewrite (standalone_ids _ HdS). by rewrite sortBy_Permutation.
Qed.

Lemma render_shows_each_record_once_witness :
  ∃ out, renderResults parseYear false "" (Some smallTimeline) = Threads out
         ∧ Tweet.id <$> renderedNodes out ≡ₚ Tweet.id <$> smallTimeline.
Proof.
  exists (renderThreads parseYear smallTimeline). split; [reflexivity|].
  apply (render_shows_each_record_once parseYear false "" smallTimeline);
    [reflexivity|apply smallTimeline_distinct|apply smallTimeline_flagged
    |apply smallTimeline_acyclic].
Defined.
